(** * mkpins: pin table parser and register accumulators

    A shallow embedding of [mkpins.c], the generator that reads a
    comma-delimited pin description and emits the GPIO set-up constants of an
    NXP LPC17xx design.  The embedding follows the C text function by
    function: the field scanner of [main], the pin table, the five [calc_*]
    folds over the table and the [print_*] emitters of the register blocks,
    then the check of the project prefix, the banner and the bit macros that
    complete the two output files, [print_file], [print_pinarray_c] and the
    string trimming functions. *)

From Stdlib Require Import ZArith String Ascii List Bool Lia.
From Stdlib Require Import DecimalString HexadecimalString.
From stdpp Require Import base option list strings.
Import ListNotations.

Local Open Scope Z_scope.

(** ** C integers

    [int] is a 32-bit two's complement integer held in a [Z].  The
    register images are [unsigned long]; they are taken 32 bits wide, the
    width of the LPC17xx registers they initialise and of the [%08lx] fields
    they are printed in. *)

Definition INT_BITS : Z := 32.
Definition ULONG_BITS : Z := 32.

(** Reduction of a mathematical result to the [int] that holds it. *)
Definition wrap_int (x : Z) : Z :=
  (x + 2 ^ (INT_BITS - 1)) mod 2 ^ INT_BITS - 2 ^ (INT_BITS - 1).

(** Conversion of an [int] to [unsigned long], as in [reg |= int_expr]. *)
Definition ulong (x : Z) : Z := x mod 2 ^ ULONG_BITS.

(** [a << n] on [int]: no result for a shift count outside [0, 32) (undefined
    in C); an overflowing result wraps, as gcc documents for signed [<<]. *)
Definition shl_int (a n : Z) : option Z :=
  if decide (0 <= n < INT_BITS) then Some (wrap_int (Z.shiftl a n)) else None.

(** [~a] on [int]. *)
Definition not_int (a : Z) : Z := Z.lnot a.

(** ** Arrays of register images

    A global array is a list of its elements.  An index outside the array is
    undefined behaviour in C and yields no result here. *)

Definition arr_get (a : list Z) (i : Z) : option Z :=
  if decide (0 <= i) then a !! Z.to_nat i else None.

(** [a[i] = f (a[i])], the shape of [a[i] &= m] and [a[i] |= m]. *)
Definition arr_upd (f : Z -> Z) (a : list Z) (i : Z) : option (list Z) :=
  x ← arr_get a i; Some (<[Z.to_nat i := f x]> a).

(** [a[i] &= m] and [a[i] |= m] with [m] an [int] expression. *)
Definition and_assign (a : list Z) (i : Z) (m : Z) : option (list Z) :=
  arr_upd (fun r => Z.land r (ulong m)) a i.
Definition or_assign (a : list Z) (i : Z) (m : Z) : option (list Z) :=
  arr_upd (fun r => Z.lor r (ulong m)) a i.

(** ** The pin record *)

Definition MAXCHARS : nat := 256.
Definition MAXPINS : Z := 256.
Definition NA : Z := 255.   (* 0xff *)
Definition IN : Z := 1.
Definition OUT : Z := 0.

Record PINDEF : Type := mkPINDEF {
  seq : Z;
  pinnum : Z;
  port : Z;
  bit : Z;
  altfunc1 : string;
  altfunc2 : string;
  altfunc3 : string;
  signame : string;
  func : Z;
  inout : Z;
  mode : Z;
  odrain : Z;
  def : Z;
  active : Z
}.

(** ** Register accumulators

    Each [calc_*] is a [for] loop over [pins[0..nseqs-1]]; the loop body is a
    step function on the arrays the loop writes, and the loop is the fold of
    that step, stopping at the first undefined step. *)

Fixpoint for_pins {R : Type} (body : R -> PINDEF -> option R)
    (r : R) (pins : list PINDEF) : option R :=
  match pins with
  | [] => Some r
  | p :: pins' => r' ← body r p; for_pins body r' pins'
  end.

(** The sub-register and shift of a pin, as [calc_PINSEL] computes them.
    [port*2] and [2*bit] are kept unbounded: a value that overflows [int] is
    far outside the array and the shift range and is rejected there. *)
Definition PINSEL_reg_bit2 (port bit : Z) : Z * Z :=
  if bit <? 16 then (port * 2, 2 * bit) else (1 + port * 2, 2 * (bit - 16)).

Definition calc_PINSEL_body (PINSEL : list Z) (p : PINDEF) : option (list Z) :=
  let bit := bit p in
  let port := port p in
  let func := func p in
  let '(reg, bit2) := PINSEL_reg_bit2 port bit in
  m ← shl_int 3 bit2;
  PINSEL ← and_assign PINSEL reg (not_int m);   (* zero the pair of bits *)
  v ← shl_int func bit2;
  or_assign PINSEL reg v.                        (* or-in the desired bits field *)

Definition calc_PINSEL (pins : list PINDEF) (PINSEL : list Z) : option (list Z) :=
  for_pins calc_PINSEL_body PINSEL pins.

(** The same computation as written a second time in [calc_PINMODE]. *)
Definition PINMODE_reg_bit2 (port bit : Z) : Z * Z :=
  if bit <? 16 then (port * 2, 2 * bit) else (1 + port * 2, 2 * (bit - 16)).

Definition calc_PINMODE_body (st : list Z * list Z) (p : PINDEF)
    : option (list Z * list Z) :=
  let '(PINMODE, PINMODE_OD) := st in
  let bit := bit p in
  let port := port p in
  let mode := mode p in
  let odrain := odrain p in
  let '(reg, bit2) := PINMODE_reg_bit2 port bit in
  m ← shl_int 3 bit2;
  PINMODE ← and_assign PINMODE reg (not_int m);
  v ← shl_int mode bit2;
  PINMODE ← or_assign PINMODE reg v;
  PINMODE_OD ← (if odrain =? 1
                then (b ← shl_int 1 bit; or_assign PINMODE_OD port b)
                else Some PINMODE_OD);
  PINMODE_OD ← (if odrain =? 0
                then (b ← shl_int 1 bit; and_assign PINMODE_OD port (not_int b))
                else Some PINMODE_OD);
  Some (PINMODE, PINMODE_OD).

Definition calc_PINMODE (pins : list PINDEF) (PINMODE PINMODE_OD : list Z)
    : option (list Z * list Z) :=
  for_pins calc_PINMODE_body (PINMODE, PINMODE_OD) pins.

(** note: FIODIR bit is 0 for input, 1 for output *)
Definition calc_FIODIR_body (FIODIR : list Z) (p : PINDEF) : option (list Z) :=
  let bit := bit p in
  let port := port p in
  let inout := inout p in
  FIODIR ← (if inout =? IN
            then (b ← shl_int 1 bit; and_assign FIODIR port (not_int b))
            else Some FIODIR);
  if inout =? OUT
  then (b ← shl_int 1 bit; or_assign FIODIR port b)
  else Some FIODIR.

Definition calc_FIODIR (pins : list PINDEF) (FIODIR : list Z) : option (list Z) :=
  for_pins calc_FIODIR_body FIODIR pins.

Definition calc_FIOPIN_body (FIOPIN : list Z) (p : PINDEF) : option (list Z) :=
  let bit := bit p in
  let port := port p in
  let def := def p in
  FIOPIN ← (if def =? 0
            then (b ← shl_int 1 bit; and_assign FIOPIN port (not_int b))
            else Some FIOPIN);
  if def =? 1
  then (b ← shl_int 1 bit; or_assign FIOPIN port b)
  else Some FIOPIN.

Definition calc_FIOPIN (pins : list PINDEF) (FIOPIN : list Z) : option (list Z) :=
  for_pins calc_FIOPIN_body FIOPIN pins.

Definition calc_FIOMASK_body (FIOMASK : list Z) (p : PINDEF) : option (list Z) :=
  let bit := bit p in
  let port := port p in
  let func := func p in
  if func =? 0
  then (b ← shl_int 1 bit; and_assign FIOMASK port (not_int b))
  else Some FIOMASK.

(** The first loop of [calc_FIOMASK] overwrites all five images with
    [0xffffffffL] before the fold. *)
Definition calc_FIOMASK (pins : list PINDEF) (FIOMASK : list Z) : option (list Z) :=
  for_pins calc_FIOMASK_body (map (fun _ => ulong 4294967295) FIOMASK) pins.

(** ** C strings *)

Definition NUL : ascii := "000"%char.
Definition LF : ascii := "010"%char.
Definition COMMA : ascii := ","%char.
Definition DQUOTE : ascii := "034"%char.

(** The string a [char] buffer holds: the bytes before its first NUL. *)
Fixpoint c_str (buf : string) : string :=
  match buf with
  | EmptyString => EmptyString
  | String c buf' => if decide (c = NUL) then EmptyString else String c (c_str buf')
  end.

(** [s + n], for [n] no larger than [strlen(s)]. *)
Fixpoint str_plus (s : string) (n : nat) : string :=
  match n, s with
  | O, _ => s
  | S n', String _ s' => str_plus s' n'
  | S _, EmptyString => EmptyString
  end.

(** [s[i]]; the byte at [strlen(s)] is the terminator. *)
Definition char_at (s : string) (i : nat) : ascii :=
  match String.get i s with
  | Some c => c
  | None => NUL
  end.

Fixpoint mem_char (c : ascii) (set : string) : bool :=
  match set with
  | EmptyString => false
  | String d set' => if decide (c = d) then true else mem_char c set'
  end.

Fixpoint strcspn (s reject : string) : nat :=
  match s with
  | EmptyString => O
  | String c s' => if mem_char c reject then O else S (strcspn s' reject)
  end.

(** [0 == strncmp(s, lit, strlen(lit))] for a literal [lit]. *)
Definition strncmp_eq (s lit : string) : bool := String.prefix lit s.

(** *** [sscanf(field, "%d", &itemp)]

    White space is skipped, an optional sign is read, and at least one
    decimal digit must follow; the conversion stops at the first character
    that is not a digit.  The result is the converted value when the call
    returns 1 and [None] when it returns 0 or [EOF].  A digit string beyond
    the range of [int] has no defined conversion in C; the model keeps its
    mathematical value. *)

Definition isspace (c : ascii) : bool :=
  let n := nat_of_ascii c in
  ((n =? 32) || ((9 <=? n) && (n <=? 13)))%nat.

Definition digit_of (c : ascii) : option Z :=
  let n := nat_of_ascii c in
  if ((48 <=? n) && (n <=? 57))%nat then Some (Z.of_nat n - 48) else None.

Fixpoint skip_space (s : string) : string :=
  match s with
  | String c s' => if isspace c then skip_space s' else s
  | EmptyString => EmptyString
  end.

Fixpoint scan_digits (acc : Z) (s : string) : Z :=
  match s with
  | String c s' =>
      match digit_of c with
      | Some d => scan_digits (10 * acc + d) s'
      | None => acc
      end
  | EmptyString => acc
  end.

Definition scan_unsigned (s : string) : option Z :=
  match s with
  | String c s' => d ← digit_of c; Some (scan_digits d s')
  | EmptyString => None
  end.

Definition sscanf_d (s : string) : option Z :=
  match skip_space s with
  | String "-" s' => n ← scan_unsigned s'; Some (- n)
  | String "+" s' => scan_unsigned s'
  | s' => scan_unsigned s'
  end.

(** ** Reading the input

    [fgets(line, MAXCHARS, fin)] returns at most [MAXCHARS - 1] characters
    and stops after a line feed.  [fgets_lines] is the sequence of buffers
    that successive calls return until end of file: [room] is the space left
    in the buffer and [acc] the characters read into it so far, last first. *)

Fixpoint fgets_lines (room : nat) (acc : list ascii) (file : string) : list string :=
  match file with
  | EmptyString =>
      match acc with
      | [] => []
      | _ => [string_of_list_ascii (rev acc)]
      end
  | String c file' =>
      if decide (c = LF)
      then string_of_list_ascii (rev (c :: acc)) :: fgets_lines (MAXCHARS - 1) [] file'
      else match room with
           | S (S room') => fgets_lines (S room') (c :: acc) file'
           | _ => string_of_list_ascii (rev (c :: acc)) :: fgets_lines (MAXCHARS - 1) [] file'
           end
  end.

Definition read_lines (file : string) : list string :=
  fgets_lines (MAXCHARS - 1) [] file.

(** ** The field scanner of [main]

    The locals [seq], [pinnum], ..., [active] of [main] that one input line
    sets are collected in a record of the shape of [PINDEF]. *)

Definition locals_init : PINDEF :=
  {| seq := 0; pinnum := 0; port := 0; bit := 0;
     altfunc1 := ""; altfunc2 := ""; altfunc3 := ""; signame := "";
     func := NA; inout := NA; mode := 0; odrain := 0; def := 0; active := 1 |}.

Definition set_seq (x : Z) (v : PINDEF) : PINDEF :=
  mkPINDEF x (pinnum v) (port v) (bit v) (altfunc1 v) (altfunc2 v) (altfunc3 v)
    (signame v) (func v) (inout v) (mode v) (odrain v) (def v) (active v).
Definition set_pinnum (x : Z) (v : PINDEF) : PINDEF :=
  mkPINDEF (seq v) x (port v) (bit v) (altfunc1 v) (altfunc2 v) (altfunc3 v)
    (signame v) (func v) (inout v) (mode v) (odrain v) (def v) (active v).
Definition set_port (x : Z) (v : PINDEF) : PINDEF :=
  mkPINDEF (seq v) (pinnum v) x (bit v) (altfunc1 v) (altfunc2 v) (altfunc3 v)
    (signame v) (func v) (inout v) (mode v) (odrain v) (def v) (active v).
Definition set_bit (x : Z) (v : PINDEF) : PINDEF :=
  mkPINDEF (seq v) (pinnum v) (port v) x (altfunc1 v) (altfunc2 v) (altfunc3 v)
    (signame v) (func v) (inout v) (mode v) (odrain v) (def v) (active v).
Definition set_altfunc1 (x : string) (v : PINDEF) : PINDEF :=
  mkPINDEF (seq v) (pinnum v) (port v) (bit v) x (altfunc2 v) (altfunc3 v)
    (signame v) (func v) (inout v) (mode v) (odrain v) (def v) (active v).
Definition set_altfunc2 (x : string) (v : PINDEF) : PINDEF :=
  mkPINDEF (seq v) (pinnum v) (port v) (bit v) (altfunc1 v) x (altfunc3 v)
    (signame v) (func v) (inout v) (mode v) (odrain v) (def v) (active v).
Definition set_altfunc3 (x : string) (v : PINDEF) : PINDEF :=
  mkPINDEF (seq v) (pinnum v) (port v) (bit v) (altfunc1 v) (altfunc2 v) x
    (signame v) (func v) (inout v) (mode v) (odrain v) (def v) (active v).
Definition set_signame (x : string) (v : PINDEF) : PINDEF :=
  mkPINDEF (seq v) (pinnum v) (port v) (bit v) (altfunc1 v) (altfunc2 v) (altfunc3 v)
    x (func v) (inout v) (mode v) (odrain v) (def v) (active v).
Definition set_func (x : Z) (v : PINDEF) : PINDEF :=
  mkPINDEF (seq v) (pinnum v) (port v) (bit v) (altfunc1 v) (altfunc2 v) (altfunc3 v)
    (signame v) x (inout v) (mode v) (odrain v) (def v) (active v).
Definition set_inout (x : Z) (v : PINDEF) : PINDEF :=
  mkPINDEF (seq v) (pinnum v) (port v) (bit v) (altfunc1 v) (altfunc2 v) (altfunc3 v)
    (signame v) (func v) x (mode v) (odrain v) (def v) (active v).
Definition set_mode (x : Z) (v : PINDEF) : PINDEF :=
  mkPINDEF (seq v) (pinnum v) (port v) (bit v) (altfunc1 v) (altfunc2 v) (altfunc3 v)
    (signame v) (func v) (inout v) x (odrain v) (def v) (active v).
Definition set_odrain (x : Z) (v : PINDEF) : PINDEF :=
  mkPINDEF (seq v) (pinnum v) (port v) (bit v) (altfunc1 v) (altfunc2 v) (altfunc3 v)
    (signame v) (func v) (inout v) (mode v) x (def v) (active v).
Definition set_def (x : Z) (v : PINDEF) : PINDEF :=
  mkPINDEF (seq v) (pinnum v) (port v) (bit v) (altfunc1 v) (altfunc2 v) (altfunc3 v)
    (signame v) (func v) (inout v) (mode v) (odrain v) x (active v).
Definition set_active (x : Z) (v : PINDEF) : PINDEF :=
  mkPINDEF (seq v) (pinnum v) (port v) (bit v) (altfunc1 v) (altfunc2 v) (altfunc3 v)
    (signame v) (func v) (inout v) (mode v) (odrain v) (def v) x.

(** The copy loop [for(j=0;j<len;j++)] that fills [field] from
    [lp[beg .. beg+len-1]], leaving out a double quote in the first and in
    the last position; [n] counts the iterations left. *)
Fixpoint copy_field (lp : string) (beg len : nat) (n j : nat) : string :=
  match n with
  | O => EmptyString
  | S n' =>
      let c := char_at lp (j + beg) in
      if (j =? 0)%nat && bool_decide (c = DQUOTE) then copy_field lp beg len n' (S j)
      else if (j =? len - 1)%nat && bool_decide (c = DQUOTE) then copy_field lp beg len n' (S j)
      else String c (copy_field lp beg len n' (S j))
  end.

(** What the body of [if(len!=0)] does with field [i]. *)
Inductive field_result : Type :=
  | FieldOk (v : PINDEF)      (* fall through to the end of the iteration *)
  | FieldBreak                (* [break] out of the field loop *)
  | FieldError.               (* [goto MYERROR] *)

(** An optional numeric field: the local keeps its value when the
    conversion fails. *)
Definition scan_opt (set : Z -> PINDEF -> PINDEF) (field : string) (v : PINDEF) : PINDEF :=
  match sscanf_d field with
  | Some itemp => set itemp v
  | None => v
  end.

(** A name field, copied only when longer than one character. *)
Definition copy_name (set : string -> PINDEF -> PINDEF) (field : string) (v : PINDEF) : PINDEF :=
  if (1 <? String.length field)%nat then set field v else v.

Definition parse_field (i : nat) (field : string) (v : PINDEF) : field_result :=
  match i with
  | 0%nat => match sscanf_d field with
             | Some itemp => FieldOk (set_seq itemp v)
             | None => FieldError
             end
  | 1%nat => if strncmp_eq field "N/A" then FieldBreak
             else match sscanf_d field with
                  | Some itemp => FieldOk (set_pinnum itemp v)
                  | None => FieldError
                  end
  | 2%nat => match sscanf_d field with
             | Some itemp => FieldOk (set_port itemp v)
             | None => FieldError
             end
  | 3%nat => match sscanf_d field with
             | Some itemp => FieldOk (set_bit itemp v)
             | None => FieldError
             end
  | 4%nat => FieldOk (copy_name set_altfunc1 field v)
  | 5%nat => FieldOk (copy_name set_altfunc2 field v)
  | 6%nat => FieldOk (copy_name set_altfunc3 field v)
  | 7%nat => FieldOk (copy_name set_signame field v)
  | 8%nat => FieldOk (scan_opt set_func field v)
  | 9%nat => FieldOk (scan_opt set_inout field v)
  | 10%nat => FieldOk (scan_opt set_mode field v)
  | 11%nat => FieldOk (scan_opt set_odrain field v)
  | 12%nat => FieldOk (scan_opt set_def field v)
  | 13%nat => FieldOk (scan_opt set_active field v)
  | _ => FieldOk v
  end.

Inductive scan_result : Type :=
  | Scanned (v : PINDEF)                   (* the field loop was left normally or by [break] *)
  | ScanError (i : nat) (field : string).  (* [goto MYERROR] at field [i] *)

(** The loop [for(i=0;i<14;i++)], with [n] iterations left. *)
Fixpoint scan_fields (n i : nat) (lp : string) (beg : nat) (v : PINDEF) : scan_result :=
  match n with
  | O => Scanned v
  | S n' =>
      let len := strcspn (str_plus lp beg) "," in
      let field := copy_field lp beg len len 0 in
      match (if (len =? 0)%nat then FieldOk v else parse_field i field v) with
      | FieldError => ScanError i field
      | FieldBreak => Scanned v
      | FieldOk v' =>
          let beg' := if decide (char_at lp (beg + len) = NUL)
                      then (beg + len)%nat else (beg + len + 1)%nat in
          scan_fields n' (S i) lp beg' v'
      end
  end.

Definition scan_line (lp : string) : scan_result :=
  scan_fields 14 0 lp 0 locals_init.

(** ** Formatted output

    An output file is the list of the strings written to it, one per
    [fprintf] call. *)

(** [%d] *)
Definition fmt_d (x : Z) : string :=
  DecimalString.NilZero.string_of_int (Z.to_int x).

Fixpoint zero_pad (n : nat) (s : string) : string :=
  match n with
  | O => s
  | S n' => String "0" (zero_pad n' s)
  end.

(** [%08lx] *)
Definition fmt_08lx (x : Z) : string :=
  let digits := HexadecimalString.NilZero.string_of_uint (N.to_hex_uint (Z.to_N x)) in
  zero_pad (8 - String.length digits) digits.

Definition print_pindef_h (PREFIX : string) (pd : PINDEF) : list string :=
  [ "extern const " +:+ PREFIX +:+ "_PINDEF " +:+ PREFIX +:+ "_" +:+ signame pd
    +:+ ";" +:+ String LF "" ].

Definition print_pindef_c (PREFIX : string) (pd : PINDEF) : list string :=
  [ "const " +:+ PREFIX +:+ "_PINDEF " +:+ PREFIX +:+ "_" +:+ signame pd +:+ " = { "
    +:+ fmt_d (seq pd) +:+ ", " +:+ fmt_d (pinnum pd) +:+ ", "
    +:+ fmt_d (port pd) +:+ ", " +:+ fmt_d (bit pd) +:+ ", "
    +:+ String DQUOTE (altfunc1 pd) +:+ String DQUOTE ", "
    +:+ String DQUOTE (altfunc2 pd) +:+ String DQUOTE ", "
    +:+ String DQUOTE (altfunc3 pd) +:+ String DQUOTE ", "
    +:+ String DQUOTE (signame pd) +:+ String DQUOTE ", "
    +:+ fmt_d (func pd) +:+ ", " +:+ fmt_d (inout pd) +:+ ", "
    +:+ fmt_d (mode pd) +:+ ", " +:+ fmt_d (odrain pd) +:+ ", "
    +:+ fmt_d (def pd) +:+ ", " +:+ fmt_d (active pd) +:+ " };" +:+ String LF "" ].

Definition print_pinarray_h (PREFIX : string) (nseqs : Z) : list string :=
  [ "#define NUM_PINDEFS (" +:+ fmt_d nseqs +:+ ")" +:+ String LF "";
    "extern const " +:+ PREFIX +:+ "_PINDEF* " +:+ PREFIX +:+ "_PINS[NUM_PINDEFS];"
      +:+ String LF "";
    String LF "" ].

(** The line [#define <PREFIX>_<NAME><i>_INIT (0x<value>)] that every
    register block is made of, and the loop [for(i=0;i<n;i++)] printing one
    line per index.  An index outside [regs] has no value to print. *)
Definition init_line (PREFIX name : string) (i : nat) (value : Z) : string :=
  "#define " +:+ PREFIX +:+ "_" +:+ name +:+ fmt_d (Z.of_nat i) +:+ "_INIT (0x"
  +:+ fmt_08lx value +:+ ")" +:+ String LF "".

Definition print_regs (PREFIX name : string) (n : nat) (regs : list Z) : list string :=
  map (fun i => init_line PREFIX name i (default 0 (regs !! i))) (List.seq 0 n).

Definition print_FIODIR (PREFIX : string) (FIODIR : list Z) : list string :=
  print_regs PREFIX "FIODIR" 5 FIODIR ++ [String LF ""].

Definition print_PINSEL (PREFIX : string) (PINSEL : list Z) : list string :=
  print_regs PREFIX "PINSEL" 11 PINSEL ++ [String LF ""].

Definition print_PINMODE (PREFIX : string) (PINMODE PINMODE_OD : list Z) : list string :=
  print_regs PREFIX "PINMODE" 10 PINMODE ++ [String LF ""]
  ++ print_regs PREFIX "PINMODE_OD" 5 PINMODE_OD ++ [String LF ""].

Definition print_FIOPIN (PREFIX : string) (FIOPIN : list Z) : list string :=
  print_regs PREFIX "FIOPIN" 5 FIOPIN ++ [String LF ""].

Definition print_FIOMASK (PREFIX : string) (FIOMASK : list Z) : list string :=
  print_regs PREFIX "FIOMASK" 5 FIOMASK ++ [String LF ""].

(** ** The input loop of [main] *)

(** The variables the loop carries from one line to the next: the counters,
    the global [pins] array and the text written so far to the two output
    files. *)
Record STATE : Type := mkSTATE {
  seqno : Z;
  lineno : Z;
  pins : list PINDEF;
  fouth : list string;
  foutc : list string
}.

(** How one execution of the [while] body ends. *)
Inductive outcome : Type :=
  | Continue (st : STATE)                          (* on to the next [fgets] *)
  | Break (st : STATE)                             (* [break] *)
  | MYERROR (st : STATE) (i : nat) (field : string). (* [goto MYERROR] *)

Definition pindef_of (seqno : Z) (v : PINDEF) : PINDEF :=
  {| seq := seqno; pinnum := pinnum v; port := port v; bit := bit v;
     altfunc1 := altfunc1 v; altfunc2 := altfunc2 v; altfunc3 := altfunc3 v;
     signame := signame v; func := func v; inout := inout v; mode := mode v;
     odrain := odrain v; def := def v; active := active v |}.

Definition while_body (PREFIX : string) (st : STATE) (line : string) : outcome :=
  let lp := c_str line in
  if strncmp_eq lp "END" then Break st
  else
    let lineno := ulong (lineno st + 1) in
    match scan_line lp with
    | ScanError i field =>
        MYERROR (mkSTATE (seqno st) lineno (pins st) (fouth st) (foutc st)) i field
    | Scanned v =>
        if pinnum v =? 0
        then Continue (mkSTATE (seqno st) lineno (pins st) (fouth st) (foutc st))
        else if (String.length (signame v) =? 0)%nat
        then Continue (mkSTATE (seqno st) lineno (pins st) (fouth st) (foutc st))
        else
          let pd := pindef_of (seqno st) v in
          let st' := mkSTATE (seqno st + 1) lineno
                       (<[Z.to_nat (seqno st) := pd]> (pins st))
                       (fouth st ++ print_pindef_h PREFIX pd)
                       (foutc st ++ print_pindef_c PREFIX pd) in
          if MAXPINS <=? seqno st' then Break st' else Continue st'
    end.

(** [while( fgets( line, MAXCHARS, fin ) ) { ... }] over the buffers that
    [fgets] returns; the loop ends at end of file, at a [break] or at
    [MYERROR]. *)
Inductive loop_end : Type :=
  | Finished (st : STATE)
  | Failed (st : STATE) (i : nat) (field : string).

Fixpoint while_loop (PREFIX : string) (st : STATE) (lines : list string) : loop_end :=
  match lines with
  | [] => Finished st
  | line :: lines' =>
      match while_body PREFIX st line with
      | Continue st' => while_loop PREFIX st' lines'
      | Break st' => Finished st'
      | MYERROR st' i field => Failed st' i field
      end
  end.

(** ** [main]

    The model starts after the command line is checked and the three files
    are open.  The banner and the [typedef] written by [print_headers_*],
    the pointer array, the bit macros and the copy of the input appended by
    [print_file] depend on no register image and are left out of [fouth] and
    [foutc]; everything else is written in the order of [main]. *)

Definition pins_zero : PINDEF :=
  {| seq := 0; pinnum := 0; port := 0; bit := 0;
     altfunc1 := ""; altfunc2 := ""; altfunc3 := ""; signame := "";
     func := 0; inout := 0; mode := 0; odrain := 0; def := 0; active := 0 |}.

(** The state at the [while]: the header line has been read and counted. *)
Definition state_init : STATE :=
  {| seqno := 0; lineno := 1; pins := replicate (Z.to_nat MAXPINS) pins_zero;
     fouth := []; foutc := [] |}.

(** The six global arrays. *)
Record REGS : Type := mkREGS {
  PINSEL : list Z;
  PINMODE : list Z;
  PINMODE_OD : list Z;
  FIODIR : list Z;
  FIOPIN : list Z;
  FIOMASK : list Z
}.

(** The two clearing loops at the start of [main]. *)
Definition regs_init : REGS :=
  {| PINSEL := replicate 11 0; PINMODE := replicate 11 0;
     PINMODE_OD := replicate 5 0; FIODIR := replicate 5 0;
     FIOPIN := replicate 5 0; FIOMASK := replicate 5 0 |}.

(** The entries [pins[0..nseqs-1]] that every later loop visits. *)
Definition pin_table (nseqs : Z) (pins : list PINDEF) : list PINDEF :=
  take (Z.to_nat nseqs) pins.

Record RESULT : Type := mkRESULT {
  exit_code : Z;
  nseqs : Z;
  table : list PINDEF;          (* the entries stored in [pins] at exit *)
  regs : REGS;
  out_h : list string;
  out_c : list string;
  err : option (Z * nat * string) (* line, field index and text reported at MYERROR *)
}.

(** The part of [main] from [nseqs = seqno] to [exit_code=0]. *)
Definition emit_all (PREFIX : string) (st : STATE) : option RESULT :=
  let nseqs := seqno st in
  let table := pin_table nseqs (pins st) in
  let fouth := fouth st ++ print_pinarray_h PREFIX nseqs in
  PINSEL ← calc_PINSEL table (PINSEL regs_init);
  let fouth := fouth ++ print_PINSEL PREFIX PINSEL in
  '(PINMODE, PINMODE_OD) ← calc_PINMODE table (PINMODE regs_init) (PINMODE_OD regs_init);
  let fouth := fouth ++ print_PINMODE PREFIX PINMODE PINMODE_OD in
  FIODIR ← calc_FIODIR table (FIODIR regs_init);
  let fouth := fouth ++ print_FIODIR PREFIX FIODIR in
  FIOPIN ← calc_FIOPIN table (FIOPIN regs_init);
  let fouth := fouth ++ print_FIOPIN PREFIX FIOPIN in
  FIOMASK ← calc_FIOMASK table (FIOMASK regs_init);
  let fouth := fouth ++ print_FIOMASK PREFIX FIOMASK in
  Some {| exit_code := 0; nseqs := nseqs; table := table;
          regs := mkREGS PINSEL PINMODE PINMODE_OD FIODIR FIOPIN FIOMASK;
          out_h := fouth; out_c := foutc st; err := None |}.

(** The end of [main]: the emission after the loop, or the exit through
    MYERROR, where [nseqs] is still 0 and nothing more is written. *)
Definition after_loop (PREFIX : string) (e : loop_end) : option RESULT :=
  match e with
  | Finished st => emit_all PREFIX st
  | Failed st i field =>
      Some {| exit_code := 99; nseqs := 0; table := pin_table (seqno st) (pins st);
              regs := regs_init; out_h := fouth st; out_c := foutc st;
              err := Some (lineno st, i, field) |}
  end.

(** [main] on the contents of the input file.  The first buffer [fgets]
    returns is the header and is ignored.  [None] stands for a run that
    indexes an array or shifts outside its bounds. *)
Definition main (file : string) (PREFIX : string) : option RESULT :=
  after_loop PREFIX (while_loop PREFIX state_init (tail (read_lines file))).

(** The state in which the input loop ends. *)
Definition end_state (e : loop_end) : STATE :=
  match e with
  | Finished st => st
  | Failed st _ _ => st
  end.

(** ** Vocabulary of the statements *)

(** The values [beg] and [len] and the text of [field] in iteration [i] of
    the field loop, for a line on which the loop gets that far. *)
Fixpoint field_beg (lp : string) (i : nat) : nat :=
  match i with
  | O => O
  | S i' =>
      let beg := field_beg lp i' in
      let len := strcspn (str_plus lp beg) "," in
      if decide (char_at lp (beg + len) = NUL) then (beg + len)%nat else (beg + len + 1)%nat
  end.

Definition field_span (lp : string) (i : nat) : nat :=
  strcspn (str_plus lp (field_beg lp i)) ",".

Definition field_text (lp : string) (i : nat) : string :=
  copy_field lp (field_beg lp i) (field_span lp i) (field_span lp i) 0.

(** The state after a line that is counted and changes nothing else. *)
Definition line_counted (st : STATE) : STATE :=
  mkSTATE (seqno st) (ulong (lineno st + 1)) (pins st) (fouth st) (foutc st).

(** Field [i] is converted only when it is not empty: it is unparsable
    when it is not empty and [sscanf] does not return 1 on it. *)
Definition unparsable (lp : string) (i : nat) : Prop :=
  field_span lp i <> 0%nat /\ sscanf_d (field_text lp i) = None.

(** Field 1 is not empty and starts with the three characters N/A. *)
Definition is_NA (lp : string) : Prop :=
  field_span lp 1 <> 0%nat /\ strncmp_eq (field_text lp 1) "N/A" = true.

(** What the input loop maintains: the count stays within the array, and
    the entries stored so far carry their own positions in [seq]. *)
Definition table_inv (st : STATE) : Prop :=
  0 <= seqno st <= MAXPINS /\
  length (pins st) = Z.to_nat MAXPINS /\
  seq <$> pin_table (seqno st) (pins st) = seqZ 0 (seqno st).

(** The name [<PREFIX>_<family><i>_INIT] of a generated constant, the test
    that a line of output defines a given name, and the number of lines of
    an output that do. *)
Definition init_name (PREFIX family : string) (i : nat) : string :=
  PREFIX +:+ "_" +:+ family +:+ fmt_d (Z.of_nat i) +:+ "_INIT".

Definition defines (name line : string) : bool :=
  String.prefix ("#define " +:+ name +:+ " ") line.

Definition count_defines (name : string) (out : list string) : nat :=
  length (List.filter (defines name) out).

Definition count_define_lines (out : list string) : nat :=
  length (List.filter (String.prefix "#define ") out).

(** ** The folds as masked writes

    Every step of a [calc_*] loop either is undefined, or leaves the array
    as it is, or replaces one element [r] by [(r & c) | s]. *)

Definition masked_write (a : list Z) (i c s : Z) : option (list Z) :=
  arr_upd (fun r => Z.lor (Z.land r c) s) a i.

Inductive effect : Type :=
  | Undefined
  | Skip
  | Write (i c s : Z).

Definition run_effect (e : effect) (a : list Z) : option (list Z) :=
  match e with
  | Undefined => None
  | Skip => Some a
  | Write i c s => masked_write a i c s
  end.

(** The effect of a step of [calc_PINSEL] or [calc_PINMODE] that writes
    [value] for the pin at [port], [bit]. *)
Definition two_bit_effect (port bit value : Z) : effect :=
  let '(reg, bit2) := PINSEL_reg_bit2 port bit in
  if decide (0 <= bit2 < INT_BITS)
  then Write reg (ulong (Z.lnot (Z.shiftl 3 bit2))) (ulong (Z.shiftl value bit2))
  else Undefined.

(** The effect of a step of a one-bit family: [Some true] sets the pin's
    bit, [Some false] clears it, [None] leaves the array alone. *)
Definition one_bit_effect (port bit : Z) (action : option bool) : effect :=
  match action with
  | None => Skip
  | Some set =>
      if decide (0 <= bit < INT_BITS)
      then if set
           then Write port (-1) (ulong (Z.shiftl 1 bit))
           else Write port (ulong (Z.lnot (Z.shiftl 1 bit))) 0
      else Undefined
  end.

Definition FIODIR_action (p : PINDEF) : option bool :=
  if inout p =? IN then Some false else if inout p =? OUT then Some true else None.

Definition FIOPIN_action (p : PINDEF) : option bool :=
  if def p =? 0 then Some false else if def p =? 1 then Some true else None.

Definition FIOMASK_action (p : PINDEF) : option bool :=
  if func p =? 0 then Some false else None.

Definition PINMODE_OD_action (p : PINDEF) : option bool :=
  if odrain p =? 1 then Some true else if odrain p =? 0 then Some false else None.

(** The port and bit that identify a pin. *)
Definition key (p : PINDEF) : Z * Z := (port p, bit p).

(** Two effects that can be applied in either order: on the same element,
    neither sets a bit that the other clears. *)
Definition compatible (e1 e2 : effect) : Prop :=
  match e1, e2 with
  | Write i c1 s1, Write j c2 s2 =>
      i = j -> forall k, 0 <= k ->
        (Z.testbit s1 k = true -> Z.testbit c2 k = true) /\
        (Z.testbit s2 k = true -> Z.testbit c1 k = true)
  | _, _ => True
  end.

(** ** Bit-level reading of the folds

    What an effect does to bit [k] of element [i]: [Some b] when it leaves
    the bit at [b] whatever it was, [None] when it leaves the bit as it
    is. *)

Definition touch (e : effect) (i : nat) (k : Z) : option bool :=
  match e with
  | Write j c s =>
      if decide (0 <= j /\ Z.to_nat j = i)
      then if Z.testbit s k then Some true
           else if Z.testbit c k then None else Some false
      else None
  | _ => None
  end.

(** The state of a bit after a sequence of effects: the last effect that
    touches it decides, and the initial state stays if none does. *)
Fixpoint last_touch (es : list effect) (i : nat) (k : Z) (init : bool) : bool :=
  match es with
  | [] => init
  | e :: es' => last_touch es' i k (default init (touch e i k))
  end.

(** An effect that runs on an array of [n] elements. *)
Definition defined_on (n : nat) (e : effect) : Prop :=
  match e with
  | Undefined => False
  | Skip => True
  | Write i _ _ => 0 <= i < Z.of_nat n
  end.

(** The effects of the five loops at a pin. *)
Definition PINSEL_effect (p : PINDEF) : effect := two_bit_effect (port p) (bit p) (func p).
Definition PINMODE_effect (p : PINDEF) : effect := two_bit_effect (port p) (bit p) (mode p).
Definition PINMODE_OD_effect (p : PINDEF) : effect :=
  one_bit_effect (port p) (bit p) (PINMODE_OD_action p).
Definition FIODIR_effect (p : PINDEF) : effect :=
  one_bit_effect (port p) (bit p) (FIODIR_action p).
Definition FIOPIN_effect (p : PINDEF) : effect :=
  one_bit_effect (port p) (bit p) (FIOPIN_action p).
Definition FIOMASK_effect (p : PINDEF) : effect :=
  one_bit_effect (port p) (bit p) (FIOMASK_action p).

(** The loop that runs the effect of every pin of the table in turn. *)
Definition run_effects (eff : PINDEF -> effect) (pins : list PINDEF) (a : list Z)
    : option (list Z) :=
  for_pins (fun a p => run_effect (eff p) a) a pins.

(** ** Reading of the fields

    The value a numeric field gives the local it is read into, [d] being
    the value the local holds before, and the text a name field gives. *)

Definition field_int (lp : string) (i : nat) (d : Z) : Z :=
  default d (sscanf_d (field_text lp i)).

Definition field_name (lp : string) (i : nat) : string :=
  if (1 <? String.length (field_text lp i))%nat then field_text lp i else "".

(** ** The rows that are used

    What the two tests after the field loop let through: the locals of a
    line that scans, has a pin number other than 0 and has a signal name. *)
Definition row_of (line : string) : option PINDEF :=
  match scan_line (c_str line) with
  | Scanned v =>
      if pinnum v =? 0 then None
      else if (String.length (signame v) =? 0)%nat then None
      else Some v
  | ScanError _ _ => None
  end.

(** A line that neither ends the input nor ends the run at MYERROR. *)
Definition plain_row (line : string) : Prop :=
  strncmp_eq (c_str line) "END" = false /\
  exists v, scan_line (c_str line) = Scanned v.

(** The fields that [sscanf] is called on, and the lines on which every
    conversion gives a value of [int].  Outside that range the conversion
    has no defined result in C, and [sscanf_d] is no account of it. *)
Definition numeric_fields : list nat := [0; 1; 2; 3; 8; 9; 10; 11; 12; 13]%nat.

Definition fits_int (z : Z) : bool :=
  (- 2 ^ (INT_BITS - 1) <=? z) && (z <? 2 ^ (INT_BITS - 1)).

Definition fields_fit_int (lp : string) : bool :=
  forallb (fun i => match sscanf_d (field_text lp i) with
                    | Some z => fits_int z
                    | None => true
                    end) numeric_fields.

Definition int_row (line : string) : Prop := fields_fit_int (c_str line) = true.

(** ** The string trimming functions

    A [char *] argument is the character array from the pointer on, with
    the end of the list standing for a terminator.  A function that writes
    into the array returns its new contents, and a function that returns a
    pointer returns the offset [rp - cp]. *)

Definition CR : ascii := "013"%char.

Fixpoint strlen (cp : list ascii) : nat :=
  match cp with
  | [] => O
  | c :: cp' => if decide (c = NUL) then O else S (strlen cp')
  end.

(** [cp[i]] *)
Definition str_at (cp : list ascii) (i : nat) : ascii := default NUL (cp !! i).

(** The string that [printf("%s", cp + off)] prints. *)
Definition str_from (cp : list ascii) (off : nat) : string :=
  string_of_list_ascii (take (strlen (drop off cp)) (drop off cp)).

Definition isascii (c : ascii) : bool := (nat_of_ascii c <? 128)%nat.

Definition is_eol (c : ascii) : bool := bool_decide (c = CR) || bool_decide (c = LF).

(** [for(i=0;i<len;i++) { if(test(cp[i])) rp++; else break; }] with [n]
    iterations left; the result is [rp - cp]. *)
Fixpoint lead_loop (test : ascii -> bool) (cp : list ascii) (n i : nat) : nat :=
  match n with
  | O => i
  | S n' => if test (str_at cp i) then lead_loop test cp n' (S i) else i
  end.

(** [for(i=n-1;i>=0;i--) { if(test(cp[i])) cp[i]=0; else break; }] *)
Fixpoint trail_loop (test : ascii -> bool) (cp : list ascii) (n : nat) : list ascii :=
  match n with
  | O => cp
  | S i => if test (str_at cp i) then trail_loop test (<[i:=NUL]> cp) i else cp
  end.

Definition trim_lead (cp : list ascii) : nat :=
  let len := strlen cp in
  if (len =? 0)%nat then 0%nat else lead_loop isspace cp len 0.

Definition trim_bom (cp : list ascii) : nat :=
  let len := strlen cp in
  if (len =? 0)%nat then 0%nat else lead_loop (fun c => negb (isascii c)) cp len 0.

Definition trim_eoline (cp : list ascii) : list ascii :=
  let len := strlen cp in
  if (len =? 0)%nat then cp else trail_loop is_eol cp len.

Definition trim_trail (cp : list ascii) : list ascii :=
  let len := strlen cp in
  if (len =? 0)%nat then cp else trail_loop isspace cp len.

Definition trim_both (cp : list ascii) : list ascii * nat :=
  let len := strlen cp in
  if (len =? 0)%nat then (cp, 0%nat)
  else
    let cp' := trail_loop isspace cp len in
    (cp', lead_loop isspace cp' len 0).

Definition trim_quotes (cp : list ascii) : list ascii * nat :=
  let len := strlen cp in
  if (len =? 0)%nat then (cp, 0%nat)
  else
    let cp' := if decide (str_at cp (len - 1) = DQUOTE) then <[(len - 1)%nat := NUL]> cp else cp in
    (cp', if decide (str_at cp' 0 = DQUOTE) then 1%nat else 0%nat).

(** The text of one comma-separated piece of a line: it holds no comma and
    no terminator. *)
Definition plain_field (f : string) : Prop :=
  strcspn f "," = String.length f /\ c_str f = f.

(** What is printed from the pointer that [trim_both] or [trim_quotes]
    returns. *)
Definition trimmed (r : list ascii * nat) : string := str_from (fst r) (snd r).

(** ** [print_file]

    The copy of the input that is appended to the header file.  [line] is
    the local buffer, which [fgets] overwrites from its start with the
    characters read and a terminator, and [lp] the offset of the pointer
    [lp] into it, which is assigned while the first buffer is in [line]
    and used for every buffer after it. *)

Definition fgets_into (line : list ascii) (s : string) : list ascii :=
  let l := list_ascii_of_string s ++ [NUL] in
  l ++ drop (length l) line.

(** [%04lu] *)
Definition fmt_04lu (x : Z) : string :=
  let digits := fmt_d x in
  zero_pad (4 - String.length digits) digits.

(** [fprintf( fp, "//%04lu: %s\n", lineno, lp )] *)
Definition print_line (lineno : Z) (cp : list ascii) : string :=
  "//" +:+ fmt_04lu lineno +:+ ": " +:+ str_from cp 0 +:+ String LF "".

Fixpoint print_file_loop (lines : list string) (lineno : Z)
    (line : list ascii) (lp : nat) : list string :=
  match lines with
  | [] => []
  | s :: lines' =>
      let line := fgets_into line s in
      let lp := if lineno =? 0 then trim_bom line else lp in
      let lineno := ulong (lineno + 1) in
      let cp := trim_eoline (drop lp line) in
      print_line lineno cp :: print_file_loop lines' lineno (take lp line ++ cp) lp
  end.

Definition rule : string :=
  "//************************************************************************"
  +:+ String LF "".

(** [print_file], with the name [fname_in] of the input file, its contents
    [file] and the indeterminate initial values of the locals [line] and
    [lp]. *)
Definition print_file (fname_in file : string) (line : list ascii) (lp : nat) : list string :=
  [ rule;
    "//***  Input Pin Info CSV file " +:+ fname_in +:+ ", printed below for reference:"
      +:+ String LF "";
    rule ]
  ++ print_file_loop (read_lines file) 0 line lp
  ++ [ rule; "//***  END OF FILE " +:+ fname_in +:+ String LF ""; rule ].

(** ** [print_pinarray_c]

    The array of pointers to the entries of the table.  [ncol] is the
    column the loop takes the output to be in; the lengths added to it are
    below [2 * MAXCHARS], so that no addition overflows. *)

Definition pinarray_entry (PREFIX : string) (pd : PINDEF) : string :=
  "&" +:+ PREFIX +:+ "_" +:+ signame pd +:+ ", ".

Definition pinarray_break : string := String LF "    ".

Fixpoint pinarray_loop (PREFIX : string) (table : list PINDEF) (ncol : Z) : list string :=
  match table with
  | [] => []
  | pd :: table' =>
      let len := Z.of_nat (String.length (signame pd)) + 2 in
      let len := len + (Z.of_nat (String.length PREFIX) + 1) in
      let ncol := ncol + len in
      pinarray_entry PREFIX pd
      :: (if 80 <? ncol then pinarray_break :: pinarray_loop PREFIX table' 4
          else pinarray_loop PREFIX table' ncol)
  end.


(** What one call of [fgets] can return: at least one and at most
    [MAXCHARS - 1] characters, with no line feed before the last. *)
Definition fgets_buffer (b : string) : Prop :=
  exists body c,
    list_ascii_of_string b = body ++ [c] /\
    (length body < MAXCHARS - 1)%nat /\
    Forall (fun x => x <> LF) body.

(** A buffer that [fgets] returns before it reaches the end of the file:
    it ends in a line feed or fills the array. *)
Definition fgets_complete (b : string) : Prop :=
  (exists body, list_ascii_of_string b = body ++ [LF]) \/
  String.length b = (MAXCHARS - 1)%nat.


(** ** The project prefix

    The check of [argv[2]] at the start of [main], in the C locale.  The
    argument is a C string and holds no terminator. *)

Definition isprint (c : ascii) : bool :=
  let n := nat_of_ascii c in ((32 <=? n) && (n <=? 126))%nat.

Definition tolower (c : ascii) : ascii :=
  let n := nat_of_ascii c in
  if ((65 <=? n) && (n <=? 90))%nat then ascii_of_nat (n + 32) else c.

Definition toupper (c : ascii) : ascii :=
  let n := nat_of_ascii c in
  if ((97 <=? n) && (n <=? 122))%nat then ascii_of_nat (n - 32) else c.

(** The loop [for(i=0;i<len;i++)] over [prefix]: the contents of [prefix]
    and [PREFIX] when it runs to the end, [None] when it is left by
    [break]. *)
Fixpoint prefix_loop (s : string) : option (string * string) :=
  match s with
  | EmptyString => Some (EmptyString, EmptyString)
  | String c s' =>
      if isprint c
      then
        let lo := tolower c in
        let up := toupper lo in
        '(prefix, PREFIX) ← prefix_loop s';
        Some (String lo prefix, String up PREFIX)
      else None
  end.

Inductive prefix_result : Type :=
  | PrefixOk (prefix PREFIX fname_out_c fname_out_h : string)
  | PrefixError.                 (* [exit(99)] *)

(** [None] stands for a run that leaves its arrays: [strncpy] stores no
    terminator for an argument of [MAXCHARS] characters or more, and
    [sprintf] writes the prefix, seven more characters and a terminator
    into an array of [MAXCHARS]. *)
Definition check_prefix (arg : string) : option prefix_result :=
  if (MAXCHARS <=? String.length arg)%nat then None
  else
    match prefix_loop arg with
    | None => Some PrefixError
    | Some (prefix, PREFIX) =>
        if (MAXCHARS <? String.length prefix + 8)%nat then None
        else Some (PrefixOk prefix PREFIX (prefix +:+ "_gpio.c") (prefix +:+ "_gpio.h"))
    end.

(** ** The two output files

    What [main] leaves out of [fouth] and [foutc] above: the banner and the
    [typedef] written before the input loop, the bit defines, the bit
    macros and, through [print_file], the copy of the input.  [ENV] holds
    the globals that are set from the command line and the clock before
    anything is written. *)

Record ENV : Type := mkENV {
  mkpins_date_time : string;
  fname_in : string;
  fname_out_c : string;
  fname_out_h : string
}.

Definition print_headers_note (env : ENV) (PREFIX : string) : list string :=
  [ rule; rule;
    "//***" +:+ String LF "";
    "//***  NOTE:  This file was automatically generated by MKPINS" +:+ String LF "";
    "//***  Processing Date/Time:     " +:+ mkpins_date_time env +:+ String LF "";
    "//***  Input Pin Info CSV file:  " +:+ fname_in env +:+ String LF "";
    "//***  Project Name Prefix:      " +:+ PREFIX +:+ String LF "";
    "//***  Output C-File:            " +:+ fname_out_c env +:+ String LF "";
    "//***  Output H-File:            " +:+ fname_out_h env +:+ String LF "";
    "//***" +:+ String LF "";
    rule; rule;
    String LF "" ].


Definition print_headers_h (PREFIX : string) : list string :=
  [ "typedef struct tag" +:+ PREFIX +:+ "_PINDEF {" +:+ String LF "";
    "  int seq;" +:+ String LF "";
    "  int pinnum;" +:+ String LF "";
    "  int port;" +:+ String LF "";
    "  int bit;" +:+ String LF "";
    "  char *altfunc1;" +:+ String LF "";
    "  char *altfunc2;" +:+ String LF "";
    "  char *altfunc3;" +:+ String LF "";
    "  char *signame;" +:+ String LF "";
    "  int func;" +:+ String LF "";
    "  int inout;" +:+ String LF "";
    "  int mode;" +:+ String LF "";
    "  int odrain;" +:+ String LF "";
    "  int def;" +:+ String LF "";
    "  int active;" +:+ String LF "";
    "} " +:+ PREFIX +:+ "_PINDEF;" +:+ String LF "";
    String LF "" ].

Fixpoint spaces (n : nat) : string :=
  match n with
  | O => EmptyString
  | S n' => String " " (spaces n')
  end.

(** [%-25s] and [%-32s]: the text, filled up with spaces on the right. *)
Definition fmt_left (width : nat) (s : string) : string :=
  s +:+ spaces (width - String.length s).

(** [sprintf( temp, ... )] into [char temp[MAXCHARS]]: the text written,
    and no value when the text and its terminator do not fit the array. *)
Definition sprintf_temp (s : string) : option string :=
  if (String.length s <? MAXCHARS)%nat then Some s else None.

(** [fprintf( fp, "#define %-32s    (%d)\n", temp, value )] *)
Definition bit_define (temp : string) (value : Z) : string :=
  "#define " +:+ fmt_left 32 temp +:+ "    (" +:+ fmt_d value +:+ ")" +:+ String LF "".

Fixpoint bit_defines_loop (PREFIX : string) (table : list PINDEF) : option (list string) :=
  match table with
  | [] => Some []
  | pd :: table' =>
      temp ← sprintf_temp (PREFIX +:+ "_" +:+ signame pd +:+ "_PORT");
      let l1 := bit_define temp (port pd) in
      temp ← sprintf_temp (PREFIX +:+ "_" +:+ signame pd +:+ "_BIT");
      let l2 := bit_define temp (bit pd) in
      rest ← bit_defines_loop PREFIX table';
      Some (l1 :: l2 :: rest)
  end.

Definition print_bit_defines (PREFIX : string) (table : list PINDEF) : option (list string) :=
  lines ← bit_defines_loop PREFIX table;
  Some (lines ++ [String LF ""]).

(** The macros that read a pin, of the form
    [#define <PREFIX>_<op>_<name><gap>((LPC_GPIO<port>->FIOPIN & (1<<bit)) >> bit)<tail>],
    and those that write it, of the form
    [#define <PREFIX>_<op>_<name><gap>(LPC_GPIO<port>-><reg> = (1<<bit))]. *)
Definition macro_read (PREFIX op : string) (pd : PINDEF) (gap tail : string) : string :=
  "#define " +:+ PREFIX +:+ "_" +:+ op +:+ "_" +:+ fmt_left 25 (signame pd) +:+ gap
  +:+ "((LPC_GPIO" +:+ fmt_d (port pd) +:+ "->FIOPIN & (1<<" +:+ fmt_d (bit pd) +:+ ")) >> "
  +:+ fmt_d (bit pd) +:+ ")" +:+ tail +:+ String LF "".

Definition macro_write (PREFIX op : string) (pd : PINDEF) (gap reg : string) : string :=
  "#define " +:+ PREFIX +:+ "_" +:+ op +:+ "_" +:+ fmt_left 25 (signame pd) +:+ gap
  +:+ "(LPC_GPIO" +:+ fmt_d (port pd) +:+ "->" +:+ reg +:+ " = (1<<" +:+ fmt_d (bit pd)
  +:+ "))" +:+ String LF "".

(** The body of the loop of [print_bit_macros]. *)
Definition bit_macros (PREFIX : string) (pd : PINDEF) : list string :=
  macro_read PREFIX "GET" pd "   " ""
  :: (if odrain pd =? 1
      then [ macro_write PREFIX "OPEN" pd "    " "FIOSET";
             macro_write PREFIX "SINK" pd "    " "FIOCLR" ]
      else
        [ macro_write PREFIX "SET" pd "    " "FIOSET";
          macro_write PREFIX "CLR" pd "    " "FIOCLR" ]
        ++ (if active pd =? 1
            then [ macro_write PREFIX "ON" pd "    " "FIOSET";
                   macro_write PREFIX "OFF" pd "    " "FIOCLR";
                   macro_read PREFIX "QON" pd "   " "" ]
            else if active pd =? 0
            then [ macro_write PREFIX "ON" pd "     " "FIOCLR";
                   macro_write PREFIX "OFF" pd "    " "FIOSET";
                   macro_read PREFIX "QON" pd "  (" "^1)" ]
            else [])).

Definition print_bit_macros (PREFIX : string) (table : list PINDEF) : list string :=
  flat_map (bit_macros PREFIX) table ++ [String LF ""].


(** The header up to the call of [print_file]: the banner and the
    [typedef], what the loop and the register blocks add, and the bit
    defines and macros when the loop is left without MYERROR. *)
Definition header_before_copy (env : ENV) (PREFIX : string) (r : RESULT)
    : option (list string) :=
  let start := print_headers_note env PREFIX ++ print_headers_h PREFIX ++ out_h r in
  if exit_code r =? 0
  then
    defines ← print_bit_defines PREFIX (table r);
    Some (start ++ defines ++ print_bit_macros PREFIX (table r))
  else Some start.

(** The header file of a run on the input [file]; [line] and [lp] are the
    indeterminate initial values of the locals of [print_file]. *)
Definition file_h (env : ENV) (PREFIX file : string) (line : list ascii) (lp : nat)
    (r : RESULT) : option (list string) :=
  before ← header_before_copy env PREFIX r;
  Some (before ++ (if exit_code r =? 0 then print_file (fname_in env) file line lp else [])).

(** A pin on which no loop of [main] leaves its arrays or the range of a
    shift: the bit is a bit of a 32-bit register, the sub-register of the
    two-bit families exists, and the port is one of the five ports whenever
    a one-bit family reads it. *)
Definition pin_safe (p : PINDEF) : Prop :=
  0 <= bit p < 32 /\
  0 <= fst (PINSEL_reg_bit2 (port p) (bit p)) < 11 /\
  (odrain p = 0 \/ odrain p = 1 \/ inout p = IN \/ inout p = OUT \/
   def p = 0 \/ def p = 1 \/ func p = 0 -> 0 <= port p < 5).

(** A pin whose defines fit the array [temp] of [print_bit_defines]: the
    prefix, an underscore, the signal name, the five characters of [_PORT]
    and the terminator. *)
Definition name_fits (PREFIX : string) (p : PINDEF) : Prop :=
  (String.length PREFIX + String.length (signame p) + 7 <= MAXCHARS)%nat.

(** ** Sample input

    The header and the first two rows of the sample file quoted at the top
    of [mkpins.c].  [LINE s] is the text [s] followed by a line feed and
    [Q s] the text [s] between double quotes. *)

Definition LINE (s : string) : string := s +:+ String LF "".
Definition Q (s : string) : string := String DQUOTE (s +:+ String DQUOTE "").

Definition sample_header : string :=
  LINE (Q "ITEM" +:+ "," +:+ Q "P176x" +:+ "," +:+ Q "PORT" +:+ "," +:+ Q "BIT" +:+ ","
        +:+ Q "FUNC1" +:+ "," +:+ Q "FUNC2" +:+ "," +:+ Q "FUNC3" +:+ "," +:+ Q "SIGNAME"
        +:+ "," +:+ Q "FUNC" +:+ "," +:+ Q "IN/OUT" +:+ "," +:+ Q "MODE" +:+ "," +:+ Q "OD"
        +:+ "," +:+ Q "DEF" +:+ "," +:+ Q "ACT").

Definition sample_row1 : string :=
  LINE ("1,46,0,0," +:+ Q "RD1" +:+ "," +:+ Q "TXD3" +:+ "," +:+ Q "SDA1" +:+ ","
        +:+ Q "GSM_TX" +:+ ",2,0,,,,").
Definition sample_row2 : string :=
  LINE ("2,47,0,1," +:+ Q "TD1" +:+ "," +:+ Q "RXD3" +:+ "," +:+ Q "SCL1" +:+ ","
        +:+ Q "GSM_RX" +:+ ",2,1,,,,").

(** A pin given by the fields the accumulators read. *)
Definition pin_at (port bit func inout mode : Z) : PINDEF :=
  {| seq := 0; pinnum := 1; port := port; bit := bit;
     altfunc1 := ""; altfunc2 := ""; altfunc3 := ""; signame := "SIG";
     func := func; inout := inout; mode := mode; odrain := 0; def := 0; active := 1 |}.

(** * Properties *)

(** ** Integer and array lemmas *)

Lemma wrap_int_congr (x : Z) : exists q, wrap_int x = x + q * 2 ^ ULONG_BITS.
Proof.
  exists (- ((x + 2 ^ (INT_BITS - 1)) / 2 ^ INT_BITS)).
  unfold wrap_int, INT_BITS, ULONG_BITS.
  change (2 ^ (32 - 1)) with 2147483648. change (2 ^ 32) with 4294967296.
  rewrite Z.mod_eq by lia. lia.
Qed.

Lemma ulong_wrap_int (x : Z) : ulong (wrap_int x) = ulong x.
Proof.
  destruct (wrap_int_congr x) as [q ->]. unfold ulong. apply Z_mod_plus_full.
Qed.

Lemma ulong_not_wrap_int (x : Z) : ulong (not_int (wrap_int x)) = ulong (not_int x).
Proof.
  destruct (wrap_int_congr x) as [q ->]. unfold ulong, not_int, Z.lnot.
  replace (Z.pred (- (x + q * 2 ^ ULONG_BITS)))
    with (Z.pred (- x) + (- q) * 2 ^ ULONG_BITS) by lia.
  apply Z_mod_plus_full.
Qed.

Lemma testbit_ulong (x j : Z) :
  Z.testbit (ulong x) j = (j <? ULONG_BITS) && Z.testbit x j.
Proof. unfold ulong. apply Z.testbit_mod_pow2. unfold ULONG_BITS. lia. Qed.

Lemma shl_int_Some (a n v : Z) :
  shl_int a n = Some v -> 0 <= n < INT_BITS /\ v = wrap_int (Z.shiftl a n).
Proof. unfold shl_int. case_decide; [intros [= <-]; auto | discriminate]. Qed.

Lemma arr_upd_Some (f : Z -> Z) (a a' : list Z) (i : Z) :
  arr_upd f a i = Some a' ->
  0 <= i /\ exists x, a !! Z.to_nat i = Some x /\ a' = <[Z.to_nat i := f x]> a.
Proof.
  unfold arr_upd, arr_get. case_decide; [|discriminate].
  destruct (a !! Z.to_nat i) as [x|] eqn:E; [|discriminate].
  simpl. intros [= <-]. eauto.
Qed.

(** An invariant of a [for] loop over the pin table. *)
Lemma for_pins_inv {R : Type} (body : R -> PINDEF -> option R)
    (I : R -> Prop) (P : PINDEF -> Prop) (pins : list PINDEF) :
  (forall r p r', P p -> I r -> body r p = Some r' -> I r') ->
  Forall P pins ->
  forall r r', I r -> for_pins body r pins = Some r' -> I r'.
Proof.
  intros Hstep HP. induction HP as [|p pins Hp _ IH]; intros r r' Hr; simpl.
  - intros [= <-]. exact Hr.
  - destruct (body r p) as [r1|] eqn:E; [|discriminate]. simpl.
    apply IH. eapply Hstep; eauto.
Qed.

(** ** Addressing rule of the two-bit families *)

(** C3.  A pin at port 0, bit 15 is written by [calc_PINSEL] and by
    [calc_PINMODE] into sub-register 0 at shift 30, a pin at port 0, bit 16
    into sub-register 1 at shift 0, and the two functions compute the same
    sub-register and shift for every port and bit. *)
Theorem reg_bit2_split_at_16 :
  PINSEL_reg_bit2 0 15 = (0, 30) /\ PINSEL_reg_bit2 0 16 = (1, 0) /\
  PINMODE_reg_bit2 0 15 = (0, 30) /\ PINMODE_reg_bit2 0 16 = (1, 0) /\
  (forall port bit, PINMODE_reg_bit2 port bit = PINSEL_reg_bit2 port bit) /\
  calc_PINSEL [pin_at 0 15 1 NA 0] (PINSEL regs_init)
    = Some (<[0%nat := Z.shiftl 1 30]> (PINSEL regs_init)) /\
  calc_PINSEL [pin_at 0 16 1 NA 0] (PINSEL regs_init)
    = Some (<[1%nat := Z.shiftl 1 0]> (PINSEL regs_init)) /\
  fst <$> calc_PINMODE [pin_at 0 15 0 NA 1] (PINMODE regs_init) (PINMODE_OD regs_init)
    = Some (<[0%nat := Z.shiftl 1 30]> (PINMODE regs_init)) /\
  fst <$> calc_PINMODE [pin_at 0 16 0 NA 1] (PINMODE regs_init) (PINMODE_OD regs_init)
    = Some (<[1%nat := Z.shiftl 1 0]> (PINMODE regs_init)).
Proof.
  repeat split; try reflexivity.
Qed.

(** The first row of the sample file, run through [main]: one entry with
    sequence 0, function 2 in bits 1..0 of PINSEL0, bit 0 of FIODIR0 set for
    the output, and bit 0 of FIOMASK0 left set. *)
Example sample_row1_end_to_end :
  exists r, main (sample_header +:+ sample_row1) "ZEBRA" = Some r /\
    exit_code r = 0 /\ nseqs r = 1 /\
    table r = [ {| seq := 0; pinnum := 46; port := 0; bit := 0;
                   altfunc1 := "RD1"; altfunc2 := "TXD3"; altfunc3 := "SDA1";
                   signame := "GSM_TX"; func := 2; inout := OUT; mode := 0;
                   odrain := 0; def := 0; active := 1 |} ] /\
    PINSEL (regs r) !! 0%nat = Some 2 /\
    FIODIR (regs r) !! 0%nat = Some 1 /\
    FIOMASK (regs r) !! 0%nat = Some 4294967295.
Proof.
  eexists. split; [vm_compute; reflexivity|]. repeat split.
Qed.

(** ** Order of the folds *)

Lemma arr_upd_ext (f g : Z -> Z) (a : list Z) (i : Z) :
  (forall x, f x = g x) -> arr_upd f a i = arr_upd g a i.
Proof.
  intros Hfg. unfold arr_upd. destruct (arr_get a i) as [x|]; simpl; [|reflexivity].
  rewrite Hfg. reflexivity.
Qed.

Lemma and_assign_masked (a : list Z) (i m : Z) :
  and_assign a i m = masked_write a i (ulong m) 0.
Proof. apply arr_upd_ext. intros x. rewrite Z.lor_0_r. reflexivity. Qed.

Lemma or_assign_masked (a : list Z) (i m : Z) :
  or_assign a i m = masked_write a i (-1) (ulong m).
Proof. apply arr_upd_ext. intros x. rewrite Z.land_m1_r. reflexivity. Qed.

(** Two masked writes to one element are one masked write. *)
Lemma masked_write_twice (a : list Z) (i c1 s1 c2 s2 : Z) :
  masked_write a i c1 s1 ≫= (fun a' => masked_write a' i c2 s2)
  = masked_write a i (Z.land c1 c2) (Z.lor (Z.land s1 c2) s2).
Proof.
  unfold masked_write, arr_upd, arr_get.
  destruct (decide (0 <= i)) as [Hi|Hi]; [|reflexivity].
  destruct (a !! Z.to_nat i) as [x|] eqn:Hx; simpl; [|reflexivity].
  destruct (decide (0 <= i)); [|contradiction].
  rewrite list_lookup_insert_eq by (eapply lookup_lt_Some; eauto). simpl.
  rewrite list_insert_insert_eq. do 2 f_equal.
  apply Z.bits_inj'. intros k Hk.
  repeat first [rewrite Z.lor_spec | rewrite Z.land_spec].
  destruct (Z.testbit x k), (Z.testbit c1 k), (Z.testbit s1 k),
    (Z.testbit c2 k), (Z.testbit s2 k); reflexivity.
Qed.

Lemma run_effect_comm (e1 e2 : effect) (a : list Z) :
  compatible e1 e2 ->
  run_effect e1 a ≫= run_effect e2 = run_effect e2 a ≫= run_effect e1.
Proof.
  assert (Hrun : forall i c s, run_effect (Write i c s)
                               = fun a' => masked_write a' i c s) by reflexivity.
  destruct e1 as [| |i c1 s1], e2 as [| |j c2 s2]; simpl; intros Hc;
    try reflexivity;
    try (match goal with |- context [masked_write ?a ?i ?c ?s] =>
           destruct (masked_write a i c s); reflexivity end).
  rewrite !Hrun. clear Hrun.
  destruct (decide (i = j)) as [<-|Hne].
  - rewrite !masked_write_twice. unfold masked_write. apply arr_upd_ext.
    intros x. apply Z.bits_inj'. intros k Hk.
    destruct (Hc eq_refl k Hk) as [H1 H2].
    repeat first [rewrite Z.lor_spec | rewrite Z.land_spec].
    destruct (Z.testbit x k), (Z.testbit c1 k), (Z.testbit s1 k),
      (Z.testbit c2 k), (Z.testbit s2 k); try reflexivity;
      first [specialize (H1 eq_refl); discriminate | specialize (H2 eq_refl); discriminate].
  - unfold masked_write, arr_upd, arr_get.
    destruct (decide (0 <= i)) as [Hi|Hi], (decide (0 <= j)) as [Hj|Hj]; simpl;
      try reflexivity.
    + assert (Hn : Z.to_nat i <> Z.to_nat j) by lia.
      destruct (a !! Z.to_nat i) as [x|] eqn:Hx, (a !! Z.to_nat j) as [y|] eqn:Hy; simpl;
        rewrite ?decide_True by assumption;
        rewrite ?list_lookup_insert_ne by (auto; lia);
        rewrite ?Hx, ?Hy; simpl; try reflexivity.
      rewrite list_insert_insert_ne by (intros Heq; apply Hn; symmetry; exact Heq).
      reflexivity.
    + destruct (a !! Z.to_nat i); reflexivity.
    + destruct (a !! Z.to_nat j); reflexivity.
Qed.

Lemma arr_upd_twice (f g : Z -> Z) (a : list Z) (i : Z) :
  arr_upd f a i ≫= (fun a' => arr_upd g a' i) = arr_upd (fun r => g (f r)) a i.
Proof.
  unfold arr_upd, arr_get.
  destruct (decide (0 <= i)) as [Hi|Hi]; [|reflexivity].
  destruct (a !! Z.to_nat i) as [x|] eqn:Hx; simpl; [|reflexivity].
  rewrite list_lookup_insert_eq by (eapply lookup_lt_Some; eauto). simpl.
  rewrite list_insert_insert_eq. reflexivity.
Qed.

Lemma bind_Some_r {A : Type} (m : option A) : m ≫= Some = m.
Proof. destruct m; reflexivity. Qed.

(** *** Every loop body is the run of an effect *)

Lemma two_bit_body_effect (a : list Z) (port bit value : Z) :
  (let '(reg, bit2) := PINSEL_reg_bit2 port bit in
   m ← shl_int 3 bit2;
   a' ← and_assign a reg (not_int m);
   v ← shl_int value bit2;
   or_assign a' reg v)
  = run_effect (two_bit_effect port bit value) a.
Proof.
  unfold two_bit_effect. destruct (PINSEL_reg_bit2 port bit) as [reg bit2].
  unfold shl_int. destruct (decide (0 <= bit2 < INT_BITS)); [|reflexivity].
  simpl. unfold and_assign, or_assign. rewrite arr_upd_twice.
  apply arr_upd_ext. intros r.
  rewrite ulong_not_wrap_int, ulong_wrap_int. reflexivity.
Qed.

Lemma calc_PINSEL_body_effect (a : list Z) (p : PINDEF) :
  calc_PINSEL_body a p = run_effect (two_bit_effect (port p) (bit p) (func p)) a.
Proof. apply two_bit_body_effect. Qed.

Lemma clear_bit_effect (a : list Z) (port bit : Z) :
  (b ← shl_int 1 bit; and_assign a port (not_int b))
  = run_effect (one_bit_effect port bit (Some false)) a.
Proof.
  unfold one_bit_effect, shl_int. destruct (decide (0 <= bit < INT_BITS)); [|reflexivity].
  simpl. rewrite and_assign_masked, ulong_not_wrap_int. reflexivity.
Qed.

Lemma set_bit_effect (a : list Z) (port bit : Z) :
  (b ← shl_int 1 bit; or_assign a port b)
  = run_effect (one_bit_effect port bit (Some true)) a.
Proof.
  unfold one_bit_effect, shl_int. destruct (decide (0 <= bit < INT_BITS)); [|reflexivity].
  simpl. rewrite or_assign_masked, ulong_wrap_int. reflexivity.
Qed.

Lemma calc_FIODIR_body_effect (a : list Z) (p : PINDEF) :
  calc_FIODIR_body a p
  = run_effect (one_bit_effect (port p) (bit p) (FIODIR_action p)) a.
Proof.
  unfold calc_FIODIR_body, FIODIR_action.
  destruct (Z.eqb_spec (inout p) IN) as [HI|HI].
  - destruct (Z.eqb_spec (inout p) OUT) as [HO|HO]; [rewrite HI in HO; discriminate|].
    rewrite clear_bit_effect. apply bind_Some_r.
  - simpl. destruct (Z.eqb_spec (inout p) OUT); [apply set_bit_effect|reflexivity].
Qed.

Lemma calc_FIOPIN_body_effect (a : list Z) (p : PINDEF) :
  calc_FIOPIN_body a p
  = run_effect (one_bit_effect (port p) (bit p) (FIOPIN_action p)) a.
Proof.
  unfold calc_FIOPIN_body, FIOPIN_action.
  destruct (Z.eqb_spec (def p) 0) as [H0|H0].
  - destruct (Z.eqb_spec (def p) 1) as [H1|H1]; [rewrite H0 in H1; discriminate|].
    rewrite clear_bit_effect. apply bind_Some_r.
  - simpl. destruct (Z.eqb_spec (def p) 1); [apply set_bit_effect|reflexivity].
Qed.

Lemma calc_FIOMASK_body_effect (a : list Z) (p : PINDEF) :
  calc_FIOMASK_body a p
  = run_effect (one_bit_effect (port p) (bit p) (FIOMASK_action p)) a.
Proof.
  unfold calc_FIOMASK_body, FIOMASK_action.
  destruct (func p =? 0); [apply clear_bit_effect|reflexivity].
Qed.

Lemma calc_PINMODE_body_effect (a b : list Z) (p : PINDEF) :
  calc_PINMODE_body (a, b) p
  = (a' ← run_effect (two_bit_effect (port p) (bit p) (mode p)) a;
     b' ← run_effect (one_bit_effect (port p) (bit p) (PINMODE_OD_action p)) b;
     Some (a', b')).
Proof.
  rewrite <- two_bit_body_effect. unfold calc_PINMODE_body, PINMODE_OD_action.
  change (PINMODE_reg_bit2 (port p) (bit p)) with (PINSEL_reg_bit2 (port p) (bit p)).
  destruct (PINSEL_reg_bit2 (port p) (bit p)) as [reg bit2].
  destruct (shl_int 3 bit2) as [m|]; [simpl|reflexivity].
  destruct (and_assign a reg (not_int m)) as [a1|]; [simpl|reflexivity].
  destruct (shl_int (mode p) bit2) as [v|]; [simpl|reflexivity].
  destruct (or_assign a1 reg v) as [a2|]; [simpl|reflexivity].
  destruct (Z.eqb_spec (odrain p) 1) as [H1|H1].
  - destruct (Z.eqb_spec (odrain p) 0) as [H0|H0]; [rewrite H1 in H0; discriminate|].
    rewrite set_bit_effect.
    destruct (run_effect (one_bit_effect (port p) (bit p) (Some true)) b); reflexivity.
  - simpl. destruct (Z.eqb_spec (odrain p) 0) as [H0|H0]; [|reflexivity].
    rewrite clear_bit_effect.
    destruct (run_effect (one_bit_effect (port p) (bit p) (Some false)) b); reflexivity.
Qed.

(** *** Bits that the effects set and clear *)

Lemma testbit_below_4 (v j : Z) : 0 <= v <= 3 -> Z.testbit v j = true -> 0 <= j < 2.
Proof.
  intros Hv Hbit. destruct (Z.neg_nonneg_cases j) as [Hj|Hj].
  - rewrite Z.testbit_neg_r in Hbit by exact Hj. discriminate.
  - split; [exact Hj|]. destruct (Z.lt_ge_cases j 2) as [|Hge]; [assumption|].
    assert (Hhigh : Z.testbit v j = false).
    { apply (proj1 (Z.bounded_iff_bits_nonneg 2 v ltac:(lia) ltac:(lia))); [|exact Hge].
      change (2 ^ 2) with 4. lia. }
    rewrite Hhigh in Hbit. discriminate.
Qed.

Lemma field_value_bits (v b k : Z) :
  0 <= v <= 3 -> 0 <= k ->
  Z.testbit (ulong (Z.shiftl v b)) k = true -> b <= k < b + 2 /\ k < ULONG_BITS.
Proof.
  intros Hv Hk. rewrite testbit_ulong, Z.shiftl_spec by exact Hk.
  intros [Hlt Hbit]%andb_true_iff. apply Z.ltb_lt in Hlt.
  apply (testbit_below_4 v) in Hbit; [lia|exact Hv].
Qed.

Lemma field_mask_bits (b k : Z) :
  0 <= k < ULONG_BITS -> ~ (b <= k < b + 2) ->
  Z.testbit (ulong (Z.lnot (Z.shiftl 3 b))) k = true.
Proof.
  intros Hk Hout. rewrite testbit_ulong, Z.lnot_spec, Z.shiftl_spec by lia.
  apply andb_true_iff. split; [apply Z.ltb_lt; lia|].
  apply negb_true_iff. destruct (Z.testbit 3 (k - b)) eqn:Hbit; [|reflexivity].
  apply (testbit_below_4 3) in Hbit; lia.
Qed.

Lemma bit_value_bits (b k : Z) :
  0 <= b -> Z.testbit (ulong (Z.shiftl 1 b)) k = true -> k = b /\ k < ULONG_BITS.
Proof.
  intros Hb. rewrite testbit_ulong, Z.shiftl_1_l, Z.pow2_bits_eqb by exact Hb.
  intros [Hlt Heq]%andb_true_iff. apply Z.ltb_lt in Hlt. apply Z.eqb_eq in Heq. lia.
Qed.

Lemma bit_mask_bits (b k : Z) :
  0 <= b -> 0 <= k < ULONG_BITS -> k <> b ->
  Z.testbit (ulong (Z.lnot (Z.shiftl 1 b))) k = true.
Proof.
  intros Hb Hk Hne.
  rewrite testbit_ulong, Z.lnot_spec, Z.shiftl_1_l, Z.pow2_bits_eqb by lia.
  apply andb_true_iff. split; [apply Z.ltb_lt; lia|].
  apply negb_true_iff, Z.eqb_neq. lia.
Qed.

(** *** Pins at different places have compatible effects *)

Lemma two_bit_compatible (port bit v port' bit' v' : Z) :
  (port, bit) <> (port', bit') -> 0 <= v <= 3 -> 0 <= v' <= 3 ->
  compatible (two_bit_effect port bit v) (two_bit_effect port' bit' v').
Proof.
  intros Hkey Hv Hv'. unfold two_bit_effect, PINSEL_reg_bit2.
  assert (Hne : port <> port' \/ bit <> bit').
  { destruct (decide (port = port')) as [->|]; [|auto].
    right. intros ->. apply Hkey. reflexivity. }
  destruct (Z.ltb_spec bit 16), (Z.ltb_spec bit' 16);
    repeat case_decide; simpl; try exact I;
    intros Hreg k Hk; (split; intros Hset;
      [apply (field_value_bits v) in Hset | apply (field_value_bits v') in Hset];
      try assumption; apply field_mask_bits; unfold INT_BITS, ULONG_BITS in *; lia).
Qed.

Lemma one_bit_compatible (port bit port' bit' : Z) (act act' : option bool) :
  (port, bit) <> (port', bit') ->
  compatible (one_bit_effect port bit act) (one_bit_effect port' bit' act').
Proof.
  intros Hkey. unfold one_bit_effect.
  destruct act as [[|]|], act' as [[|]|]; repeat case_decide; simpl; try exact I;
    intros -> k Hk;
    assert (Hbit : bit <> bit') by (intros ->; apply Hkey; reflexivity);
    (split; intros Hset;
     first [ rewrite Z.bits_0 in Hset; discriminate
           | apply bit_value_bits in Hset; [|lia];
             first [ apply Z.bits_m1; lia
                   | apply bit_mask_bits; unfold INT_BITS, ULONG_BITS in *; lia ] ]).
Qed.

(** *** Permuting the table *)

Lemma for_pins_perm {R : Type} (body : R -> PINDEF -> option R) (ok : PINDEF -> Prop) :
  (forall p q r, ok p -> ok q -> key p <> key q ->
     body r p ≫= (fun r' => body r' q) = body r q ≫= (fun r' => body r' p)) ->
  forall pins pins', pins ≡ₚ pins' ->
  Forall ok pins -> NoDup (key <$> pins) ->
  forall r, for_pins body r pins = for_pins body r pins'.
Proof.
  intros Hcomm pins pins' Hperm.
  induction Hperm as [|x l l' Hperm IH|x y l|l l' l'' Hperm1 IH1 Hperm2 IH2];
    intros Hok Hnodup r.
  - reflexivity.
  - simpl. apply Forall_cons in Hok as [_ Hok].
    rewrite fmap_cons in Hnodup. apply NoDup_cons in Hnodup as [_ Hnodup].
    destruct (body r x) as [r'|]; simpl; [apply IH; assumption|reflexivity].
  - simpl. apply Forall_cons in Hok as [Hy Hok]. apply Forall_cons in Hok as [Hx _].
    rewrite !fmap_cons in Hnodup. apply NoDup_cons in Hnodup as [Hnotin _].
    assert (Hne : key y <> key x).
    { intros Heq. apply Hnotin. rewrite Heq. apply list_elem_of_here. }
    pose proof (Hcomm y x r Hy Hx Hne) as Hswap.
    destruct (body r y) as [ry|], (body r x) as [rx|]; simpl in *;
      first [reflexivity | rewrite Hswap; reflexivity | rewrite <- Hswap; reflexivity].
  - rewrite IH1 by assumption. apply IH2.
    + rewrite <- Hperm1. exact Hok.
    + rewrite <- Hperm1. exact Hnodup.
Qed.

(** Effects on two arrays that each commute, commute as a pair. *)
Lemma pair_comm {A B : Type} (f1 g1 : A -> option A) (f2 g2 : B -> option B) (a : A) (b : B) :
  f1 a ≫= g1 = g1 a ≫= f1 ->
  f2 b ≫= g2 = g2 b ≫= f2 ->
  (a1 ← f1 a; b1 ← f2 b; Some (a1, b1)) ≫= (fun '(a1, b1) => a2 ← g1 a1; b2 ← g2 b1; Some (a2, b2))
  = (a1 ← g1 a; b1 ← g2 b; Some (a1, b1)) ≫= (fun '(a1, b1) => a2 ← f1 a1; b2 ← f2 b1; Some (a2, b2)).
Proof.
  intros H1 H2.
  destruct (f1 a) as [a1|], (g1 a) as [a1'|], (f2 b) as [b1|], (g2 b) as [b1'|];
    simpl in *; rewrite ?H1, ?H2; try reflexivity;
    try (rewrite <- ?H1, <- ?H2; reflexivity);
    repeat match goal with
           | |- context [?h ?x ≫= _] => destruct (h x); simpl
           end; congruence.
Qed.

(** A body that runs an effect commutes with itself at two pins of
    compatible effects. *)
Lemma body_comm (body : list Z -> PINDEF -> option (list Z)) (eff : PINDEF -> effect) :
  (forall a p, body a p = run_effect (eff p) a) ->
  forall p q r, compatible (eff p) (eff q) ->
  body r p ≫= (fun r' => body r' q) = body r q ≫= (fun r' => body r' p).
Proof.
  intros Hbody p q r Hc.
  transitivity (run_effect (eff p) r ≫= run_effect (eff q)).
  { rewrite Hbody. destruct (run_effect (eff p) r); simpl; [apply Hbody|reflexivity]. }
  rewrite run_effect_comm by exact Hc.
  rewrite Hbody. destruct (run_effect (eff q) r); simpl; [symmetry; apply Hbody|reflexivity].
Qed.

(** Order independence of each fold, for a table whose pins lie at
    pairwise different (port, bit) places; the two-bit families need the
    value written to fit the field. *)

Lemma calc_PINSEL_perm (pins pins' : list PINDEF) (a : list Z) :
  pins ≡ₚ pins' ->
  Forall (fun p => 0 <= func p <= 3) pins ->
  NoDup (key <$> pins) ->
  calc_PINSEL pins a = calc_PINSEL pins' a.
Proof.
  intros Hperm Hok Hnodup. unfold calc_PINSEL.
  apply (for_pins_perm calc_PINSEL_body (fun p => 0 <= func p <= 3)); try assumption.
  intros p q r Hp Hq Hkey.
  apply (body_comm _ (fun p => two_bit_effect (port p) (bit p) (func p)));
    [apply calc_PINSEL_body_effect|].
  apply two_bit_compatible; assumption.
Qed.

Lemma one_bit_fold_perm (body : list Z -> PINDEF -> option (list Z))
    (action : PINDEF -> option bool) (pins pins' : list PINDEF) (a : list Z) :
  (forall a p, body a p = run_effect (one_bit_effect (port p) (bit p) (action p)) a) ->
  pins ≡ₚ pins' ->
  NoDup (key <$> pins) ->
  for_pins body a pins = for_pins body a pins'.
Proof.
  intros Hbody Hperm Hnodup.
  apply (for_pins_perm body (fun _ => True)); try assumption.
  - intros p q r _ _ Hkey.
    apply (body_comm _ (fun p => one_bit_effect (port p) (bit p) (action p)));
      [exact Hbody|].
    apply one_bit_compatible. exact Hkey.
  - apply Forall_forall. auto.
Qed.

Lemma calc_PINMODE_perm (pins pins' : list PINDEF) (a b : list Z) :
  pins ≡ₚ pins' ->
  Forall (fun p => 0 <= mode p <= 3) pins ->
  NoDup (key <$> pins) ->
  calc_PINMODE pins a b = calc_PINMODE pins' a b.
Proof.
  intros Hperm Hok Hnodup. unfold calc_PINMODE.
  apply (for_pins_perm calc_PINMODE_body (fun p => 0 <= mode p <= 3)); try assumption.
  intros p q [a0 b0] Hp Hq Hkey.
  rewrite !calc_PINMODE_body_effect.
  pose proof (pair_comm
    (run_effect (two_bit_effect (port p) (bit p) (mode p)))
    (run_effect (two_bit_effect (port q) (bit q) (mode q)))
    (run_effect (one_bit_effect (port p) (bit p) (PINMODE_OD_action p)))
    (run_effect (one_bit_effect (port q) (bit q) (PINMODE_OD_action q)))
    a0 b0
    (run_effect_comm _ _ a0 (two_bit_compatible _ _ _ _ _ _ Hkey Hp Hq))
    (run_effect_comm _ _ b0 (one_bit_compatible _ _ _ _ _ _ Hkey))) as Hpair.
  match type of Hpair with
  | ?L = ?R => transitivity L; [|transitivity R; [exact Hpair|]]
  end.
  - apply option_bind_ext; [|reflexivity].
    intros [a1 b1]. apply calc_PINMODE_body_effect.
  - apply option_bind_ext; [|reflexivity].
    intros [a1 b1]. symmetry. apply calc_PINMODE_body_effect.
Qed.

(** X1 (order of the table).  The accumulators are order-independent on
    every table whose pins have pairwise different (port, bit) and whose [func] and [mode] values fit
    the two-bit fields they are written to. *)
Theorem accumulators_order_independent (pins pins' : list PINDEF) (R : REGS) :
  pins ≡ₚ pins' ->
  NoDup (key <$> pins) ->
  Forall (fun p => 0 <= func p <= 3 /\ 0 <= mode p <= 3) pins ->
  calc_PINSEL pins (PINSEL R) = calc_PINSEL pins' (PINSEL R) /\
  calc_PINMODE pins (PINMODE R) (PINMODE_OD R) = calc_PINMODE pins' (PINMODE R) (PINMODE_OD R) /\
  calc_FIODIR pins (FIODIR R) = calc_FIODIR pins' (FIODIR R) /\
  calc_FIOPIN pins (FIOPIN R) = calc_FIOPIN pins' (FIOPIN R) /\
  calc_FIOMASK pins (FIOMASK R) = calc_FIOMASK pins' (FIOMASK R).
Proof.
  intros Hperm Hnodup Hok.
  split; [apply calc_PINSEL_perm; try assumption;
          eapply Forall_impl; [exact Hok|]; simpl; tauto|].
  split; [apply calc_PINMODE_perm; try assumption;
          eapply Forall_impl; [exact Hok|]; simpl; tauto|].
  split; [apply (one_bit_fold_perm _ FIODIR_action); try assumption;
          intros; apply calc_FIODIR_body_effect|].
  split; [apply (one_bit_fold_perm _ FIOPIN_action); try assumption;
          intros; apply calc_FIOPIN_body_effect|].
  apply (one_bit_fold_perm _ FIOMASK_action); try assumption.
  intros; apply calc_FIOMASK_body_effect.
Qed.

(** ** The two-bit folds on values that do not fit *)

(** With a value that fits, the step of [calc_PINSEL] is the field write
    the comments of the function describe: among the 32 bits of the
    sub-register, the two bits of the pin's field take the value and every
    other bit keeps its state. *)
Lemma calc_PINSEL_body_writes_field (a a' : list Z) (p : PINDEF) (reg bit2 : Z) :
  PINSEL_reg_bit2 (port p) (bit p) = (reg, bit2) ->
  0 <= func p <= 3 ->
  calc_PINSEL_body a p = Some a' ->
  0 <= reg /\ 0 <= bit2 < INT_BITS /\
  exists r r', a !! Z.to_nat reg = Some r /\ a' = <[Z.to_nat reg := r']> a /\
    forall k, 0 <= k < ULONG_BITS ->
      Z.testbit r' k = if decide (bit2 <= k < bit2 + 2)
                       then Z.testbit (func p) (k - bit2)
                       else Z.testbit r k.
Proof.
  intros Haddr Hfunc. rewrite calc_PINSEL_body_effect. unfold two_bit_effect.
  rewrite Haddr. case_decide as Hbit2; [|discriminate]. simpl.
  intros Hw. apply arr_upd_Some in Hw as (Hreg & r & Hr & ->).
  split; [exact Hreg|]. split; [exact Hbit2|].
  eexists r, _. split; [exact Hr|]. split; [reflexivity|].
  intros k Hk. rewrite Z.lor_spec, Z.land_spec.
  rewrite !testbit_ulong, Z.lnot_spec, !Z.shiftl_spec by lia.
  replace (k <? ULONG_BITS) with true by (symmetry; apply Z.ltb_lt; lia). simpl.
  case_decide as Hin.
  - assert (Hthree : Z.testbit 3 (k - bit2) = true).
    { assert (Hcase : k - bit2 = 0 \/ k - bit2 = 1) by lia.
      destruct Hcase as [-> | ->]; reflexivity. }
    rewrite Hthree. simpl. rewrite andb_false_r. reflexivity.
  - assert (Hval : Z.testbit (func p) (k - bit2) = false).
    { destruct (Z.testbit (func p) (k - bit2)) eqn:Hbit; [|reflexivity].
      apply testbit_below_4 in Hbit; [lia|exact Hfunc]. }
    assert (Hthree : Z.testbit 3 (k - bit2) = false).
    { destruct (Z.testbit 3 (k - bit2)) eqn:Hbit; [|reflexivity].
      apply testbit_below_4 in Hbit; lia. }
    rewrite Hval, Hthree. simpl. rewrite andb_true_r, orb_false_r. reflexivity.
Qed.

(** C1.  A row that is accepted with its FUNC field left blank keeps the
    sentinel [NA] = 0xff in [func]; [calc_PINSEL] ORs all eight bits of it
    into PINSEL0, where the value masked to two bits would be 3: bits 2..7,
    which belong to the pins P0.1..P0.3, are set by the pin P0.0. *)
Theorem calc_PINSEL_blank_func_spills :
  exists r,
    main (sample_header +:+ LINE "1,46,0,0,RD1,TXD3,SDA1,GSM_TX,,0,,,,") "ZEBRA" = Some r /\
    exit_code r = 0 /\
    (fun p => (port p, bit p, func p)) <$> table r = [(0, 0, NA)] /\
    PINSEL_reg_bit2 0 0 = (0, 0) /\
    PINSEL (regs r) !! 0%nat = Some 255 /\
    Z.shiftl (Z.land NA 3) 0 = 3 /\
    Z.testbit 255 2 = true /\ Z.testbit 255 7 = true.
Proof.
  eexists. split; [vm_compute; reflexivity|]. repeat split.
Qed.

(** C2.  Two rows with distinct (port, bit), the first with a blank FUNC
    field: the function-select image depends on the order of the rows.
    With P0.0 first, P0.1 clears bits 2..3 after they were set (0xf3); with
    P0.1 first, they stay set (0xff). *)
Theorem calc_PINSEL_order_dependent :
  let A := pin_at 0 0 NA 0 0 in
  let B := pin_at 0 1 0 0 0 in
  (port A, bit A) <> (port B, bit B) /\
  [A; B] ≡ₚ [B; A] /\
  calc_PINSEL [A; B] (PINSEL regs_init) = Some (<[0%nat := 243]> (PINSEL regs_init)) /\
  calc_PINSEL [B; A] (PINSEL regs_init) = Some (<[0%nat := 255]> (PINSEL regs_init)) /\
  (PINSEL ∘ regs) <$> main (sample_header
        +:+ LINE "1,46,0,0,RD1,TXD3,SDA1,GSM_TX,,0,,,,"
        +:+ LINE "2,47,0,1,TD1,RXD3,SCL1,GSM_RX,0,0,,,,") "ZEBRA"
    = Some (<[0%nat := 243]> (PINSEL regs_init)) /\
  (PINSEL ∘ regs) <$> main (sample_header
        +:+ LINE "2,47,0,1,TD1,RXD3,SCL1,GSM_RX,0,0,,,,"
        +:+ LINE "1,46,0,0,RD1,TXD3,SDA1,GSM_TX,,0,,,,") "ZEBRA"
    = Some (<[0%nat := 255]> (PINSEL regs_init)).
Proof.
  intros A B. split; [discriminate|]. split; [apply Permutation_swap|].
  repeat split; vm_compute; reflexivity.
Qed.

(** ** The direction fold on a blank IN/OUT field *)

Lemma and_assign_keeps_clear (a a' : list Z) (i m : Z) (P : nat) (B : Z) :
  and_assign a i m = Some a' ->
  (exists r, a !! P = Some r /\ Z.testbit r B = false) ->
  exists r, a' !! P = Some r /\ Z.testbit r B = false.
Proof.
  intros Hupd [r [Hr Hbit]].
  apply arr_upd_Some in Hupd as [_ [x [Hx ->]]].
  destruct (decide (Z.to_nat i = P)) as [<-|Hne].
  - rewrite list_lookup_insert_eq by (eapply lookup_lt_Some; eauto).
    eexists; split; [reflexivity|].
    rewrite Z.land_spec. rewrite Hx in Hr. injection Hr as ->.
    rewrite Hbit. reflexivity.
  - rewrite list_lookup_insert_ne by done. eauto.
Qed.

Lemma or_assign_bit_keeps_clear (a a' : list Z) (i b : Z) (P : nat) (B : Z) :
  or_assign a i (wrap_int (Z.shiftl 1 b)) = Some a' ->
  0 <= b ->
  (Z.to_nat i = P -> b <> B) ->
  (exists r, a !! P = Some r /\ Z.testbit r B = false) ->
  exists r, a' !! P = Some r /\ Z.testbit r B = false.
Proof.
  intros Hupd Hb Hne [r [Hr Hbit]].
  apply arr_upd_Some in Hupd as [_ [x [Hx ->]]].
  destruct (decide (Z.to_nat i = P)) as [Heq|Hneq].
  - specialize (Hne Heq). subst P.
    rewrite list_lookup_insert_eq by (eapply lookup_lt_Some; eauto).
    eexists; split; [reflexivity|].
    rewrite Hx in Hr. injection Hr as ->.
    rewrite Z.lor_spec, Hbit, ulong_wrap_int, testbit_ulong, Z.shiftl_1_l.
    rewrite Z.pow2_bits_false by done. apply andb_false_r.
  - rewrite list_lookup_insert_ne by done. eauto.
Qed.

(** A pin whose direction is neither [IN] nor [OUT] goes through the body
    of [calc_FIODIR] without touching the array. *)
Lemma calc_FIODIR_body_other (FIODIR : list Z) (p : PINDEF) :
  inout p <> IN -> inout p <> OUT -> calc_FIODIR_body FIODIR p = Some FIODIR.
Proof.
  intros HI HO. unfold calc_FIODIR_body.
  destruct (Z.eqb_spec (inout p) IN); [done|].
  destruct (Z.eqb_spec (inout p) OUT); [done|]. reflexivity.
Qed.

(** A bit that no pin of the table drives as an output is clear in the
    direction image computed from the cleared array. *)
Lemma calc_FIODIR_bit_clear (pins : list PINDEF) (P B : Z) (FIODIR' : list Z) :
  0 <= P < 5 ->
  Forall (fun q => port q = P -> bit q = B -> inout q <> OUT) pins ->
  calc_FIODIR pins (FIODIR regs_init) = Some FIODIR' ->
  exists r, FIODIR' !! Z.to_nat P = Some r /\ Z.testbit r B = false.
Proof.
  intros HP Hpins Hcalc.
  eapply (for_pins_inv calc_FIODIR_body
            (fun F => exists r, F !! Z.to_nat P = Some r /\ Z.testbit r B = false));
    [ | exact Hpins | | exact Hcalc ].
  - clear Hpins Hcalc. intros F q F' Hq HF. unfold calc_FIODIR_body.
    destruct (Z.eqb_spec (inout q) IN) as [HI|HI].
    + destruct (shl_int 1 (bit q)) as [b|] eqn:Hb; [|discriminate]. simpl.
      destruct (and_assign F (port q) (not_int b)) as [F1|] eqn:HF1; [|discriminate].
      simpl. destruct (Z.eqb_spec (inout q) OUT) as [HO|HO].
      { rewrite HI in HO. discriminate. }
      intros [= <-]. eapply and_assign_keeps_clear; eauto.
    + simpl. destruct (Z.eqb_spec (inout q) OUT) as [HO|HO]; [|intros [= <-]; exact HF].
      destruct (shl_int 1 (bit q)) as [b|] eqn:Hb; [|discriminate]. simpl.
      apply shl_int_Some in Hb as [Hrange ->].
      intros Hor. apply (or_assign_bit_keeps_clear _ _ _ _ _ _ Hor); [lia| |exact HF].
      intros Hport Hbit. apply Hq; auto.
      apply arr_upd_Some in Hor as [Hge _]. lia.
  - exists 0. split; [|apply Z.bits_0].
    unfold regs_init, FIODIR. apply lookup_replicate_2. lia.
Qed.

(** Only field 9 is stored in [inout]. *)
Lemma parse_field_inout (i : nat) (field : string) (v v' : PINDEF) :
  i <> 9%nat -> parse_field i field v = FieldOk v' -> inout v' = inout v.
Proof.
  intros Hi.
  do 14 (destruct i as [|i];
         [ simpl; unfold scan_opt, copy_name; repeat case_match;
           intros [= <-]; first [reflexivity | congruence] |]).
  simpl. intros [= <-]. reflexivity.
Qed.

Lemma scan_fields_blank_inout (lp : string) (n : nat) :
  field_span lp 9 = 0%nat \/ sscanf_d (field_text lp 9) = None ->
  forall i beg v v',
  ((i <= 9)%nat -> beg = field_beg lp i) ->
  inout v = NA ->
  scan_fields n i lp beg v = Scanned v' ->
  inout v' = NA.
Proof.
  intros Hblank. induction n as [|n IH]; intros i beg v v' Hbeg HNA; simpl.
  - intros [= <-]. exact HNA.
  - destruct (Nat.eqb_spec (strcspn (str_plus lp beg) ",") 0) as [Hlen|Hlen].
    + apply IH; [|exact HNA].
      intros Hle. rewrite (Hbeg ltac:(lia)). reflexivity.
    + destruct (parse_field i _ v) as [w| |] eqn:Hparse; [|intros [= <-]; exact HNA|discriminate].
      apply IH.
      * intros Hle. rewrite (Hbeg ltac:(lia)). reflexivity.
      * destruct (decide (i = 9%nat)) as [->|Hi].
        -- pose proof (Hbeg ltac:(lia)) as Hb. subst beg.
           destruct Hblank as [Hzero|Hnone]; [contradiction|].
           cbn [parse_field] in Hparse. unfold scan_opt in Hparse.
           fold (field_span lp 9) in Hparse. fold (field_text lp 9) in Hparse.
           rewrite Hnone in Hparse. injection Hparse as <-. exact HNA.
        -- rewrite (parse_field_inout _ _ _ _ Hi Hparse). exact HNA.
Qed.

(** A line whose IN/OUT field is empty or does not convert leaves the
    field loop with the sentinel [NA] in [inout]. *)
Lemma blank_inout_keeps_NA (lp : string) (v : PINDEF) :
  field_span lp 9 = 0%nat \/ sscanf_d (field_text lp 9) = None ->
  scan_line lp = Scanned v -> inout v = NA.
Proof.
  intros Hblank. unfold scan_line.
  apply (scan_fields_blank_inout lp 14 Hblank); [reflexivity..].
Qed.

(** C9.  A line whose IN/OUT field is empty or does not convert gives a
    pin that holds [NA] in [inout].  For a pin that holds [NA] there, the
    body of [calc_FIODIR] leaves every image as it is, and in the image
    computed from the cleared array the pin's bit is 0 unless another pin of
    the same port and bit is an output. *)
Theorem calc_FIODIR_NA_leaves_bit (pins : list PINDEF) (p : PINDEF) (FIODIR' : list Z) :
  p ∈ pins ->
  inout p = NA ->
  0 <= port p < 5 ->
  (forall q, q ∈ pins -> port q = port p -> bit q = bit p -> inout q <> OUT) ->
  calc_FIODIR pins (FIODIR regs_init) = Some FIODIR' ->
  (forall F, calc_FIODIR_body F p = Some F) /\
  (exists r, FIODIR' !! Z.to_nat (port p) = Some r /\ Z.testbit r (bit p) = false) /\
  (forall lp v n,
     field_span lp 9 = 0%nat \/ sscanf_d (field_text lp 9) = None ->
     scan_line lp = Scanned v -> inout (pindef_of n v) = NA).
Proof.
  intros Hin HNA Hport Hothers Hcalc. split; [|split].
  - intros F. apply calc_FIODIR_body_other; rewrite HNA; discriminate.
  - apply (calc_FIODIR_bit_clear pins (port p) (bit p) FIODIR' Hport); [|exact Hcalc].
    apply Forall_forall. intros q Hq. apply Hothers, Hq.
  - intros lp v n Hblank Hscan. exact (blank_inout_keeps_NA lp v Hblank Hscan).
Qed.

Lemma calc_FIODIR_NA_leaves_bit_witness :
  let p := pin_at 0 3 2 NA 0 in
  let q := pin_at 0 4 2 OUT 0 in
  (forall F, calc_FIODIR_body F p = Some F) /\
  (exists r, [16; 0; 0; 0; 0] !! Z.to_nat (port p) = Some r /\ Z.testbit r (bit p) = false) /\
  (forall lp v n,
     field_span lp 9 = 0%nat \/ sscanf_d (field_text lp 9) = None ->
     scan_line lp = Scanned v -> inout (pindef_of n v) = NA).
Proof.
  intros p q.
  apply (calc_FIODIR_NA_leaves_bit [p; q] p [16; 0; 0; 0; 0]).
  - apply list_elem_of_here.
  - reflexivity.
  - simpl. lia.
  - intros x Hx _ Hbit.
    apply elem_of_cons in Hx as [->|Hx]; [discriminate|].
    apply elem_of_cons in Hx as [->|Hx]; [discriminate Hbit|].
    inversion Hx.
  - vm_compute. reflexivity.
Defined.

(** ** The field scanner *)

(** One iteration of the field loop, entered at the position the loop
    itself reaches for field [i]. *)
Lemma scan_fields_at (n i : nat) (lp : string) (v : PINDEF) :
  scan_fields (S n) i lp (field_beg lp i) v =
  match (if (field_span lp i =? 0)%nat then FieldOk v
         else parse_field i (field_text lp i) v) with
  | FieldError => ScanError i (field_text lp i)
  | FieldBreak => Scanned v
  | FieldOk v' => scan_fields n (S i) lp (field_beg lp (S i)) v'
  end.
Proof. reflexivity. Qed.

(** A field that must convert: the iteration either ends at MYERROR or goes
    on to the next field with the pin number and the names untouched by
    [set]. *)
Lemma scan_required (i n : nat) (set : Z -> PINDEF -> PINDEF) (lp : string) (v : PINDEF) :
  (forall field w, parse_field i field w =
                   match sscanf_d field with
                   | Some itemp => FieldOk (set itemp w)
                   | None => FieldError
                   end) ->
  (unparsable lp i /\
   scan_fields (S n) i lp (field_beg lp i) v = ScanError i (field_text lp i)) \/
  (~ unparsable lp i /\
   exists v', (v' = v \/ exists x, v' = set x v) /\
     scan_fields (S n) i lp (field_beg lp i) v
     = scan_fields n (S i) lp (field_beg lp (S i)) v').
Proof.
  intros Hparse. rewrite scan_fields_at. unfold unparsable.
  destruct (Nat.eqb_spec (field_span lp i) 0) as [Hlen|Hlen].
  - right. split; [tauto|]. exists v. auto.
  - rewrite Hparse. destruct (sscanf_d (field_text lp i)) as [x|] eqn:Hscan.
    + right. split; [intros [_ ?]; discriminate|]. exists (set x v). eauto.
    + left. auto.
Qed.

Lemma scan_pinnum (n : nat) (lp : string) (v : PINDEF) :
  ~ is_NA lp ->
  (unparsable lp 1 /\
   scan_fields (S n) 1 lp (field_beg lp 1) v = ScanError 1 (field_text lp 1)) \/
  (exists v', scan_fields (S n) 1 lp (field_beg lp 1) v
              = scan_fields n 2 lp (field_beg lp 2) v').
Proof.
  intros HNA. rewrite scan_fields_at. unfold unparsable. unfold is_NA in HNA.
  destruct (Nat.eqb_spec (field_span lp 1) 0) as [Hlen|Hlen]; [right; eauto|].
  cbn [parse_field].
  destruct (strncmp_eq (field_text lp 1) "N/A") eqn:E; [tauto|].
  destruct (sscanf_d (field_text lp 1)) as [x|] eqn:Hscan; [right; eauto|left; auto].
Qed.

(** A line on which field 2 or field 3 is unparsable, and which the N/A
    test does not abandon, ends the field loop at MYERROR, on the first
    unparsable field among fields 0 to 3. *)
Lemma scan_line_fatal (lp : string) :
  ~ is_NA lp ->
  unparsable lp 2 \/ unparsable lp 3 ->
  exists i, (i <= 3)%nat /\ unparsable lp i /\
            scan_line lp = ScanError i (field_text lp i).
Proof.
  intros HNA Hbad. unfold scan_line.
  change (scan_fields 14 0 lp 0 locals_init)
    with (scan_fields 14 0 lp (field_beg lp 0) locals_init).
  destruct (scan_required 0 13 set_seq lp locals_init) as [[Hu ->]|[_ (v0 & _ & ->)]];
    [reflexivity|exists 0%nat; auto with lia|].
  destruct (scan_pinnum 12 lp v0 HNA) as [[Hu ->]|[v1 ->]];
    [exists 1%nat; auto with lia|].
  destruct (scan_required 2 11 set_port lp v1) as [[Hu ->]|[Hok (v2 & _ & ->)]];
    [reflexivity|exists 2%nat; auto with lia|].
  destruct (scan_required 3 10 set_bit lp v2) as [[Hu ->]|[Hok3 _]];
    [reflexivity|exists 3%nat; auto with lia|].
  tauto.
Qed.

(** C4 as the code has it.  On a line that is read as data (it does not
    start with END) and that the N/A test on field 1 does not abandon, a
    port or bit field that is not empty and does not convert is fatal:
    the loop ends at MYERROR on the first such field among fields 0 to 3,
    with no entry stored and nothing written for the line, and [main] exits
    with code 99 reporting that line and field. *)
Theorem malformed_port_or_bit_is_fatal
    (PREFIX : string) (st : STATE) (line : string) (rest : list string) :
  strncmp_eq (c_str line) "END" = false ->
  ~ is_NA (c_str line) ->
  unparsable (c_str line) 2 \/ unparsable (c_str line) 3 ->
  exists i, (i <= 3)%nat /\ unparsable (c_str line) i /\
    while_loop PREFIX st (line :: rest)
      = Failed (line_counted st) i (field_text (c_str line) i) /\
    (fun r => (exit_code r, err r)) <$> after_loop PREFIX (while_loop PREFIX st (line :: rest))
      = Some (99, Some (ulong (lineno st + 1), i, field_text (c_str line) i)).
Proof.
  intros HEND HNA Hbad.
  destruct (scan_line_fatal (c_str line) HNA Hbad) as (i & Hi & Hu & Hscan).
  exists i. split; [exact Hi|]. split; [exact Hu|].
  assert (Hloop : while_loop PREFIX st (line :: rest)
                  = Failed (line_counted st) i (field_text (c_str line) i)).
  { simpl. unfold while_body. rewrite HEND, Hscan. reflexivity. }
  rewrite Hloop. split; reflexivity.
Qed.

Lemma malformed_port_or_bit_is_fatal_witness :
  let line := LINE "1,46,x,0,RD1,TXD3,SDA1,GSM_TX,2,0,,,," in
  exists i, (i <= 3)%nat /\ unparsable (c_str line) i /\
    while_loop "ZEBRA" state_init (line :: [sample_row2])
      = Failed (line_counted state_init) i (field_text (c_str line) i) /\
    (fun r => (exit_code r, err r))
      <$> after_loop "ZEBRA" (while_loop "ZEBRA" state_init (line :: [sample_row2]))
      = Some (99, Some (ulong (lineno state_init + 1), i, field_text (c_str line) i)).
Proof.
  intros line.
  apply (malformed_port_or_bit_is_fatal "ZEBRA" state_init line [sample_row2]).
  - reflexivity.
  - intros [_ H]. vm_compute in H. discriminate H.
  - left. split; [vm_compute; discriminate|reflexivity].
Defined.

(** Against C4 as worded: an empty field does not parse as an integer, but
    the code does not convert an empty field at all.  A row with fields 2
    and 3 empty is accepted, with port 0 and bit 0. *)
Lemma empty_port_and_bit_are_accepted :
  let line := LINE "1,46,,,RD1,TXD3,SDA1,GSM_TX,2,0,,,," in
  strncmp_eq (c_str line) "END" = false /\
  strncmp_eq (field_text (c_str line) 1) "N/A" = false /\
  field_text (c_str line) 2 = "" /\ sscanf_d (field_text (c_str line) 2) = None /\
  field_text (c_str line) 3 = "" /\ sscanf_d (field_text (c_str line) 3) = None /\
  exists st', while_body "ZEBRA" state_init line = Continue st' /\
    seqno st' = 1 /\
    (fun p => (seq p, pinnum p, port p, bit p, signame p))
      <$> pin_table (seqno st') (pins st') = [(0, 46, 0, 0, "GSM_TX")].
Proof.
  intros line. repeat split.
  eexists. split; [vm_compute; reflexivity|]. split; reflexivity.
Qed.

(** ** Blank input lines *)

(** C10.  A line that holds only a line feed is not skipped: its field 0
    is the line feed itself, which is not empty and does not convert, so the
    loop ends at MYERROR on field 0 in whatever state the line is read, and
    [main] exits with code 99. *)
Theorem blank_line_is_fatal (PREFIX : string) (st : STATE) (rest : list string) :
  strcspn (LINE "") "," = 1%nat /\
  sscanf_d (LINE "") = None /\
  while_loop PREFIX st (LINE "" :: rest) = Failed (line_counted st) 0 (LINE "") /\
  (fun r => (exit_code r, err r)) <$> main (sample_header +:+ LINE "") PREFIX
    = Some (99, Some (2, 0%nat, LINE "")).
Proof.
  repeat split.
Qed.

(** ** Rows that are not used *)

(** A line whose field 0 is empty or converts and whose field 1 is the N/A
    marker leaves the field loop by [break], with the pin number and the
    signal name at their initial values. *)
Lemma scan_line_NA (lp : string) :
  ~ unparsable lp 0 -> is_NA lp ->
  exists v, scan_line lp = Scanned v /\ pinnum v = 0 /\ signame v = "".
Proof.
  intros Hok [Hlen HNA]. unfold scan_line.
  change (scan_fields 14 0 lp 0 locals_init)
    with (scan_fields 14 0 lp (field_beg lp 0) locals_init).
  destruct (scan_required 0 13 set_seq lp locals_init) as [[Hu _]|[_ (v0 & Hv0 & ->)]];
    [reflexivity|contradiction|].
  rewrite scan_fields_at.
  destruct (Nat.eqb_spec (field_span lp 1) 0) as [Hzero|_]; [contradiction|].
  cbn [parse_field]. rewrite HNA. exists v0. split; [reflexivity|].
  destruct Hv0 as [->|[x ->]]; split; reflexivity.
Qed.

(** C6 as the code has it.  When the field loop of a data line ends without
    MYERROR and leaves the pin number 0 or the signal name empty, the line is
    only counted: no entry is stored, nothing is written to either output,
    and the loop goes on with the next line in that state.  A line with the
    N/A marker in field 1 and a field 0 that is empty or converts is such a
    line. *)
Theorem unused_row_is_skipped
    (PREFIX : string) (st : STATE) (line : string) (rest : list string) (v : PINDEF) :
  strncmp_eq (c_str line) "END" = false ->
  scan_line (c_str line) = Scanned v ->
  pinnum v = 0 \/ signame v = "" ->
  while_body PREFIX st line = Continue (line_counted st) /\
  while_loop PREFIX st (line :: rest) = while_loop PREFIX (line_counted st) rest /\
  seqno (line_counted st) = seqno st /\ pins (line_counted st) = pins st /\
  fouth (line_counted st) = fouth st /\ foutc (line_counted st) = foutc st /\
  (forall lp, ~ unparsable lp 0 -> is_NA lp ->
     exists w, scan_line lp = Scanned w /\ pinnum w = 0).
Proof.
  intros HEND Hscan Hunused.
  assert (Hbody : while_body PREFIX st line = Continue (line_counted st)).
  { unfold while_body. rewrite HEND, Hscan.
    destruct Hunused as [->| ->]; [reflexivity|].
    destruct (pinnum v =? 0); reflexivity. }
  split; [exact Hbody|]. split; [simpl; rewrite Hbody; reflexivity|].
  repeat split.
  intros lp H0 HNA. destruct (scan_line_NA lp H0 HNA) as (w & ? & ? & _). eauto.
Qed.

Lemma unused_row_is_skipped_witness :
  let line := LINE "5,N/A,0,4,CAP2.0,,,SPARE,,,,,," in
  let st := state_init in
  while_body "ZEBRA" st line = Continue (line_counted st) /\
  while_loop "ZEBRA" st (line :: [sample_row1])
    = while_loop "ZEBRA" (line_counted st) [sample_row1] /\
  seqno (line_counted st) = seqno st /\ pins (line_counted st) = pins st /\
  fouth (line_counted st) = fouth st /\ foutc (line_counted st) = foutc st /\
  (forall lp, ~ unparsable lp 0 -> is_NA lp ->
     exists w, scan_line lp = Scanned w /\ pinnum w = 0).
Proof.
  intros line st.
  apply (unused_row_is_skipped "ZEBRA" st line [sample_row1] (set_seq 5 locals_init)).
  - reflexivity.
  - reflexivity.
  - left. reflexivity.
Defined.

(** Against C6 as worded: a line whose pin number converts to 0 is still
    scanned to the end; with a port field that does not convert it ends the
    run at MYERROR instead of being skipped. *)
Lemma pin_zero_row_can_be_fatal :
  let line := LINE "3,0,x,1,TD1,RXD3,SCL1,GSM_RX,2,1,,,," in
  strncmp_eq (c_str line) "END" = false /\
  sscanf_d (field_text (c_str line) 1) = Some 0 /\
  while_body "ZEBRA" state_init line = MYERROR (line_counted state_init) 2 "x" /\
  while_loop "ZEBRA" state_init (line :: [sample_row1])
    = Failed (line_counted state_init) 2 "x" /\
  (fun r => (exit_code r, err r)) <$> main (sample_header +:+ line +:+ sample_row1) "ZEBRA"
    = Some (99, Some (2, 2%nat, "x")).
Proof.
  intros line. repeat split.
Qed.

(** ** The pin table *)

Lemma pin_table_store (n : Z) (pins : list PINDEF) (pd : PINDEF) :
  0 <= n -> (Z.to_nat n < length pins)%nat ->
  pin_table (n + 1) (<[Z.to_nat n := pd]> pins) = pin_table n pins ++ [pd].
Proof.
  intros Hn Hlen. unfold pin_table.
  replace (Z.to_nat (n + 1)) with (S (Z.to_nat n)) by lia.
  rewrite (take_S_r _ _ pd) by (apply list_lookup_insert_eq; exact Hlen).
  rewrite take_insert_ge by lia. reflexivity.
Qed.

Lemma table_inv_init : table_inv state_init /\ seqno state_init < MAXPINS.
Proof.
  unfold table_inv, state_init, MAXPINS. simpl.
  repeat split; lia.
Qed.

Lemma table_inv_line_counted (st : STATE) : table_inv st -> table_inv (line_counted st).
Proof. exact id. Qed.

Lemma table_inv_store (st : STATE) (pd : PINDEF) (lineno : Z) (h c : list string) :
  table_inv st -> seqno st < MAXPINS -> seq pd = seqno st ->
  table_inv (mkSTATE (seqno st + 1) lineno (<[Z.to_nat (seqno st) := pd]> (pins st)) h c).
Proof.
  intros (Hrange & Hlen & Hseq) Hlt Hpd. unfold table_inv. simpl.
  split; [lia|]. split; [rewrite length_insert; exact Hlen|].
  rewrite pin_table_store by lia.
  rewrite fmap_app, Hseq. simpl. rewrite Hpd.
  rewrite seqZ_app by lia. reflexivity.
Qed.

(** One execution of the loop body keeps the invariant; the count grows
    only in a state that re-enters the loop below [MAXPINS] or leaves it. *)
Lemma while_body_inv (PREFIX : string) (st : STATE) (line : string) :
  table_inv st -> seqno st < MAXPINS ->
  match while_body PREFIX st line with
  | Continue st' => table_inv st' /\ seqno st' < MAXPINS
  | Break st' => table_inv st'
  | MYERROR st' _ _ => table_inv st' /\ seqno st' < MAXPINS
  end.
Proof.
  intros Hinv Hlt. unfold while_body.
  destruct (strncmp_eq (c_str line) "END"); [exact Hinv|].
  destruct (scan_line (c_str line)) as [v|i field]; [|split; assumption].
  destruct (pinnum v =? 0); [split; assumption|].
  destruct (String.length (signame v) =? 0)%nat; [split; assumption|].
  pose proof (table_inv_store st (pindef_of (seqno st) v) (ulong (lineno st + 1))
                (fouth st ++ print_pindef_h PREFIX (pindef_of (seqno st) v))
                (foutc st ++ print_pindef_c PREFIX (pindef_of (seqno st) v))
                Hinv Hlt eq_refl) as Hnew.
  cbv zeta. cbn [seqno].
  destruct (Z.leb_spec MAXPINS (seqno st + 1)) as [Hfull|Hroom];
    [exact Hnew|split; [exact Hnew|exact Hroom]].
Qed.

Lemma while_loop_inv (PREFIX : string) (lines : list string) :
  forall st, table_inv st -> seqno st < MAXPINS ->
  table_inv (end_state (while_loop PREFIX st lines)).
Proof.
  induction lines as [|line lines IH]; intros st Hinv Hlt; simpl; [exact Hinv|].
  pose proof (while_body_inv PREFIX st line Hinv Hlt) as Hbody.
  destruct (while_body PREFIX st line) as [st'|st'|st' i field]; simpl.
  - apply IH; tauto.
  - exact Hbody.
  - tauto.
Qed.

(** A row that is used is stored behind the entries stored before it, under
    the count of those entries, and declared once in each output. *)
Lemma used_row_is_appended (PREFIX : string) (st : STATE) (line : string) (v : PINDEF) :
  strncmp_eq (c_str line) "END" = false ->
  scan_line (c_str line) = Scanned v ->
  pinnum v <> 0 -> signame v <> "" ->
  table_inv st -> seqno st < MAXPINS ->
  exists st',
    (while_body PREFIX st line = Continue st' \/ while_body PREFIX st line = Break st') /\
    seqno st' = seqno st + 1 /\
    pin_table (seqno st') (pins st')
      = pin_table (seqno st) (pins st) ++ [pindef_of (seqno st) v] /\
    fouth st' = fouth st ++ print_pindef_h PREFIX (pindef_of (seqno st) v) /\
    foutc st' = foutc st ++ print_pindef_c PREFIX (pindef_of (seqno st) v).
Proof.
  intros HEND Hscan Hpin Hname (Hrange & Hlen & _) Hlt.
  unfold while_body. rewrite HEND, Hscan.
  destruct (Z.eqb_spec (pinnum v) 0) as [|_]; [contradiction|].
  destruct (signame v) as [|c name] eqn:Hsig; [contradiction|]. cbn [String.length Nat.eqb].
  cbv zeta. cbn [seqno].
  destruct (MAXPINS <=? seqno st + 1); eexists; (split; [eauto|]);
    cbn [seqno pins fouth foutc]; (split; [reflexivity|]);
    (split; [apply pin_table_store; lia|]); split; reflexivity.
Qed.

(** The table that [main] reports is the one the loop leaves. *)
Lemma main_table (file PREFIX : string) (r : RESULT) :
  main file PREFIX = Some r ->
  let st := end_state (while_loop PREFIX state_init (tail (read_lines file))) in
  table r = pin_table (seqno st) (pins st) /\ (exit_code r = 0 -> nseqs r = seqno st).
Proof.
  unfold main. destruct (while_loop _ _ _) as [st|st i field]; simpl.
  - unfold emit_all.
    destruct (calc_PINSEL _ _); [simpl|discriminate].
    destruct (calc_PINMODE _ _ _) as [[? ?]|]; [simpl|discriminate].
    destruct (calc_FIODIR _ _); [simpl|discriminate].
    destruct (calc_FIOPIN _ _); [simpl|discriminate].
    destruct (calc_FIOMASK _ _); [simpl|discriminate].
    intros [= <-]. simpl. auto.
  - intros [= <-]. simpl. split; [reflexivity|discriminate].
Qed.

(** What one execution of the loop body does with a line that neither ends
    the input nor ends the run: nothing but count it when the line is not
    used, and store its row under the count of the rows stored before. *)
Lemma while_body_row (PREFIX : string) (st : STATE) (line : string) :
  plain_row line ->
  while_body PREFIX st line
  = match row_of line with
    | None => Continue (line_counted st)
    | Some v =>
        let pd := pindef_of (seqno st) v in
        let st' := mkSTATE (seqno st + 1) (ulong (lineno st + 1))
                     (<[Z.to_nat (seqno st) := pd]> (pins st))
                     (fouth st ++ print_pindef_h PREFIX pd)
                     (foutc st ++ print_pindef_c PREFIX pd) in
        if MAXPINS <=? seqno st + 1 then Break st' else Continue st'
    end.
Proof.
  intros [HEND [v Hscan]]. unfold while_body, row_of. rewrite HEND, Hscan.
  destruct (pinnum v =? 0); [reflexivity|].
  destruct (String.length (signame v) =? 0)%nat; reflexivity.
Qed.

(** A line that starts with END or does not scan ends the loop and stores
    nothing. *)
Lemma while_body_stop (PREFIX : string) (st : STATE) (line : string) :
  ~ plain_row line ->
  match while_body PREFIX st line with
  | Continue _ => False
  | Break st' => st' = st
  | MYERROR st' _ _ => seqno st' = seqno st /\ pins st' = pins st
  end.
Proof.
  intros Hstop. unfold while_body.
  destruct (strncmp_eq (c_str line) "END") eqn:HEND; [reflexivity|].
  destruct (scan_line (c_str line)) as [v|i field] eqn:Hscan; [|split; reflexivity].
  exfalso. apply Hstop. split; [exact HEND|]. exists v. exact Hscan.
Qed.

Lemma omap_cons_row (line : string) (lines : list string) :
  omap row_of (line :: lines)
  = match row_of line with
    | Some v => v :: omap row_of lines
    | None => omap row_of lines
    end.
Proof. reflexivity. Qed.

(** The loop over the lines [done] that it reads to the end, followed by
    nothing or by a line that stops it: the table grows by the rows of
    [done] that are used, in their order, as far as the array has room. *)
Lemma while_loop_prefix (PREFIX : string) (rest : list string) :
  match rest with [] => True | line :: _ => ~ plain_row line end ->
  forall done st,
  table_inv st -> seqno st < MAXPINS ->
  Forall plain_row done ->
  let st' := end_state (while_loop PREFIX st (done ++ rest)) in
  pin_table (seqno st') (pins st')
  = pin_table (seqno st) (pins st)
    ++ imap (fun k v => pindef_of (seqno st + Z.of_nat k) v)
         (take (Z.to_nat (MAXPINS - seqno st)) (omap row_of done)).
Proof.
  intros Hrest. induction done as [|line done IH]; intros st Hinv Hlt Hrows.
  - change (omap row_of []) with (@nil PINDEF). rewrite take_nil. cbn [app imap].
    rewrite app_nil_r. destruct rest as [|line rest]; [reflexivity|].
    cbn [while_loop]. pose proof (while_body_stop PREFIX st line Hrest) as Hstop.
    destruct (while_body PREFIX st line) as [st1|st1|st1 i field]; cbn [end_state].
    + contradiction.
    + rewrite Hstop. reflexivity.
    + destruct Hstop as [-> ->]. reflexivity.
  - apply Forall_cons in Hrows as [Hrow Hrows].
    rewrite omap_cons_row. cbn [app while_loop].
    rewrite (while_body_row PREFIX st line Hrow).
    destruct (row_of line) as [v|]; [|exact (IH (line_counted st) Hinv Hlt Hrows)].
    cbv zeta.
    set (pd := pindef_of (seqno st) v).
    set (st1 := mkSTATE (seqno st + 1) (ulong (lineno st + 1))
                  (<[Z.to_nat (seqno st) := pd]> (pins st))
                  (fouth st ++ print_pindef_h PREFIX pd)
                  (foutc st ++ print_pindef_c PREFIX pd)).
    assert (Hinv1 : table_inv st1).
    { apply table_inv_store; [exact Hinv|exact Hlt|reflexivity]. }
    assert (Hstore : pin_table (seqno st1) (pins st1)
                     = pin_table (seqno st) (pins st) ++ [pd]).
    { destruct Hinv as (Hrange & Hlen & _). cbn [seqno pins st1].
      apply pin_table_store; unfold MAXPINS in *; lia. }
    destruct Hinv as (Hrange & _).
    replace (Z.to_nat (MAXPINS - seqno st))
      with (S (Z.to_nat (MAXPINS - (seqno st + 1)))) by lia.
    cbn [take imap]. rewrite Z.add_0_r. fold pd.
    destruct (Z.leb_spec MAXPINS (seqno st + 1)) as [Hfull|Hroom].
    + cbn [end_state]. rewrite Hstore.
      replace (Z.to_nat (MAXPINS - (seqno st + 1))) with 0%nat by lia.
      rewrite take_0. reflexivity.
    + rewrite (IH st1 Hinv1 Hroom Hrows), Hstore, <- app_assoc. cbn [seqno st1 app].
      do 2 f_equal. apply imap_ext. intros k w _. cbn. f_equal. lia.
Qed.

(** C7.  However the loop ends, the entries it has stored carry in [seq]
    the values 0, 1, ..., k-1 in the order they were stored, k being the
    number of stored entries, and the entries are the rows of the input
    that are used, in input order: when the loop reads the lines [done] to
    the end and then stops (at the end of the input, at an END line or at
    MYERROR), entry [k] holds the values of the [k]-th line of [done] with
    a pin number other than 0 and a signal name, under the sequence number
    [k], whatever value field 0 of that line gave the local [seq]; only
    the first [MAXPINS] such rows are stored.  The fields of the lines are
    taken to convert to values of [int].  The table [main] reports is the
    table of the loop over the lines after the header. *)
Theorem sequence_is_table_position (PREFIX : string) (lines : list string) :
  let st := end_state (while_loop PREFIX state_init lines) in
  seq <$> pin_table (seqno st) (pins st) = seqZ 0 (seqno st) /\
  length (pin_table (seqno st) (pins st)) = Z.to_nat (seqno st) /\
  (forall done rest,
     lines = done ++ rest ->
     Forall plain_row done -> Forall int_row done ->
     match rest with [] => True | line :: _ => ~ plain_row line end ->
     pin_table (seqno st) (pins st)
     = imap (fun k v => pindef_of (Z.of_nat k) v)
         (take (Z.to_nat MAXPINS) (omap row_of done))) /\
  (forall file r, main file PREFIX = Some r ->
     seq <$> table r = seqZ 0 (Z.of_nat (length (table r))) /\
     (exit_code r = 0 -> nseqs r = Z.of_nat (length (table r))) /\
     (lines = tail (read_lines file) -> table r = pin_table (seqno st) (pins st))).
Proof.
  assert (Hall : forall ls,
    let st := end_state (while_loop PREFIX state_init ls) in
    seq <$> pin_table (seqno st) (pins st) = seqZ 0 (seqno st) /\
    length (pin_table (seqno st) (pins st)) = Z.to_nat (seqno st) /\ 0 <= seqno st).
  { intros ls st.
    destruct (while_loop_inv PREFIX ls state_init) as (Hrange & Hlen & Hseq);
      [apply table_inv_init..|].
    fold st in Hrange, Hlen, Hseq. split; [exact Hseq|]. split; [|lia].
    unfold pin_table. rewrite length_take_le; lia. }
  intros st. destruct (Hall lines) as (Hseq & Hlen & _).
  split; [exact Hseq|]. split; [exact Hlen|]. split.
  - intros done rest -> Hrows _ Hrest. unfold st.
    destruct table_inv_init as [Hinv Hlt].
    rewrite (while_loop_prefix PREFIX rest Hrest done state_init Hinv Hlt Hrows).
    change (pin_table (seqno state_init) (pins state_init)) with (@nil PINDEF).
    cbn [app]. change (MAXPINS - seqno state_init) with MAXPINS.
    apply imap_ext. intros k w _. reflexivity.
  - intros file r Hmain. apply main_table in Hmain as [Htab Hn].
    destruct (Hall (tail (read_lines file))) as (Hseq' & Hlen' & Hge).
    split; [|split].
    + rewrite Htab, Hlen', Z2Nat.id by exact Hge. exact Hseq'.
    + rewrite Htab, Hlen', Z2Nat.id by exact Hge. exact Hn.
    + intros ->. exact Htab.
Qed.

Lemma sequence_is_table_position_witness :
  let row7 := LINE "7,46,0,0,RD1,TXD3,SDA1,GSM_TX,2,0,,,," in
  let spare := LINE "5,N/A,0,4,CAP2.0,,,SPARE,,,,,," in
  let row3 := LINE "3,47,0,1,TD1,RXD3,SCL1,GSM_RX,2,1,,,," in
  let lines := [row7; spare; row3; LINE "END"; row7] in
  let st := end_state (while_loop "ZEBRA" state_init lines) in
  pin_table (seqno st) (pins st)
  = imap (fun k v => pindef_of (Z.of_nat k) v)
      (take (Z.to_nat MAXPINS) (omap row_of [row7; spare; row3])) /\
  seq <$> pin_table (seqno st) (pins st) = [0; 1] /\
  signame <$> pin_table (seqno st) (pins st) = ["GSM_TX"; "GSM_RX"].
Proof.
  intros row7 spare row3 lines st.
  destruct (sequence_is_table_position "ZEBRA" lines) as (_ & _ & Hrows & _).
  split; [|split; vm_compute; reflexivity].
  apply (Hrows [row7; spare; row3] [LINE "END"; row7]).
  - reflexivity.
  - repeat (apply Forall_cons; split;
            [split; [vm_compute; reflexivity|eexists; vm_compute; reflexivity]|]).
    apply Forall_nil. exact I.
  - repeat (apply Forall_cons; split; [vm_compute; reflexivity|]).
    apply Forall_nil. exact I.
  - intros [HEND _]. vm_compute in HEND. discriminate HEND.
Defined.

(** Once the count has reached [MAXPINS] the loop has been left by its
    [break], and nothing that follows in the input is read. *)
Lemma while_loop_full (PREFIX : string) (lines rest : list string) :
  forall st, table_inv st -> seqno st < MAXPINS ->
  seqno (end_state (while_loop PREFIX st lines)) = MAXPINS ->
  while_loop PREFIX st (lines ++ rest) = while_loop PREFIX st lines /\
  exists st', while_loop PREFIX st lines = Finished st'.
Proof.
  induction lines as [|line lines IH]; intros st Hinv Hlt; simpl; [lia|].
  pose proof (while_body_inv PREFIX st line Hinv Hlt) as Hbody.
  destruct (while_body PREFIX st line) as [st'|st'|st' i field]; simpl.
  - apply IH; tauto.
  - eauto.
  - lia.
Qed.

(** C8.  The count of stored entries never exceeds [MAXPINS] = 256, so
    neither does the table; and when a run over [lines] has stored 256
    entries, it ended without error at the [break] after the 256th, and the
    same input followed by any further lines [rest], well-formed or not,
    gives the same run. *)
Theorem table_capped_at_MAXPINS (PREFIX : string) (lines rest : list string) :
  seqno (end_state (while_loop PREFIX state_init lines)) = MAXPINS ->
  while_loop PREFIX state_init (lines ++ rest) = while_loop PREFIX state_init lines /\
  (exists st, while_loop PREFIX state_init lines = Finished st) /\
  (forall ls, let st := end_state (while_loop PREFIX state_init ls) in
     seqno st <= MAXPINS /\ (length (pin_table (seqno st) (pins st)) <= 256)%nat).
Proof.
  intros Hfull.
  destruct (while_loop_full PREFIX lines rest state_init) as [Heq Hfin];
    [apply table_inv_init..|exact Hfull|].
  split; [exact Heq|]. split; [exact Hfin|].
  intros ls st.
  destruct (while_loop_inv PREFIX ls state_init) as (Hrange & Hlen & _);
    [apply table_inv_init..|].
  fold st in Hrange, Hlen. split; [lia|].
  unfold pin_table. rewrite length_take. unfold MAXPINS in *. lia.
Qed.

Lemma table_capped_at_MAXPINS_witness :
  let lines := replicate 256 sample_row1 in
  let rest := [LINE "not,a,row"; LINE ""] in
  while_loop "ZEBRA" state_init (lines ++ rest) = while_loop "ZEBRA" state_init lines /\
  (exists st, while_loop "ZEBRA" state_init lines = Finished st) /\
  (forall ls, let st := end_state (while_loop "ZEBRA" state_init ls) in
     seqno st <= MAXPINS /\ (length (pin_table (seqno st) (pins st)) <= 256)%nat).
Proof.
  intros lines rest.
  apply (table_capped_at_MAXPINS "ZEBRA" lines rest).
  vm_compute. reflexivity.
Defined.

(** ** The register blocks *)

Lemma prefix_app_l (a b c : string) :
  String.prefix (a +:+ b) (a +:+ c) = String.prefix b c.
Proof.
  induction a as [|x a IH]; [reflexivity|].
  simpl. destruct (ascii_dec x x); [exact IH|contradiction].
Qed.

Lemma string_app_assoc (a b c : string) : (a +:+ b) +:+ c = a +:+ (b +:+ c).
Proof.
  induction a as [|x a IH]; [reflexivity|].
  change (String x ((a +:+ b) +:+ c) = String x (a +:+ (b +:+ c))).
  rewrite IH. reflexivity.
Qed.

(** Whether a line of a register block defines a given constant is decided
    by the family and the index alone. *)
Lemma defines_init_line (PREFIX fam fam' : string) (i j : nat) (value : Z) :
  defines (init_name PREFIX fam i) (init_line PREFIX fam' j value)
  = String.prefix (String "_" (fam +:+ fmt_d (Z.of_nat i) +:+ "_INIT "))
      (String "_" (fam' +:+ fmt_d (Z.of_nat j) +:+ "_INIT (0x"
                   +:+ fmt_08lx value +:+ ")" +:+ String LF "")).
Proof.
  unfold defines, init_name, init_line.
  rewrite (prefix_app_l "#define "), !string_app_assoc, (prefix_app_l PREFIX).
  reflexivity.
Qed.

Lemma prefix_empty (s : string) : String.prefix "" s = true.
Proof. destruct s; reflexivity. Qed.

Lemma define_line_init_line (PREFIX fam : string) (i : nat) (value : Z) :
  String.prefix "#define " (init_line PREFIX fam i value) = true.
Proof.
  unfold init_line.
  match goal with
  | |- String.prefix _ (_ +:+ ?rest) = true =>
      exact (eq_trans (prefix_app_l "#define " "" rest) (prefix_empty rest))
  end.
Qed.

Lemma count_defines_cons (name line : string) (out : list string) :
  count_defines name (line :: out)
  = ((if defines name line then 1 else 0) + count_defines name out)%nat.
Proof. unfold count_defines. simpl. destruct (defines name line); reflexivity. Qed.

Lemma count_defines_app (name : string) (out1 out2 : list string) :
  count_defines name (out1 ++ out2)
  = (count_defines name out1 + count_defines name out2)%nat.
Proof. unfold count_defines. rewrite List.filter_app. apply length_app. Qed.

Lemma count_define_lines_app (out1 out2 : list string) :
  count_define_lines (out1 ++ out2)
  = (count_define_lines out1 + count_define_lines out2)%nat.
Proof. unfold count_define_lines. rewrite List.filter_app. apply length_app. Qed.

(** A block of [n] registers holds [n] definitions. *)
Lemma count_define_lines_print_regs (PREFIX fam : string) (n : nat) (regs : list Z) :
  count_define_lines (print_regs PREFIX fam n regs) = n.
Proof.
  unfold print_regs, count_define_lines. generalize 0%nat.
  induction n as [|n IH]; intros k; [reflexivity|].
  cbn [List.seq map List.filter]. rewrite define_line_init_line.
  cbn [length]. f_equal. apply IH.
Qed.

(** Evaluation of the number of lines of a block that define one name. *)
Ltac count_block :=
  unfold print_regs; cbn [map List.seq];
  rewrite ?count_defines_cons, ?defines_init_line;
  vm_compute; reflexivity.

(** C5 as the code has it.  [print_PINSEL] writes one definition for each
    of PINSEL0..PINSEL10; [print_PINMODE] writes one for each of
    PINMODE0..PINMODE9, none for PINMODE10, and one for each of
    PINMODE_OD0..PINMODE_OD4; [print_FIODIR], [print_FIOPIN] and
    [print_FIOMASK] write one for each of their five registers.  No block
    holds any other definition. *)
Theorem one_constant_per_printed_register (PREFIX : string) (R : REGS) :
  (count_define_lines (print_PINSEL PREFIX (PINSEL R)) = 11%nat /\
   Forall (fun i => count_defines (init_name PREFIX "PINSEL" i)
                      (print_PINSEL PREFIX (PINSEL R)) = 1%nat) (List.seq 0 11)) /\
  (count_define_lines (print_PINMODE PREFIX (PINMODE R) (PINMODE_OD R)) = (10 + 5)%nat /\
   Forall (fun i => count_defines (init_name PREFIX "PINMODE" i)
                      (print_PINMODE PREFIX (PINMODE R) (PINMODE_OD R)) = 1%nat)
     (List.seq 0 10) /\
   count_defines (init_name PREFIX "PINMODE" 10)
     (print_PINMODE PREFIX (PINMODE R) (PINMODE_OD R)) = 0%nat /\
   Forall (fun i => count_defines (init_name PREFIX "PINMODE_OD" i)
                      (print_PINMODE PREFIX (PINMODE R) (PINMODE_OD R)) = 1%nat)
     (List.seq 0 5)) /\
  (count_define_lines (print_FIODIR PREFIX (FIODIR R)) = 5%nat /\
   Forall (fun i => count_defines (init_name PREFIX "FIODIR" i)
                      (print_FIODIR PREFIX (FIODIR R)) = 1%nat) (List.seq 0 5)) /\
  (count_define_lines (print_FIOPIN PREFIX (FIOPIN R)) = 5%nat /\
   Forall (fun i => count_defines (init_name PREFIX "FIOPIN" i)
                      (print_FIOPIN PREFIX (FIOPIN R)) = 1%nat) (List.seq 0 5)) /\
  (count_define_lines (print_FIOMASK PREFIX (FIOMASK R)) = 5%nat /\
   Forall (fun i => count_defines (init_name PREFIX "FIOMASK" i)
                      (print_FIOMASK PREFIX (FIOMASK R)) = 1%nat) (List.seq 0 5)).
Proof.
  unfold print_PINSEL, print_PINMODE, print_FIODIR, print_FIOPIN, print_FIOMASK.
  repeat match goal with |- _ /\ _ => split end;
    rewrite ?count_define_lines_app, ?count_define_lines_print_regs; try reflexivity;
    cbn [List.seq]; repeat apply Forall_cons_2; try apply Forall_nil_2;
    rewrite ?count_defines_app; count_block.
Qed.

(** Against C5 as worded, with eleven constants in the mode block: the loop
    of [print_PINMODE] stops at PINMODE9, so the header [main] writes
    defines PINSEL10 and PINMODE9 and no PINMODE10. *)
Lemma no_PINMODE10_constant :
  exists r, main (sample_header +:+ sample_row1 +:+ sample_row2) "ZEBRA" = Some r /\
    exit_code r = 0 /\
    length (PINMODE (regs r)) = 11%nat /\
    count_defines (init_name "ZEBRA" "PINSEL" 10) (out_h r) = 1%nat /\
    count_defines (init_name "ZEBRA" "PINMODE" 9) (out_h r) = 1%nat /\
    count_defines (init_name "ZEBRA" "PINMODE" 10) (out_h r) = 0%nat.
Proof.
  eexists. split; [vm_compute; reflexivity|]. repeat split.
Qed.

(** * Further properties

    The accumulators read bit by bit, the field loop, the buffers of the
    input, the outputs of the input loop, the project prefix and the helper
    functions of [mkpins.c]. *)

Lemma NoDup_pair {A : Type} (x y : A) : x <> y -> NoDup [x; y].
Proof.
  intros Hxy. apply NoDup_cons. split; [|apply NoDup_singleton].
  intros Hin. apply list_elem_of_singleton in Hin. contradiction.
Qed.

(** The order theorem on a table of two pins and its reversal. *)
Lemma accumulators_order_independent_witness :
  let p := pin_at 0 0 2 OUT 0 in
  let q := pin_at 0 1 1 IN 3 in
  calc_PINSEL [p; q] (PINSEL regs_init) = calc_PINSEL [q; p] (PINSEL regs_init) /\
  calc_PINMODE [p; q] (PINMODE regs_init) (PINMODE_OD regs_init)
    = calc_PINMODE [q; p] (PINMODE regs_init) (PINMODE_OD regs_init) /\
  calc_FIODIR [p; q] (FIODIR regs_init) = calc_FIODIR [q; p] (FIODIR regs_init) /\
  calc_FIOPIN [p; q] (FIOPIN regs_init) = calc_FIOPIN [q; p] (FIOPIN regs_init) /\
  calc_FIOMASK [p; q] (FIOMASK regs_init) = calc_FIOMASK [q; p] (FIOMASK regs_init).
Proof.
  intros p q. apply (accumulators_order_independent [p; q] [q; p] regs_init).
  - apply perm_swap.
  - apply NoDup_pair. discriminate.
  - repeat constructor; vm_compute; discriminate.
Defined.

(** ** Bit-level reading of the folds *)

Lemma for_pins_ext {R : Type} (body body' : R -> PINDEF -> option R) (pins : list PINDEF) :
  (forall r p, body r p = body' r p) ->
  forall r, for_pins body r pins = for_pins body' r pins.
Proof.
  intros Hext. induction pins as [|p pins IH]; intros r; simpl; [reflexivity|].
  rewrite Hext. destruct (body' r p); simpl; [apply IH|reflexivity].
Qed.

Lemma for_pins_app {R : Type} (body : R -> PINDEF -> option R) (l1 l2 : list PINDEF) :
  forall r, for_pins body r (l1 ++ l2) = for_pins body r l1 ≫= (fun r' => for_pins body r' l2).
Proof.
  induction l1 as [|p l1 IH]; intros r; simpl; [reflexivity|].
  destruct (body r p); simpl; [apply IH|reflexivity].
Qed.

Lemma calc_PINSEL_effects (pins : list PINDEF) (a : list Z) :
  calc_PINSEL pins a = run_effects PINSEL_effect pins a.
Proof. apply for_pins_ext. intros; apply calc_PINSEL_body_effect. Qed.

Lemma calc_FIODIR_effects (pins : list PINDEF) (a : list Z) :
  calc_FIODIR pins a = run_effects FIODIR_effect pins a.
Proof. apply for_pins_ext. intros; apply calc_FIODIR_body_effect. Qed.

Lemma calc_FIOPIN_effects (pins : list PINDEF) (a : list Z) :
  calc_FIOPIN pins a = run_effects FIOPIN_effect pins a.
Proof. apply for_pins_ext. intros; apply calc_FIOPIN_body_effect. Qed.

Lemma calc_FIOMASK_effects (pins : list PINDEF) (a : list Z) :
  calc_FIOMASK pins a
  = run_effects FIOMASK_effect pins (map (fun _ => ulong 4294967295) a).
Proof. apply for_pins_ext. intros; apply calc_FIOMASK_body_effect. Qed.

Lemma bind_None_r {A B : Type} (m : option A) : m ≫= (fun _ => @None B) = None.
Proof. destruct m; reflexivity. Qed.

(** The mode loop runs two independent loops, one on each of its arrays. *)
Lemma calc_PINMODE_effects (pins : list PINDEF) :
  forall a b,
  calc_PINMODE pins a b
  = (a' ← run_effects PINMODE_effect pins a;
     b' ← run_effects PINMODE_OD_effect pins b;
     Some (a', b')).
Proof.
  unfold calc_PINMODE, run_effects.
  induction pins as [|p pins IH]; intros a b; [reflexivity|].
  cbn [for_pins]. rewrite calc_PINMODE_body_effect.
  fold (PINMODE_effect p). fold (PINMODE_OD_effect p).
  destruct (run_effect (PINMODE_effect p) a) as [a1|]; [|reflexivity].
  destruct (run_effect (PINMODE_OD_effect p) b) as [b1|]; simpl.
  - apply IH.
  - symmetry. apply bind_None_r.
Qed.

Lemma run_effect_length (e : effect) (a a' : list Z) :
  run_effect e a = Some a' -> length a' = length a.
Proof.
  destruct e as [| |i c s]; simpl; [discriminate|intros [= <-]; reflexivity|].
  intros H. apply arr_upd_Some in H as (_ & x & _ & ->). apply length_insert.
Qed.

Lemma run_effect_defined (e : effect) (a : list Z) :
  is_Some (run_effect e a) <-> defined_on (length a) e.
Proof.
  destruct e as [| |i c s]; simpl.
  - split; [intros [? ?]; discriminate|contradiction].
  - split; eauto.
  - unfold masked_write, arr_upd, arr_get. split.
    + intros [a' H]. destruct (decide (0 <= i)) as [Hi|]; [|discriminate].
      destruct (a !! Z.to_nat i) as [x|] eqn:Hx; [|discriminate].
      apply lookup_lt_Some in Hx. lia.
    + intros Hi. rewrite decide_True by lia.
      destruct (lookup_lt_is_Some_2 a (Z.to_nat i)) as [x ->]; [lia|]. simpl. eauto.
Qed.

Lemma run_effects_length (eff : PINDEF -> effect) (pins : list PINDEF) :
  forall a a', run_effects eff pins a = Some a' -> length a' = length a.
Proof.
  unfold run_effects. induction pins as [|p pins IH]; intros a a'; simpl.
  - intros [= <-]. reflexivity.
  - destruct (run_effect (eff p) a) as [a1|] eqn:E; [simpl|discriminate].
    intros H. rewrite (IH _ _ H). eapply run_effect_length; eauto.
Qed.

(** A loop runs to its end exactly when every pin's effect is defined on
    the array. *)
Lemma run_effects_defined (eff : PINDEF -> effect) (pins : list PINDEF) :
  forall a, is_Some (run_effects eff pins a) <-> Forall (fun p => defined_on (length a) (eff p)) pins.
Proof.
  unfold run_effects. induction pins as [|p pins IH]; intros a; simpl.
  - split; [constructor|eauto].
  - rewrite Forall_cons. rewrite <- run_effect_defined.
    destruct (run_effect (eff p) a) as [a1|] eqn:E; simpl.
    + rewrite IH. rewrite (run_effect_length _ _ _ E). split; [intros; split; eauto|tauto].
    + split; [intros [? ?]; discriminate|intros [[? ?] _]; discriminate].
Qed.

(** One effect, bit by bit. *)
Lemma run_effect_bits (e : effect) (a a' : list Z) (i : nat) (r : Z) :
  run_effect e a = Some a' -> a !! i = Some r ->
  exists r', a' !! i = Some r' /\
    forall k, 0 <= k -> Z.testbit r' k = default (Z.testbit r k) (touch e i k).
Proof.
  destruct e as [| |j c s]; simpl; [discriminate|intros [= <-]; eauto|].
  intros H Hr. apply arr_upd_Some in H as (Hj & x & Hx & ->).
  destruct (decide (Z.to_nat j = i)) as [<-|Hne].
  - rewrite list_lookup_insert_eq by (eapply lookup_lt_Some; eauto).
    rewrite Hx in Hr. injection Hr as ->.
    eexists. split; [reflexivity|]. intros k Hk.
    rewrite decide_True by auto.
    rewrite Z.lor_spec, Z.land_spec.
    destruct (Z.testbit s k), (Z.testbit c k), (Z.testbit r k); reflexivity.
  - rewrite list_lookup_insert_ne by exact Hne.
    exists r. split; [exact Hr|]. intros k Hk.
    rewrite decide_False by tauto. reflexivity.
Qed.

(** A whole loop, bit by bit: the last pin that touches a bit decides. *)
Lemma run_effects_bits (eff : PINDEF -> effect) (pins : list PINDEF) (i : nat) :
  forall a a' r,
  run_effects eff pins a = Some a' -> a !! i = Some r ->
  exists r', a' !! i = Some r' /\
    forall k, 0 <= k -> Z.testbit r' k = last_touch (eff <$> pins) i k (Z.testbit r k).
Proof.
  unfold run_effects. induction pins as [|p pins IH]; intros a a' r; simpl.
  - intros [= <-] Hr. eauto.
  - destruct (run_effect (eff p) a) as [a1|] eqn:E; [simpl|discriminate].
    intros Hrest Hr.
    destruct (run_effect_bits _ _ _ _ _ E Hr) as (r1 & Hr1 & Hbits1).
    destruct (IH _ _ _ Hrest Hr1) as (r' & Hr' & Hbits).
    exists r'. split; [exact Hr'|]. intros k Hk.
    rewrite Hbits, Hbits1 by exact Hk. reflexivity.
Qed.

Lemma last_touch_none (es : list effect) (i : nat) (k : Z) (init : bool) :
  Forall (fun e => touch e i k = None) es -> last_touch es i k init = init.
Proof.
  intros H. revert init. induction H as [|e es He _ IH]; intros init; simpl; [reflexivity|].
  rewrite He. apply IH.
Qed.

Lemma last_touch_decided (es : list effect) (i : nat) (k : Z) :
  (exists b, forall init, last_touch es i k init = b) \/
  (forall init, last_touch es i k init = init).
Proof.
  induction es as [|e es IH]; simpl; [right; reflexivity|].
  destruct IH as [[b Hb]|Hid]; [left; exists b; intros; apply Hb|].
  destruct (touch e i k) as [b|]; simpl.
  - left. exists b. intros. apply Hid.
  - right. intros. apply Hid.
Qed.

Lemma last_touch_idem (es : list effect) (i : nat) (k : Z) (init : bool) :
  last_touch es i k (last_touch es i k init) = last_touch es i k init.
Proof.
  destruct (last_touch_decided es i k) as [[b Hb]|Hid]; [rewrite !Hb|rewrite !Hid]; reflexivity.
Qed.

(** When the touches of one bit all leave the same state [b], the bit ends
    at [b] if some pin touches it and keeps its state otherwise. *)
Lemma last_touch_same (es : list effect) (i : nat) (k : Z) (b init : bool) :
  Forall (fun e => touch e i k = None \/ touch e i k = Some b) es ->
  last_touch es i k init = b <-> init = b \/ Exists (fun e => touch e i k = Some b) es.
Proof.
  intros H. revert init. induction H as [|e es He _ IH]; intros init; simpl.
  - rewrite Exists_nil. tauto.
  - rewrite IH, Exists_cons. destruct He as [-> | ->]; simpl.
    + split; [tauto|]. intros [?|[?|?]]; [tauto|discriminate|tauto].
    + tauto.
Qed.

(** Running a loop again on its own result changes nothing, on any table. *)
Lemma run_effects_idem (eff : PINDEF -> effect) (pins : list PINDEF) (a a' : list Z) :
  run_effects eff pins a = Some a' -> run_effects eff pins a' = Some a'.
Proof.
  intros Hrun.
  pose proof (run_effects_length _ _ _ _ Hrun) as Hlen.
  assert (Hdef : is_Some (run_effects eff pins a')).
  { apply run_effects_defined. rewrite Hlen. apply run_effects_defined. eauto. }
  destruct Hdef as [a'' Hrun']. rewrite Hrun'. f_equal.
  apply list_eq. intros i.
  destruct (a !! i) as [r|] eqn:Hr.
  - destruct (run_effects_bits _ _ _ _ _ _ Hrun Hr) as (r' & Hr' & Hbits).
    destruct (run_effects_bits _ _ _ _ _ _ Hrun' Hr') as (r'' & Hr'' & Hbits').
    rewrite Hr', Hr''. f_equal. apply Z.bits_inj'. intros k Hk.
    rewrite Hbits', Hbits by exact Hk. apply last_touch_idem.
  - apply lookup_ge_None in Hr.
    rewrite (proj2 (lookup_ge_None a' i)) by lia.
    apply lookup_ge_None. rewrite (run_effects_length _ _ _ _ Hrun'). lia.
Qed.

(** X2 (accumulating twice).  Each [calc_*] run a second time on the arrays it
    has just filled, over the same table, leaves them as they are: twice in
    a row is the same as once, on any table. *)
Theorem accumulators_idempotent (pins : list PINDEF) (R : REGS) :
  calc_PINSEL pins (PINSEL R) ≫= calc_PINSEL pins = calc_PINSEL pins (PINSEL R) /\
  calc_PINMODE pins (PINMODE R) (PINMODE_OD R) ≫= (fun '(a, b) => calc_PINMODE pins a b)
    = calc_PINMODE pins (PINMODE R) (PINMODE_OD R) /\
  calc_FIODIR pins (FIODIR R) ≫= calc_FIODIR pins = calc_FIODIR pins (FIODIR R) /\
  calc_FIOPIN pins (FIOPIN R) ≫= calc_FIOPIN pins = calc_FIOPIN pins (FIOPIN R) /\
  calc_FIOMASK pins (FIOMASK R) ≫= calc_FIOMASK pins = calc_FIOMASK pins (FIOMASK R).
Proof.
  assert (Hidem : forall eff a, run_effects eff pins a ≫= run_effects eff pins
                                = run_effects eff pins a).
  { intros eff a. destruct (run_effects eff pins a) as [a'|] eqn:E; [simpl|reflexivity].
    exact (run_effects_idem eff pins a a' E). }
  split; [|split; [|split; [|split]]].
  - rewrite (calc_PINSEL_effects pins (PINSEL R)).
    transitivity (run_effects PINSEL_effect pins (PINSEL R) ≫= run_effects PINSEL_effect pins);
      [|apply Hidem].
    apply option_bind_ext; [|reflexivity]. intros a. apply calc_PINSEL_effects.
  - rewrite (calc_PINMODE_effects pins (PINMODE R) (PINMODE_OD R)).
    destruct (run_effects PINMODE_effect pins (PINMODE R)) as [a1|] eqn:Ea; [simpl|reflexivity].
    destruct (run_effects PINMODE_OD_effect pins (PINMODE_OD R)) as [b1|] eqn:Eb;
      [simpl|reflexivity].
    rewrite calc_PINMODE_effects.
    rewrite (run_effects_idem _ _ _ _ Ea). simpl.
    rewrite (run_effects_idem _ _ _ _ Eb). reflexivity.
  - rewrite (calc_FIODIR_effects pins (FIODIR R)).
    transitivity (run_effects FIODIR_effect pins (FIODIR R) ≫= run_effects FIODIR_effect pins);
      [|apply Hidem].
    apply option_bind_ext; [|reflexivity]. intros a. apply calc_FIODIR_effects.
  - rewrite (calc_FIOPIN_effects pins (FIOPIN R)).
    transitivity (run_effects FIOPIN_effect pins (FIOPIN R) ≫= run_effects FIOPIN_effect pins);
      [|apply Hidem].
    apply option_bind_ext; [|reflexivity]. intros a. apply calc_FIOPIN_effects.
  - destruct (calc_FIOMASK pins (FIOMASK R)) as [a'|] eqn:E; [simpl|reflexivity].
    rewrite <- E. rewrite !calc_FIOMASK_effects. rewrite calc_FIOMASK_effects in E.
    pose proof (run_effects_length _ _ _ _ E) as Hlen. rewrite length_map in Hlen.
    f_equal. clear E. generalize dependent (FIOMASK R). clear.
    induction a' as [|y a' IH]; intros [|x a] Hlen; simpl in *; try discriminate;
      [reflexivity|].
    f_equal. apply IH. lia.
Qed.

(** *** When the loops stay inside their arrays *)

Lemma defined_on_one_bit (n : nat) (port bit : Z) (act : option bool) :
  defined_on n (one_bit_effect port bit act)
  <-> act = None \/ (0 <= bit < 32 /\ 0 <= port < Z.of_nat n).
Proof.
  unfold one_bit_effect, INT_BITS.
  destruct act as [[|]|]; [| |simpl; tauto];
    case_decide; simpl; split; try tauto;
    intros [?|?]; try discriminate; tauto.
Qed.

Lemma defined_on_two_bit (n : nat) (port bit v : Z) :
  defined_on n (two_bit_effect port bit v)
  <-> 0 <= bit < 32 /\ 0 <= fst (PINSEL_reg_bit2 port bit) < Z.of_nat n.
Proof.
  unfold two_bit_effect, PINSEL_reg_bit2, INT_BITS.
  destruct (Z.ltb_spec bit 16); case_decide; simpl; lia.
Qed.

(** The five loops of the accumulators run without leaving an array or
    the range of a shift exactly when every pin is safe. *)
Lemma emit_all_defined (PREFIX : string) (st : STATE) :
  is_Some (emit_all PREFIX st) <-> Forall pin_safe (pin_table (seqno st) (pins st)).
Proof.
  unfold emit_all. cbv zeta.
  set (table := pin_table (seqno st) (pins st)).
  assert (Hsel : is_Some (calc_PINSEL table (PINSEL regs_init))
                 <-> Forall (fun p => defined_on 11 (PINSEL_effect p)) table).
  { rewrite calc_PINSEL_effects. apply run_effects_defined. }
  assert (Hmode : is_Some (calc_PINMODE table (PINMODE regs_init) (PINMODE_OD regs_init))
                  <-> Forall (fun p => defined_on 11 (PINMODE_effect p)) table
                      /\ Forall (fun p => defined_on 5 (PINMODE_OD_effect p)) table).
  { rewrite calc_PINMODE_effects.
    rewrite <- (run_effects_defined PINMODE_effect table (PINMODE regs_init)).
    rewrite <- (run_effects_defined PINMODE_OD_effect table (PINMODE_OD regs_init)).
    destruct (run_effects PINMODE_effect table _) as [a|]; simpl;
      [|split; [intros [? ?]; discriminate|intros [[? ?] _]; discriminate]].
    destruct (run_effects PINMODE_OD_effect table _) as [b|]; simpl;
      [split; eauto|split; [intros [? ?]; discriminate|intros [_ [? ?]]; discriminate]]. }
  assert (Hdir : is_Some (calc_FIODIR table (FIODIR regs_init))
                 <-> Forall (fun p => defined_on 5 (FIODIR_effect p)) table).
  { rewrite calc_FIODIR_effects. apply run_effects_defined. }
  assert (Hpin : is_Some (calc_FIOPIN table (FIOPIN regs_init))
                 <-> Forall (fun p => defined_on 5 (FIOPIN_effect p)) table).
  { rewrite calc_FIOPIN_effects. apply run_effects_defined. }
  assert (Hmask : is_Some (calc_FIOMASK table (FIOMASK regs_init))
                  <-> Forall (fun p => defined_on 5 (FIOMASK_effect p)) table).
  { rewrite calc_FIOMASK_effects. apply run_effects_defined. }
  assert (Hsafe : Forall pin_safe table
                  <-> Forall (fun p => defined_on 11 (PINSEL_effect p)) table
                      /\ (Forall (fun p => defined_on 11 (PINMODE_effect p)) table
                          /\ Forall (fun p => defined_on 5 (PINMODE_OD_effect p)) table)
                      /\ Forall (fun p => defined_on 5 (FIODIR_effect p)) table
                      /\ Forall (fun p => defined_on 5 (FIOPIN_effect p)) table
                      /\ Forall (fun p => defined_on 5 (FIOMASK_effect p)) table).
  { rewrite <- !Forall_and. apply Forall_iff. intros p.
    unfold PINSEL_effect, PINMODE_effect, PINMODE_OD_effect, FIODIR_effect,
      FIOPIN_effect, FIOMASK_effect.
    rewrite !defined_on_two_bit, !defined_on_one_bit.
    unfold pin_safe, PINMODE_OD_action, FIODIR_action, FIOPIN_action, FIOMASK_action, IN, OUT.
    destruct (Z.eqb_spec (odrain p) 1), (Z.eqb_spec (odrain p) 0),
      (Z.eqb_spec (inout p) 1), (Z.eqb_spec (inout p) 0),
      (Z.eqb_spec (def p) 0), (Z.eqb_spec (def p) 1), (Z.eqb_spec (func p) 0);
      split; intros Hs; repeat split;
      repeat match goal with
             | H : _ /\ _ |- _ => destruct H
             | H : Some _ = None \/ _ |- _ => destruct H as [?|?]; [discriminate|]
             | |- _ \/ _ => first [left; reflexivity | right]
             end; try lia; try tauto. }
  rewrite Hsafe, <- Hsel, <- Hmode, <- Hdir, <- Hpin, <- Hmask. clear.
  destruct (calc_PINSEL table _) as [a1|]; simpl;
    [|split; [intros [? ?]; discriminate|intros ([? ?] & _); discriminate]].
  destruct (calc_PINMODE table _ _) as [[a2 b2]|]; simpl;
    [|split; [intros [? ?]; discriminate|intros (_ & [? ?] & _); discriminate]].
  destruct (calc_FIODIR table _) as [a3|]; simpl;
    [|split; [intros [? ?]; discriminate|intros (_ & _ & [? ?] & _); discriminate]].
  destruct (calc_FIOPIN table _) as [a4|]; simpl;
    [|split; [intros [? ?]; discriminate|intros (_ & _ & _ & [? ?] & _); discriminate]].
  destruct (calc_FIOMASK table _) as [a5|]; simpl;
    [|split; [intros [? ?]; discriminate|intros (_ & _ & _ & _ & [? ?]); discriminate]].
  split; eauto 10.
Qed.

Lemma length_append (a b : string) :
  String.length (a +:+ b) = (String.length a + String.length b)%nat.
Proof.
  induction a as [|c a IH]; [reflexivity|].
  change (S (String.length (a +:+ b)) = S (String.length a + String.length b)).
  rewrite IH. reflexivity.
Qed.

Lemma sprintf_temp_Some (s : string) :
  (String.length s < MAXCHARS)%nat -> sprintf_temp s = Some s.
Proof.
  intros Hs. unfold sprintf_temp.
  destruct (Nat.ltb_spec (String.length s) MAXCHARS); [reflexivity|lia].
Qed.

Lemma sprintf_temp_None (s : string) :
  (MAXCHARS <= String.length s)%nat -> sprintf_temp s = None.
Proof.
  intros Hs. unfold sprintf_temp.
  destruct (Nat.ltb_spec (String.length s) MAXCHARS); [lia|reflexivity].
Qed.

Lemma bit_defines_loop_defined (PREFIX : string) (table : list PINDEF) :
  is_Some (bit_defines_loop PREFIX table) <-> Forall (name_fits PREFIX) table.
Proof.
  induction table as [|pd table IH]; cbn [bit_defines_loop].
  - split; [constructor|eauto].
  - rewrite Forall_cons, <- IH. unfold name_fits.
    assert (Hport : String.length (PREFIX +:+ "_" +:+ signame pd +:+ "_PORT")
                    = (String.length PREFIX + String.length (signame pd) + 6)%nat).
    { rewrite !length_append. simpl. lia. }
    assert (Hbit : String.length (PREFIX +:+ "_" +:+ signame pd +:+ "_BIT")
                   = (String.length PREFIX + String.length (signame pd) + 5)%nat).
    { rewrite !length_append. simpl. lia. }
    destruct (le_lt_dec (String.length PREFIX + String.length (signame pd) + 7) MAXCHARS)
      as [Hfits|Hover].
    + rewrite !sprintf_temp_Some by lia. cbn.
      destruct (bit_defines_loop PREFIX table); cbn;
        (split; [intros [x Hx]|intros [_ [x Hx]]]); try discriminate; eauto.
    + rewrite (sprintf_temp_None (PREFIX +:+ "_" +:+ signame pd +:+ "_PORT")) by lia.
      cbn. split; [intros [x Hx]; discriminate|intros [? _]; lia].
Qed.

(** X3 (bounds).  [main] stores port, bit and signal name as they are read.
    The part of [main] after the input loop indexes its arrays within
    their bounds, shifts by 0 to 31 and writes [temp] within its bounds
    exactly when every stored pin is safe and has a signal name short
    enough for its defines. *)
Theorem emission_defined_iff (PREFIX : string) (st : STATE) :
  is_Some (emit_all PREFIX st)
  /\ is_Some (print_bit_defines PREFIX (pin_table (seqno st) (pins st)))
  <-> Forall (fun p => pin_safe p /\ name_fits PREFIX p) (pin_table (seqno st) (pins st)).
Proof.
  rewrite Forall_and, <- emit_all_defined, <- bit_defines_loop_defined.
  unfold print_bit_defines.
  destruct (bit_defines_loop PREFIX _) as [lines|]; cbn; [|split; intros [? [? ?]]; discriminate].
  split; intros [Hemit _]; (split; [exact Hemit|eauto]).
Qed.

(** *** What each pin leaves in the images *)

Lemma touch_one_bit (port bit : Z) (act : option bool) (i : nat) (k : Z) :
  0 <= k < 32 ->
  touch (one_bit_effect port bit act) i k
  = if decide (0 <= port /\ Z.to_nat port = i /\ bit = k) then act else None.
Proof.
  intros Hk. unfold one_bit_effect, INT_BITS.
  destruct act as [[|]|]; [| |simpl; case_decide; reflexivity];
    (case_decide as Hbit; [|simpl; rewrite decide_False by lia; reflexivity]);
    unfold touch;
    (destruct (decide (0 <= port /\ Z.to_nat port = i)) as [Hport|Hport];
     [|rewrite decide_False by tauto; reflexivity]).
  - rewrite testbit_ulong, Z.shiftl_1_l, Z.pow2_bits_eqb by lia.
    replace (k <? ULONG_BITS) with true by (symmetry; apply Z.ltb_lt; unfold ULONG_BITS; lia).
    simpl. destruct (Z.eqb_spec bit k) as [->|Hne].
    + rewrite decide_True by tauto. reflexivity.
    + rewrite Z.bits_m1 by lia. rewrite decide_False by tauto. reflexivity.
  - rewrite Z.bits_0, testbit_ulong, Z.lnot_spec, Z.shiftl_1_l, Z.pow2_bits_eqb by lia.
    replace (k <? ULONG_BITS) with true by (symmetry; apply Z.ltb_lt; unfold ULONG_BITS; lia).
    simpl. destruct (Z.eqb_spec bit k) as [->|Hne]; simpl.
    + rewrite decide_True by tauto. reflexivity.
    + rewrite decide_False by tauto. reflexivity.
Qed.

Lemma testbit_3 (j : Z) : Z.testbit 3 j = bool_decide (0 <= j < 2).
Proof.
  destruct (Z.testbit 3 j) eqn:Hbit.
  - apply testbit_below_4 in Hbit; [|lia]. rewrite bool_decide_eq_true_2; auto.
  - rewrite bool_decide_eq_false_2; [reflexivity|]. intros Hj.
    assert (Hcase : j = 0 \/ j = 1) by lia.
    destruct Hcase as [-> | ->]; discriminate Hbit.
Qed.

Lemma touch_two_bit (port bit v : Z) (i : nat) (k : Z) :
  0 <= k < 32 -> 0 <= v <= 3 ->
  touch (two_bit_effect port bit v) i k
  = if decide (0 <= fst (PINSEL_reg_bit2 port bit)
               /\ Z.to_nat (fst (PINSEL_reg_bit2 port bit)) = i
               /\ snd (PINSEL_reg_bit2 port bit) <= k < snd (PINSEL_reg_bit2 port bit) + 2)
    then Some (Z.testbit v (k - snd (PINSEL_reg_bit2 port bit)))
    else None.
Proof.
  intros Hk Hv. unfold two_bit_effect.
  assert (Heven : exists h, snd (PINSEL_reg_bit2 port bit) = 2 * h).
  { unfold PINSEL_reg_bit2. destruct (bit <? 16); simpl; eauto. }
  destruct (PINSEL_reg_bit2 port bit) as [reg b2]. simpl in *. destruct Heven as [h ->].
  unfold INT_BITS. case_decide as Hb2; [|simpl; rewrite decide_False by lia; reflexivity].
  unfold touch.
  destruct (decide (0 <= reg /\ Z.to_nat reg = i)) as [Hreg|Hreg];
    [|rewrite decide_False by tauto; reflexivity].
  rewrite !testbit_ulong, Z.lnot_spec, !Z.shiftl_spec, testbit_3 by lia.
  replace (k <? ULONG_BITS) with true by (symmetry; apply Z.ltb_lt; unfold ULONG_BITS; lia).
  simpl. destruct (decide (2 * h <= k < 2 * h + 2)) as [Hin|Hout].
  - rewrite decide_True by tauto.
    rewrite bool_decide_eq_true_2 by lia. simpl.
    destruct (Z.testbit v (k - 2 * h)); reflexivity.
  - rewrite decide_False by tauto.
    rewrite bool_decide_eq_false_2 by lia. simpl.
    destruct (Z.testbit v (k - 2 * h)) eqn:Hbit; [|reflexivity].
    apply testbit_below_4 in Hbit; [lia|exact Hv].
Qed.

(** With pairwise different keys, the one pin that touches a bit decides
    it. *)
Lemma last_touch_owner (eff : PINDEF -> effect) (pins : list PINDEF) (p : PINDEF)
    (i : nat) (k : Z) (b : bool) :
  NoDup (key <$> pins) -> p ∈ pins ->
  touch (eff p) i k = Some b ->
  (forall q, q ∈ pins -> key q <> key p -> touch (eff q) i k = None) ->
  forall init, last_touch (eff <$> pins) i k init = b.
Proof.
  induction pins as [|x pins IH]; intros Hnodup Hin Hp Hothers init; [inversion Hin|].
  rewrite fmap_cons in Hnodup. apply NoDup_cons in Hnodup as [Hx Hnodup]. simpl.
  destruct (decide (key x = key p)) as [Heq|Hne].
  - assert (x = p) as ->.
    { apply elem_of_cons in Hin as [->|Hin]; [reflexivity|].
      exfalso. apply Hx. rewrite Heq. apply list_elem_of_fmap_2. exact Hin. }
    rewrite Hp. simpl. apply last_touch_none.
    apply Forall_fmap, Forall_forall. intros q Hq. simpl.
    apply Hothers; [right; exact Hq|].
    intros Hkey. apply Hx. rewrite <- Hkey. apply list_elem_of_fmap_2. exact Hq.
  - rewrite (Hothers x) by (auto; left). simpl.
    apply IH; [exact Hnodup| |exact Hp|].
    + apply elem_of_cons in Hin as [->|Hin]; [contradiction|exact Hin].
    + intros q Hq. apply Hothers. right. exact Hq.
Qed.

Lemma key_neq (p q : PINDEF) : key q <> key p -> port q <> port p \/ bit q <> bit p.
Proof.
  unfold key. intros Hne.
  destruct (decide (port q = port p)) as [Hp|]; [|auto].
  right. intros Hb. apply Hne. rewrite Hp, Hb. reflexivity.
Qed.

(** A two-bit loop over pins with pairwise different keys and values that
    fit: every pin's field holds its value at the end, and the bits of no
    pin's field are as they were. *)
Lemma two_bit_final (value : PINDEF -> Z) (pins : list PINDEF) (a a' : list Z) :
  NoDup (key <$> pins) ->
  Forall (fun p => 0 <= value p <= 3) pins ->
  run_effects (fun p => two_bit_effect (port p) (bit p) (value p)) pins a = Some a' ->
  (forall p, p ∈ pins ->
     exists r', a' !! Z.to_nat (fst (PINSEL_reg_bit2 (port p) (bit p))) = Some r' /\
       Z.land (Z.shiftr r' (snd (PINSEL_reg_bit2 (port p) (bit p)))) 3 = value p) /\
  (forall i r k, a !! i = Some r -> 0 <= k < 32 ->
     (forall p, p ∈ pins ->
        ~ (fst (PINSEL_reg_bit2 (port p) (bit p)) = Z.of_nat i /\
           snd (PINSEL_reg_bit2 (port p) (bit p)) <= k
             < snd (PINSEL_reg_bit2 (port p) (bit p)) + 2)) ->
     exists r', a' !! i = Some r' /\ Z.testbit r' k = Z.testbit r k).
Proof.
  intros Hnodup Hval Hrun.
  assert (Hdef : Forall (fun p => defined_on (length a)
                                    (two_bit_effect (port p) (bit p) (value p))) pins).
  { apply (run_effects_defined (fun p => two_bit_effect (port p) (bit p) (value p))). eauto. }
  rewrite Forall_forall in Hdef, Hval. split.
  - intros p Hp.
    pose proof (proj1 (defined_on_two_bit _ _ _ _) (Hdef p Hp)) as [Hbit Hreg].
    set (reg := fst (PINSEL_reg_bit2 (port p) (bit p))) in *.
    set (b2 := snd (PINSEL_reg_bit2 (port p) (bit p))).
    assert (Hb2 : 0 <= b2 <= 30).
    { subst b2. unfold PINSEL_reg_bit2. destruct (Z.ltb_spec (bit p) 16); simpl; lia. }
    destruct (lookup_lt_is_Some_2 a (Z.to_nat reg)) as [r Hr]; [lia|].
    destruct (run_effects_bits _ _ _ _ _ _ Hrun Hr) as (r' & Hr' & Hbits).
    exists r'. split; [exact Hr'|].
    assert (Hfield : forall j, 0 <= j < 2 -> Z.testbit r' (j + b2) = Z.testbit (value p) j).
    { intros j Hj. rewrite Hbits by lia.
      apply (last_touch_owner _ pins p); [exact Hnodup|exact Hp| |].
      - rewrite touch_two_bit by (auto; lia). fold reg b2.
        rewrite decide_True by lia. do 2 f_equal. lia.
      - intros q Hq Hkey. rewrite touch_two_bit by (auto; lia).
        apply decide_False. apply key_neq in Hkey. subst reg b2.
        pose proof (proj1 (defined_on_two_bit _ _ _ _) (Hdef q Hq)) as [Hbq _].
        unfold PINSEL_reg_bit2 in *.
        destruct (Z.ltb_spec (bit p) 16), (Z.ltb_spec (bit q) 16); simpl in *; lia. }
    apply Z.bits_inj'. intros j Hj.
    rewrite Z.land_spec, Z.shiftr_spec, testbit_3 by exact Hj.
    destruct (decide (j < 2)) as [Hlt|Hge].
    + rewrite bool_decide_eq_true_2 by lia. rewrite andb_true_r. apply Hfield. lia.
    + rewrite bool_decide_eq_false_2 by lia. rewrite andb_false_r.
      destruct (Z.testbit (value p) j) eqn:Hbit'; [|reflexivity].
      apply testbit_below_4 in Hbit'; [lia|]. apply Hval. exact Hp.
  - intros i r k Hr Hk Hfree.
    destruct (run_effects_bits _ _ _ _ _ _ Hrun Hr) as (r' & Hr' & Hbits).
    exists r'. split; [exact Hr'|]. rewrite Hbits by lia.
    apply last_touch_none. apply Forall_fmap, Forall_forall. intros q Hq. simpl.
    rewrite touch_two_bit by (auto; lia). apply decide_False.
    specialize (Hfree q Hq). lia.
Qed.

(** X5 (function select).  On a table whose pins have pairwise different
    (port, bit) and function values 0..3, [calc_PINSEL] leaves in every
    pin's two-bit field the pin's function, and leaves every bit outside
    the fields of the table's pins as it was. *)
Theorem calc_PINSEL_stores_func (pins : list PINDEF) (a a' : list Z) :
  NoDup (key <$> pins) ->
  Forall (fun p => 0 <= func p <= 3) pins ->
  calc_PINSEL pins a = Some a' ->
  (forall p, p ∈ pins ->
     exists r', a' !! Z.to_nat (fst (PINSEL_reg_bit2 (port p) (bit p))) = Some r' /\
       Z.land (Z.shiftr r' (snd (PINSEL_reg_bit2 (port p) (bit p)))) 3 = func p) /\
  (forall i r k, a !! i = Some r -> 0 <= k < 32 ->
     (forall p, p ∈ pins ->
        ~ (fst (PINSEL_reg_bit2 (port p) (bit p)) = Z.of_nat i /\
           snd (PINSEL_reg_bit2 (port p) (bit p)) <= k
             < snd (PINSEL_reg_bit2 (port p) (bit p)) + 2)) ->
     exists r', a' !! i = Some r' /\ Z.testbit r' k = Z.testbit r k).
Proof.
  intros Hnodup Hval Hrun. rewrite calc_PINSEL_effects in Hrun.
  exact (two_bit_final func pins a a' Hnodup Hval Hrun).
Qed.

Lemma calc_PINSEL_stores_func_witness :
  let p := pin_at 0 0 2 OUT 0 in
  let q := pin_at 0 1 1 IN 3 in
  let a := PINSEL regs_init in
  let a' := [6; 0; 0; 0; 0; 0; 0; 0; 0; 0; 0] in
  (forall x, x ∈ [p; q] ->
     exists r', a' !! Z.to_nat (fst (PINSEL_reg_bit2 (port x) (bit x))) = Some r' /\
       Z.land (Z.shiftr r' (snd (PINSEL_reg_bit2 (port x) (bit x)))) 3 = func x) /\
  (forall i r k, a !! i = Some r -> 0 <= k < 32 ->
     (forall x, x ∈ [p; q] ->
        ~ (fst (PINSEL_reg_bit2 (port x) (bit x)) = Z.of_nat i /\
           snd (PINSEL_reg_bit2 (port x) (bit x)) <= k
             < snd (PINSEL_reg_bit2 (port x) (bit x)) + 2)) ->
     exists r', a' !! i = Some r' /\ Z.testbit r' k = Z.testbit r k).
Proof.
  intros p q a a'. apply (calc_PINSEL_stores_func [p; q] a a').
  - apply NoDup_pair. discriminate.
  - repeat constructor; vm_compute; discriminate.
  - vm_compute. reflexivity.
Defined.

(** X6 (pin mode).  The same for [calc_PINMODE] and the mode values, in the
    PINMODE array. *)
Theorem calc_PINMODE_stores_mode (pins : list PINDEF) (a b a' b' : list Z) :
  NoDup (key <$> pins) ->
  Forall (fun p => 0 <= mode p <= 3) pins ->
  calc_PINMODE pins a b = Some (a', b') ->
  (forall p, p ∈ pins ->
     exists r', a' !! Z.to_nat (fst (PINMODE_reg_bit2 (port p) (bit p))) = Some r' /\
       Z.land (Z.shiftr r' (snd (PINMODE_reg_bit2 (port p) (bit p)))) 3 = mode p) /\
  (forall i r k, a !! i = Some r -> 0 <= k < 32 ->
     (forall p, p ∈ pins ->
        ~ (fst (PINMODE_reg_bit2 (port p) (bit p)) = Z.of_nat i /\
           snd (PINMODE_reg_bit2 (port p) (bit p)) <= k
             < snd (PINMODE_reg_bit2 (port p) (bit p)) + 2)) ->
     exists r', a' !! i = Some r' /\ Z.testbit r' k = Z.testbit r k).
Proof.
  intros Hnodup Hval Hrun. rewrite calc_PINMODE_effects in Hrun.
  destruct (run_effects PINMODE_effect pins a) as [a1|] eqn:Ea; [simpl in Hrun|discriminate].
  destruct (run_effects PINMODE_OD_effect pins b) as [b1|]; [simpl in Hrun|discriminate].
  injection Hrun as <- <-.
  exact (two_bit_final mode pins a a1 Hnodup Hval Ea).
Qed.

Lemma calc_PINMODE_stores_mode_witness :
  let p := pin_at 0 0 2 OUT 0 in
  let q := pin_at 0 1 1 IN 3 in
  let a := PINMODE regs_init in
  let a' := [12; 0; 0; 0; 0; 0; 0; 0; 0; 0; 0] in
  (forall x, x ∈ [p; q] ->
     exists r', a' !! Z.to_nat (fst (PINMODE_reg_bit2 (port x) (bit x))) = Some r' /\
       Z.land (Z.shiftr r' (snd (PINMODE_reg_bit2 (port x) (bit x)))) 3 = mode x) /\
  (forall i r k, a !! i = Some r -> 0 <= k < 32 ->
     (forall x, x ∈ [p; q] ->
        ~ (fst (PINMODE_reg_bit2 (port x) (bit x)) = Z.of_nat i /\
           snd (PINMODE_reg_bit2 (port x) (bit x)) <= k
             < snd (PINMODE_reg_bit2 (port x) (bit x)) + 2)) ->
     exists r', a' !! i = Some r' /\ Z.testbit r' k = Z.testbit r k).
Proof.
  intros p q a a'.
  apply (calc_PINMODE_stores_mode [p; q] a (PINMODE_OD regs_init) a' [0; 0; 0; 0; 0]).
  - apply NoDup_pair. discriminate.
  - repeat constructor; vm_compute; discriminate.
  - vm_compute. reflexivity.
Defined.

(** A one-bit loop: a port bit that no pin of the table acts on is as it
    was, and with pairwise different keys the bit of a pin that acts is set
    or cleared as that pin says. *)
Lemma one_bit_final (act : PINDEF -> option bool) (pins : list PINDEF) (a a' : list Z)
    (P B r : Z) :
  run_effects (fun p => one_bit_effect (port p) (bit p) (act p)) pins a = Some a' ->
  0 <= P -> 0 <= B < 32 -> a !! Z.to_nat P = Some r ->
  exists r', a' !! Z.to_nat P = Some r' /\
    ((forall p, p ∈ pins -> key p = (P, B) -> act p = None) ->
     Z.testbit r' B = Z.testbit r B) /\
    (NoDup (key <$> pins) ->
     forall p b, p ∈ pins -> key p = (P, B) -> act p = Some b -> Z.testbit r' B = b).
Proof.
  intros Hrun HP HB Hr.
  destruct (run_effects_bits _ _ _ _ _ _ Hrun Hr) as (r' & Hr' & Hbits).
  exists r'. split; [exact Hr'|]. rewrite Hbits by lia. split.
  - intros Hnone. apply last_touch_none. apply Forall_fmap, Forall_forall.
    intros q Hq. simpl. rewrite touch_one_bit by exact HB.
    case_decide as Hq'; [|reflexivity]. apply Hnone; [exact Hq|].
    unfold key. f_equal; lia.
  - intros Hnodup p b Hp Hkey Hact. injection Hkey as Hport Hbit.
    apply (last_touch_owner _ pins p); [exact Hnodup|exact Hp| |].
    + rewrite touch_one_bit by exact HB. rewrite decide_True by lia. exact Hact.
    + intros q Hq Hne. rewrite touch_one_bit by exact HB.
      apply decide_False. apply key_neq in Hne. lia.
Qed.

(** The state of a port bit in a one-bit image computed from a cleared
    array: set exactly when the pin at that place sets it. *)
Lemma one_bit_set_iff (act : PINDEF -> option bool) (pins : list PINDEF) (a' : list Z)
    (n : nat) (P B : Z) :
  NoDup (key <$> pins) ->
  run_effects (fun p => one_bit_effect (port p) (bit p) (act p)) pins (replicate n 0) = Some a' ->
  0 <= P < Z.of_nat n -> 0 <= B < 32 ->
  exists r', a' !! Z.to_nat P = Some r' /\
    (Z.testbit r' B = true <-> exists p, p ∈ pins /\ key p = (P, B) /\ act p = Some true).
Proof.
  intros Hnodup Hrun HP HB.
  assert (Hr : replicate n 0 !! Z.to_nat P = Some 0) by (apply lookup_replicate_2; lia).
  destruct (one_bit_final act pins _ a' P B 0 Hrun ltac:(lia) HB Hr) as (r' & Hr' & Hnone & Hsome).
  exists r'. split; [exact Hr'|]. split.
  - intros Hset.
    destruct (decide (Exists (fun p => key p = (P, B) /\ act p <> None) pins)) as [Hex|Hno].
    + apply Exists_exists in Hex as (p & Hp & Hkey & Hact).
      destruct (act p) as [b|] eqn:Eb; [|contradiction].
      rewrite (Hsome Hnodup p b Hp Hkey Eb) in Hset. subst b. eauto.
    + rewrite Hnone in Hset; [rewrite Z.bits_0 in Hset; discriminate|].
      intros p Hp Hkey. destruct (act p) eqn:Eb; [|reflexivity].
      exfalso. apply Hno. apply Exists_exists. exists p. rewrite Eb. eauto.
  - intros (p & Hp & Hkey & Hact). eapply Hsome; eauto.
Qed.

(** X7 (direction).  In the direction image computed from the cleared array
    for pins with pairwise different (port, bit), a port bit is 1 exactly
    when the table has an output pin at that port and bit. *)
Theorem calc_FIODIR_bit_is_output (pins : list PINDEF) (a' : list Z) (P B : Z) :
  NoDup (key <$> pins) ->
  calc_FIODIR pins (FIODIR regs_init) = Some a' ->
  0 <= P < 5 -> 0 <= B < 32 ->
  exists r', a' !! Z.to_nat P = Some r' /\
    (Z.testbit r' B = true <-> exists p, p ∈ pins /\ key p = (P, B) /\ inout p = OUT).
Proof.
  intros Hnodup Hrun HP HB. rewrite calc_FIODIR_effects in Hrun.
  destruct (one_bit_set_iff FIODIR_action pins a' 5 P B Hnodup Hrun ltac:(lia) HB)
    as (r' & Hr' & Hiff).
  exists r'. split; [exact Hr'|]. rewrite Hiff.
  split; intros (p & Hp & Hkey & H); exists p; (split; [exact Hp|]); (split; [exact Hkey|]);
    revert H; unfold FIODIR_action, IN, OUT;
    destruct (Z.eqb_spec (inout p) 1), (Z.eqb_spec (inout p) 0);
    first [discriminate | lia | reflexivity | (intros; reflexivity) | (intros; lia)].
Qed.

Lemma calc_FIODIR_bit_is_output_witness :
  let p := pin_at 0 0 2 OUT 0 in
  let q := pin_at 0 1 1 IN 3 in
  exists r', [1; 0; 0; 0; 0] !! Z.to_nat 0 = Some r' /\
    (Z.testbit r' 1 = true <-> exists x, x ∈ [p; q] /\ key x = (0, 1) /\ inout x = OUT).
Proof.
  intros p q. apply (calc_FIODIR_bit_is_output [p; q] [1; 0; 0; 0; 0] 0 1).
  - apply NoDup_pair. discriminate.
  - vm_compute. reflexivity.
  - lia.
  - lia.
Defined.

(** X8 (default state).  In the FIOPIN image computed from the cleared array
    for pins with pairwise different (port, bit), a port bit is 1 exactly
    when the table has a pin with default state 1 at that port and bit. *)
Theorem calc_FIOPIN_bit_is_default (pins : list PINDEF) (a' : list Z) (P B : Z) :
  NoDup (key <$> pins) ->
  calc_FIOPIN pins (FIOPIN regs_init) = Some a' ->
  0 <= P < 5 -> 0 <= B < 32 ->
  exists r', a' !! Z.to_nat P = Some r' /\
    (Z.testbit r' B = true <-> exists p, p ∈ pins /\ key p = (P, B) /\ def p = 1).
Proof.
  intros Hnodup Hrun HP HB. rewrite calc_FIOPIN_effects in Hrun.
  destruct (one_bit_set_iff FIOPIN_action pins a' 5 P B Hnodup Hrun ltac:(lia) HB)
    as (r' & Hr' & Hiff).
  exists r'. split; [exact Hr'|]. rewrite Hiff.
  split; intros (p & Hp & Hkey & H); exists p; (split; [exact Hp|]); (split; [exact Hkey|]);
    revert H; unfold FIOPIN_action;
    destruct (Z.eqb_spec (def p) 1), (Z.eqb_spec (def p) 0);
    first [discriminate | lia | reflexivity | (intros; reflexivity) | (intros; lia)].
Qed.

Lemma calc_FIOPIN_bit_is_default_witness :
  let p := pin_at 0 0 2 OUT 0 in
  let q := set_def 1 (pin_at 0 1 1 OUT 3) in
  exists r', [2; 0; 0; 0; 0] !! Z.to_nat 0 = Some r' /\
    (Z.testbit r' 1 = true <-> exists x, x ∈ [p; q] /\ key x = (0, 1) /\ def x = 1).
Proof.
  intros p q. apply (calc_FIOPIN_bit_is_default [p; q] [2; 0; 0; 0; 0] 0 1).
  - apply NoDup_pair. discriminate.
  - vm_compute. reflexivity.
  - lia.
  - lia.
Defined.

(** X9 (open drain).  In the PINMODE_OD image that [calc_PINMODE] computes
    from the cleared arrays for pins with pairwise different (port, bit), a
    port bit is 1 exactly when the table has an open-drain pin at that port
    and bit. *)
Theorem calc_PINMODE_OD_bit_is_odrain (pins : list PINDEF) (a' b' : list Z) (P B : Z) :
  NoDup (key <$> pins) ->
  calc_PINMODE pins (PINMODE regs_init) (PINMODE_OD regs_init) = Some (a', b') ->
  0 <= P < 5 -> 0 <= B < 32 ->
  exists r', b' !! Z.to_nat P = Some r' /\
    (Z.testbit r' B = true <-> exists p, p ∈ pins /\ key p = (P, B) /\ odrain p = 1).
Proof.
  intros Hnodup Hrun HP HB. rewrite calc_PINMODE_effects in Hrun.
  destruct (run_effects PINMODE_effect pins _) as [a1|]; [simpl in Hrun|discriminate].
  destruct (run_effects PINMODE_OD_effect pins _) as [b1|] eqn:Eb; [simpl in Hrun|discriminate].
  injection Hrun as <- <-.
  destruct (one_bit_set_iff PINMODE_OD_action pins b1 5 P B Hnodup Eb ltac:(lia) HB)
    as (r' & Hr' & Hiff).
  exists r'. split; [exact Hr'|]. rewrite Hiff.
  split; intros (p & Hp & Hkey & H); exists p; (split; [exact Hp|]); (split; [exact Hkey|]);
    revert H; unfold PINMODE_OD_action;
    destruct (Z.eqb_spec (odrain p) 1), (Z.eqb_spec (odrain p) 0);
    first [discriminate | lia | reflexivity | (intros; reflexivity) | (intros; lia)].
Qed.

Lemma calc_PINMODE_OD_bit_is_odrain_witness :
  let p := pin_at 0 0 2 OUT 0 in
  let q := set_odrain 1 (pin_at 0 1 1 OUT 3) in
  exists r', [2; 0; 0; 0; 0] !! Z.to_nat 0 = Some r' /\
    (Z.testbit r' 1 = true <-> exists x, x ∈ [p; q] /\ key x = (0, 1) /\ odrain x = 1).
Proof.
  intros p q.
  apply (calc_PINMODE_OD_bit_is_odrain [p; q] [12; 0; 0; 0; 0; 0; 0; 0; 0; 0; 0]
           [2; 0; 0; 0; 0] 0 1).
  - apply NoDup_pair. discriminate.
  - vm_compute. reflexivity.
  - lia.
  - lia.
Defined.

(** X10 (mask).  [calc_FIOMASK] first sets every image to all ones, whatever
    it held; at the end a port bit is 0 exactly when the table has a pin
    with function 0 at that port and bit.  Pins may share a place. *)
Theorem calc_FIOMASK_bit_is_gpio (pins : list PINDEF) (a a' : list Z) (P B : Z) :
  length a = 5%nat ->
  calc_FIOMASK pins a = Some a' ->
  0 <= P < 5 -> 0 <= B < 32 ->
  exists r', a' !! Z.to_nat P = Some r' /\
    (Z.testbit r' B = false <-> exists p, p ∈ pins /\ key p = (P, B) /\ func p = 0).
Proof.
  intros Hlen Hrun HP HB. rewrite calc_FIOMASK_effects in Hrun.
  assert (Hr : map (fun _ : Z => ulong 4294967295) a !! Z.to_nat P = Some (ulong 4294967295)).
  { destruct (lookup_lt_is_Some_2 a (Z.to_nat P)) as [x Hx]; [lia|].
    change (map (fun _ : Z => ulong 4294967295) a) with ((fun _ : Z => ulong 4294967295) <$> a).
    rewrite list_lookup_fmap, Hx. reflexivity. }
  destruct (run_effects_bits _ _ _ _ _ _ Hrun Hr) as (r' & Hr' & Hbits).
  exists r'. split; [exact Hr'|]. rewrite Hbits by lia.
  assert (Hone : Z.testbit (ulong 4294967295) B = true).
  { change (ulong 4294967295) with (ulong (-1)).
    rewrite testbit_ulong, Z.bits_m1 by lia.
    rewrite andb_true_r. apply Z.ltb_lt. unfold ULONG_BITS. lia. }
  rewrite Hone.
  rewrite (last_touch_same _ _ _ false).
  - rewrite Exists_fmap, Exists_exists. split.
    + intros [?|(p & Hp & Ht)]; [discriminate|]. exists p. split; [exact Hp|].
      simpl in Ht. unfold FIOMASK_effect in Ht. rewrite touch_one_bit in Ht by exact HB.
      case_decide as Hk; [|discriminate]. unfold FIOMASK_action in Ht.
      destruct (Z.eqb_spec (func p) 0); [|discriminate].
      split; [unfold key; f_equal; lia|assumption].
    + intros (p & Hp & Hkey & Hf). right. exists p. split; [exact Hp|].
      injection Hkey as Hport Hbit.
      simpl. unfold FIOMASK_effect. rewrite touch_one_bit by exact HB.
      rewrite decide_True by lia. unfold FIOMASK_action. rewrite Hf. reflexivity.
  - apply Forall_fmap, Forall_forall. intros q Hq. simpl.
    unfold FIOMASK_effect. rewrite touch_one_bit by exact HB.
    case_decide; [|auto]. unfold FIOMASK_action. destruct (func q =? 0); auto.
Qed.

Lemma calc_FIOMASK_bit_is_gpio_witness :
  let p := pin_at 0 0 0 OUT 0 in
  let q := pin_at 0 1 1 IN 3 in
  exists r', [4294967294; 4294967295; 4294967295; 4294967295; 4294967295] !! Z.to_nat 0
             = Some r' /\
    (Z.testbit r' 0 = false <-> exists x, x ∈ [p; q] /\ key x = (0, 0) /\ func x = 0).
Proof.
  intros p q.
  apply (calc_FIOMASK_bit_is_gpio [p; q] (FIOMASK regs_init)
           [4294967294; 4294967295; 4294967295; 4294967295; 4294967295] 0 0).
  - reflexivity.
  - vm_compute. reflexivity.
  - lia.
  - lia.
Defined.

(** ** What the field loop reads *)

Lemma parse_field_error (i : nat) (field : string) (v : PINDEF) :
  parse_field i field v = FieldError -> (i <= 3)%nat /\ sscanf_d field = None.
Proof.
  assert (Hreq : forall (set : Z -> PINDEF -> PINDEF) (j : nat),
            (j <= 3)%nat ->
            match sscanf_d field with
            | Some itemp => FieldOk (set itemp v)
            | None => FieldError
            end = FieldError -> (j <= 3)%nat /\ sscanf_d field = None).
  { intros set j Hj. destruct (sscanf_d field); [discriminate|auto]. }
  destruct i as [|i]; [apply (Hreq set_seq); lia|].
  destruct i as [|i].
  { cbn [parse_field]. destruct (strncmp_eq field "N/A"); [discriminate|].
    apply (Hreq set_pinnum); lia. }
  destruct i as [|i]; [apply (Hreq set_port); lia|].
  destruct i as [|i]; [apply (Hreq set_bit); lia|].
  do 10 (destruct i as [|i]; [discriminate|]). discriminate.
Qed.

Lemma parse_field_break (i : nat) (field : string) (v : PINDEF) :
  parse_field i field v = FieldBreak -> i = 1%nat /\ strncmp_eq field "N/A" = true.
Proof.
  destruct i as [|i]; [cbn [parse_field]; destruct (sscanf_d field); discriminate|].
  destruct i as [|i].
  { cbn [parse_field]. destruct (strncmp_eq field "N/A"); [auto|].
    destruct (sscanf_d field); discriminate. }
  do 2 (destruct i as [|i]; [cbn [parse_field]; destruct (sscanf_d field); discriminate|]).
  do 10 (destruct i as [|i]; [discriminate|]). discriminate.
Qed.

Lemma scan_fields_error (lp : string) (n : nat) :
  forall j v i field,
  scan_fields n j lp (field_beg lp j) v = ScanError i field ->
  (i <= 3)%nat /\ field = field_text lp i /\ unparsable lp i.
Proof.
  induction n as [|n IH]; intros j v i field; [cbn [scan_fields]; discriminate|].
  rewrite scan_fields_at.
  destruct (Nat.eqb_spec (field_span lp j) 0) as [Hlen|Hlen]; [apply IH|].
  destruct (parse_field j (field_text lp j) v) as [w| |] eqn:Hparse;
    [apply IH|discriminate|].
  intros [= <- <-]. apply parse_field_error in Hparse as [Hj Hscan].
  split; [exact Hj|]. split; [reflexivity|]. split; assumption.
Qed.

Lemma scan_line_unfold (lp : string) :
  scan_line lp = scan_fields 14 0 lp (field_beg lp 0) locals_init.
Proof. unfold scan_line. reflexivity. Qed.

(** X11 (fatal fields).  The field loop ends at MYERROR only on one of the
    fields 0 to 3, on a field that is not empty and does not convert, and
    reports that field's text. *)
Theorem scan_line_error_is_early (lp : string) (i : nat) (field : string) :
  scan_line lp = ScanError i field ->
  (i <= 3)%nat /\ field = field_text lp i /\ unparsable lp i.
Proof. rewrite scan_line_unfold. apply (scan_fields_error lp 14 0 locals_init). Qed.

Lemma scan_line_error_is_early_witness :
  let lp := "1,46,x,0,RD1,TXD3,SDA1,GSM_TX,2,0,,,," in
  (2 <= 3)%nat /\ "x" = field_text lp 2 /\ unparsable lp 2.
Proof.
  intros lp. apply (scan_line_error_is_early lp 2 "x").
  vm_compute. reflexivity.
Defined.

Lemma field_text_empty (lp : string) (i : nat) :
  field_span lp i = 0%nat -> field_text lp i = "".
Proof. unfold field_text. intros ->. reflexivity. Qed.

(** One local of [main] through the field loop: [proj] reads the local,
    field [i0] is the only field stored in it, and [G field x] is what the
    local holds after a field with text [field] when it held [x] before. *)
Section OneLocal.
Context {A : Type} (lp : string) (proj : PINDEF -> A) (i0 : nat) (G : string -> A -> A).
Hypothesis Hother : forall j field v v',
  j <> i0 -> parse_field j field v = FieldOk v' -> proj v' = proj v.
Hypothesis Hset : forall field v v',
  parse_field i0 field v = FieldOk v' -> proj v' = G field (proj v).
Hypothesis Hempty : forall x, G "" x = x.
Hypothesis HNA : ~ is_NA lp.

Lemma scan_fields_local (n : nat) :
  forall j v w d,
  scan_fields n j lp (field_beg lp j) v = Scanned w ->
  ((j <= i0)%nat -> proj v = d) ->
  ((i0 < j)%nat -> proj v = G (field_text lp i0) d) ->
  (i0 < j + n)%nat ->
  proj w = G (field_text lp i0) d.
Proof.
  induction n as [|n IH]; intros j v w d.
  - cbn [scan_fields]. intros [= <-] _ Hafter Hlt. apply Hafter. lia.
  - rewrite scan_fields_at. intros Hscan Hbefore Hafter Hlt.
    destruct (Nat.eqb_spec (field_span lp j) 0) as [Hlen|Hlen].
    + apply (IH _ _ _ _ Hscan); [intros; apply Hbefore; lia| |lia].
      intros Hj. destruct (decide (j = i0)) as [->|Hne]; [|apply Hafter; lia].
      rewrite (field_text_empty _ _ Hlen), Hempty. apply Hbefore. lia.
    + destruct (parse_field j (field_text lp j) v) as [v'| |] eqn:Hparse;
        [|exfalso|discriminate].
      * apply (IH _ _ _ _ Hscan); [| |lia].
        -- intros Hj. assert (Hne : j <> i0) by lia.
           rewrite (Hother _ _ _ _ Hne Hparse). apply Hbefore. lia.
        -- intros Hj. destruct (decide (j = i0)) as [->|Hne].
           ++ rewrite (Hset _ _ _ Hparse). f_equal. apply Hbefore. lia.
           ++ rewrite (Hother _ _ _ _ Hne Hparse). apply Hafter. lia.
      * apply parse_field_break in Hparse as [-> Hpre]. apply HNA. split; assumption.
Qed.

Lemma scan_line_local (w : PINDEF) :
  (i0 < 14)%nat -> scan_line lp = Scanned w ->
  proj w = G (field_text lp i0) (proj locals_init).
Proof.
  intros Hi0. rewrite scan_line_unfold. intros Hscan.
  apply (scan_fields_local 14 0 locals_init w (proj locals_init) Hscan); [reflexivity|lia|lia].
Qed.
End OneLocal.

(** Field [j] leaves every local but its own as it is. *)
Ltac other_fields :=
  let j := fresh "j" in
  let Hj := fresh "Hj" in
  intros j ? ? ? Hj;
  do 14 (destruct j as [|j];
         [ simpl; unfold scan_opt, copy_name; repeat case_match;
           intros [= <-]; first [reflexivity | congruence] |]);
  simpl; intros [= <-]; reflexivity.

(** Field [i0] stores its value in its own local. *)
Ltac own_field :=
  intros ? ? ?; simpl; unfold scan_opt, copy_name; repeat case_match;
  first [discriminate | intros [= <-]; simpl; congruence | intros [= <-]; reflexivity].

(** X12 (parse rules).  On a line that the N/A test does not abandon and that
    the field loop scans without MYERROR, every local holds what its own
    field gives: the converted value of a numeric field, or the default 0,
    0, 0, 0, NA, NA, 0, 0, 0, 1 when the field is empty or does not
    convert, and the text of a name field longer than one character, or
    the empty string.  The fields are taken to convert to values of [int],
    the only ones for which [sscanf] has a defined result. *)
Theorem scan_line_values (lp : string) (v : PINDEF) :
  fields_fit_int lp = true ->
  ~ is_NA lp ->
  scan_line lp = Scanned v ->
  v = {| seq := field_int lp 0 0; pinnum := field_int lp 1 0;
         port := field_int lp 2 0; bit := field_int lp 3 0;
         altfunc1 := field_name lp 4; altfunc2 := field_name lp 5;
         altfunc3 := field_name lp 6; signame := field_name lp 7;
         func := field_int lp 8 NA; inout := field_int lp 9 NA;
         mode := field_int lp 10 0; odrain := field_int lp 11 0;
         def := field_int lp 12 0; active := field_int lp 13 1 |}.
Proof.
  intros _ HNA Hscan.
  pose (Gint := fun (field : string) (x : Z) => default x (sscanf_d field)).
  pose (Gname := fun (field x : string) =>
                   if (1 <? String.length field)%nat then field else x).
  assert (H0 : seq v = field_int lp 0 0).
  { apply (scan_line_local lp seq 0 Gint); [other_fields|subst Gint Gname; own_field|reflexivity|exact HNA|lia|exact Hscan]. }
  assert (H1 : pinnum v = field_int lp 1 0).
  { apply (scan_line_local lp pinnum 1 Gint); [other_fields|subst Gint Gname; own_field|reflexivity|exact HNA|lia|exact Hscan]. }
  assert (H2 : port v = field_int lp 2 0).
  { apply (scan_line_local lp port 2 Gint); [other_fields|subst Gint Gname; own_field|reflexivity|exact HNA|lia|exact Hscan]. }
  assert (H3 : bit v = field_int lp 3 0).
  { apply (scan_line_local lp bit 3 Gint); [other_fields|subst Gint Gname; own_field|reflexivity|exact HNA|lia|exact Hscan]. }
  assert (H4 : altfunc1 v = field_name lp 4).
  { apply (scan_line_local lp altfunc1 4 Gname); [other_fields|subst Gint Gname; own_field|reflexivity|exact HNA|lia|exact Hscan]. }
  assert (H5 : altfunc2 v = field_name lp 5).
  { apply (scan_line_local lp altfunc2 5 Gname); [other_fields|subst Gint Gname; own_field|reflexivity|exact HNA|lia|exact Hscan]. }
  assert (H6 : altfunc3 v = field_name lp 6).
  { apply (scan_line_local lp altfunc3 6 Gname); [other_fields|subst Gint Gname; own_field|reflexivity|exact HNA|lia|exact Hscan]. }
  assert (H7 : signame v = field_name lp 7).
  { apply (scan_line_local lp signame 7 Gname); [other_fields|subst Gint Gname; own_field|reflexivity|exact HNA|lia|exact Hscan]. }
  assert (H8 : func v = field_int lp 8 NA).
  { apply (scan_line_local lp func 8 Gint); [other_fields|subst Gint Gname; own_field|reflexivity|exact HNA|lia|exact Hscan]. }
  assert (H9 : inout v = field_int lp 9 NA).
  { apply (scan_line_local lp inout 9 Gint); [other_fields|subst Gint Gname; own_field|reflexivity|exact HNA|lia|exact Hscan]. }
  assert (H10 : mode v = field_int lp 10 0).
  { apply (scan_line_local lp mode 10 Gint); [other_fields|subst Gint Gname; own_field|reflexivity|exact HNA|lia|exact Hscan]. }
  assert (H11 : odrain v = field_int lp 11 0).
  { apply (scan_line_local lp odrain 11 Gint); [other_fields|subst Gint Gname; own_field|reflexivity|exact HNA|lia|exact Hscan]. }
  assert (H12 : def v = field_int lp 12 0).
  { apply (scan_line_local lp def 12 Gint); [other_fields|subst Gint Gname; own_field|reflexivity|exact HNA|lia|exact Hscan]. }
  assert (H13 : active v = field_int lp 13 1).
  { apply (scan_line_local lp active 13 Gint); [other_fields|subst Gint Gname; own_field|reflexivity|exact HNA|lia|exact Hscan]. }
  destruct v as [v0 v1 v2 v3 v4 v5 v6 v7 v8 v9 v10 v11 v12 v13].
  cbn [seq pinnum port bit altfunc1 altfunc2 altfunc3 signame
       func inout mode odrain def active] in *.
  f_equal; assumption.
Qed.

Lemma scan_line_values_witness :
  let lp := c_str sample_row1 in
  mkPINDEF 1 46 0 0 "RD1" "TXD3" "SDA1" "GSM_TX" 2 0 0 0 0 1
  =   {| seq := field_int lp 0 0; pinnum := field_int lp 1 0;
         port := field_int lp 2 0; bit := field_int lp 3 0;
         altfunc1 := field_name lp 4; altfunc2 := field_name lp 5;
         altfunc3 := field_name lp 6; signame := field_name lp 7;
         func := field_int lp 8 NA; inout := field_int lp 9 NA;
         mode := field_int lp 10 0; odrain := field_int lp 11 0;
         def := field_int lp 12 0; active := field_int lp 13 1 |}.
Proof.
  intros lp.
  apply (scan_line_values lp (mkPINDEF 1 46 0 0 "RD1" "TXD3" "SDA1" "GSM_TX" 2 0 0 0 0 1)).
  - vm_compute. reflexivity.
  - intros [_ H]. vm_compute in H. discriminate H.
  - vm_compute. reflexivity.
Defined.

(** ** The fields of a line *)

Lemma char_at_str_plus (lp : string) (beg n : nat) :
  char_at lp (beg + n) = char_at (str_plus lp beg) n.
Proof.
  revert lp. induction beg as [|beg IH]; intros lp; [destruct lp; reflexivity|].
  destruct lp as [|c lp]; [destruct n; reflexivity|]. apply (IH lp).
Qed.

Lemma str_plus_0 (s : string) : str_plus s 0 = s.
Proof. destruct s; reflexivity. Qed.

Lemma str_plus_plus (s : string) (a b : nat) :
  str_plus s (a + b) = str_plus (str_plus s a) b.
Proof.
  revert s. induction a as [|a IH]; intros s; [destruct s; reflexivity|].
  destruct s as [|c s]; [destruct b; reflexivity|]. apply (IH s).
Qed.

Lemma str_plus_app (f rest : string) :
  str_plus (f +:+ rest) (String.length f) = rest.
Proof. induction f as [|c f IH]; [destruct rest; reflexivity|exact IH]. Qed.

Lemma str_plus_length (f : string) : str_plus f (String.length f) = "".
Proof. induction f as [|c f IH]; [reflexivity|exact IH]. Qed.

Lemma char_at_length (f : string) : char_at f (String.length f) = NUL.
Proof. induction f as [|c f IH]; [reflexivity|exact IH]. Qed.

Lemma char_at_app (f rest : string) :
  char_at (f +:+ rest) (String.length f) = char_at rest 0.
Proof. induction f as [|c f IH]; [reflexivity|exact IH]. Qed.

Lemma plain_field_cons (c : ascii) (f : string) :
  plain_field (String c f) <-> c <> COMMA /\ c <> NUL /\ plain_field f.
Proof.
  unfold plain_field. cbn [strcspn mem_char c_str String.length]. unfold COMMA.
  destruct (decide (c = ","%char)) as [Hc|Hc], (decide (c = NUL)) as [Hn|Hn];
    split; try (intros [? ?]; discriminate); try (intros (? & ? & ?); contradiction).
  - intros [H1 H2]. injection H1 as H1. injection H2 as H2. auto.
  - intros (_ & _ & H1 & H2). rewrite H1, H2. auto.
Qed.

Lemma strcspn_app (f rest : string) :
  plain_field f -> strcspn rest "," = 0%nat ->
  strcspn (f +:+ rest) "," = String.length f.
Proof.
  intros Hf Hrest. induction f as [|c f IH]; [exact Hrest|].
  apply plain_field_cons in Hf as (Hc & _ & Hf).
  change (strcspn (String c (f +:+ rest)) "," = S (String.length f)).
  cbn [strcspn mem_char]. unfold COMMA in Hc.
  destruct (decide (c = ","%char)) as [?|_]; [contradiction|].
  rewrite (IH Hf). reflexivity.
Qed.

Lemma concat_cons2 (f g : string) (fs : list string) :
  String.concat "," (f :: g :: fs) = f +:+ String COMMA (String.concat "," (g :: fs)).
Proof. reflexivity. Qed.

(** After [i] iterations [lp + beg] is what is left of the line: the
    pieces from the [i]-th on. *)
Lemma field_beg_join (fs : list string) (i : nat) :
  Forall plain_field fs ->
  str_plus (String.concat "," fs) (field_beg (String.concat "," fs) i)
  = String.concat "," (drop i fs).
Proof.
  intros Hfs. induction i as [|i IH]; [apply str_plus_0|].
  cbn [field_beg]. set (lp := String.concat "," fs) in *.
  set (beg := field_beg lp i) in *.
  rewrite (char_at_str_plus lp beg), IH.
  assert (Hdrop : drop (S i) fs = drop 1 (drop i fs)).
  { rewrite drop_drop. f_equal. lia. }
  assert (Hplain : Forall plain_field (drop i fs)) by (apply Forall_drop; exact Hfs).
  rewrite Hdrop. destruct (drop i fs) as [|f [|g rest]].
  - simpl. rewrite Nat.add_0_r. exact IH.
  - apply Forall_cons in Hplain as [Hf _].
    cbn [String.concat drop]. destruct Hf as [Hf _]. rewrite Hf, char_at_length.
    rewrite decide_True by reflexivity. rewrite str_plus_plus, IH.
    apply str_plus_length.
  - apply Forall_cons in Hplain as [Hf _].
    rewrite concat_cons2. rewrite (strcspn_app f _ Hf) by reflexivity.
    rewrite char_at_app. change (char_at (String COMMA _) 0) with COMMA.
    rewrite decide_False by discriminate.
    rewrite <- Nat.add_assoc, str_plus_plus, IH, concat_cons2.
    rewrite str_plus_plus, str_plus_app.
    exact (str_plus_0 (String.concat "," (g :: rest))).
Qed.

Lemma field_span_join (fs : list string) (i : nat) :
  Forall plain_field fs ->
  field_span (String.concat "," fs) i = String.length (default "" (fs !! i)).
Proof.
  intros Hfs. unfold field_span. rewrite (field_beg_join fs i Hfs).
  assert (Hplain : Forall plain_field (drop i fs)) by (apply Forall_drop; exact Hfs).
  rewrite <- (Nat.add_0_r i) at 2. rewrite <- lookup_drop.
  destruct (drop i fs) as [|f [|g rest]]; [reflexivity| |].
  - apply Forall_cons in Hplain as [[Hf _] _]. exact Hf.
  - apply Forall_cons in Hplain as [Hf _]. rewrite concat_cons2.
    apply strcspn_app; [exact Hf|reflexivity].
Qed.

Lemma copy_field_ext (lp lp' : string) (beg beg' len n : nat) :
  forall j,
  (forall t, (j <= t < j + n)%nat -> char_at lp (t + beg) = char_at lp' (t + beg')) ->
  copy_field lp beg len n j = copy_field lp' beg' len n j.
Proof.
  induction n as [|n IH]; intros j Hchar; [reflexivity|].
  cbn [copy_field]. rewrite (Hchar j) by lia.
  rewrite (IH (S j)) by (intros t Ht; apply Hchar; lia). reflexivity.
Qed.

Lemma char_at_list (l : list ascii) (i : nat) :
  char_at (string_of_list_ascii l) i = default NUL (l !! i).
Proof.
  revert i. induction l as [|c l IH]; intros i; [destruct i; reflexivity|].
  destruct i as [|i]; [reflexivity|]. apply (IH i).
Qed.

Lemma char_at_app_l (f rest : string) (j : nat) :
  (j < String.length f)%nat -> char_at (f +:+ rest) j = char_at f j.
Proof.
  revert j. induction f as [|c f IH]; intros j Hj; [simpl in Hj; lia|].
  destruct j as [|j]; [reflexivity|]. apply (IH j). simpl in Hj. lia.
Qed.

Lemma strlen_no_NUL (xs : list ascii) :
  Forall (fun c => c <> NUL) xs -> strlen xs = length xs.
Proof.
  induction 1 as [|c xs Hc _ IH]; [reflexivity|].
  cbn [strlen length]. rewrite decide_False by exact Hc. rewrite IH. reflexivity.
Qed.

Lemma strlen_app_NUL (xs ys : list ascii) :
  Forall (fun c => c <> NUL) xs -> strlen (xs ++ NUL :: ys) = length xs.
Proof.
  induction 1 as [|c xs Hc _ IH]; [reflexivity|].
  cbn [strlen length app]. rewrite decide_False by exact Hc. rewrite IH. reflexivity.
Qed.

Lemma str_from_no_NUL (xs : list ascii) :
  Forall (fun c => c <> NUL) xs -> str_from xs 0 = string_of_list_ascii xs.
Proof.
  intros Hxs. unfold str_from. rewrite drop_0, (strlen_no_NUL xs Hxs), firstn_all.
  reflexivity.
Qed.

Lemma str_from_app_NUL (xs ys : list ascii) :
  Forall (fun c => c <> NUL) xs -> str_from (xs ++ NUL :: ys) 0 = string_of_list_ascii xs.
Proof.
  intros Hxs. unfold str_from. rewrite drop_0, (strlen_app_NUL xs ys Hxs).
  rewrite take_app_length. reflexivity.
Qed.

Lemma str_from_S (c : ascii) (cp : list ascii) (off : nat) :
  str_from (c :: cp) (S off) = str_from cp off.
Proof. reflexivity. Qed.

Lemma plain_field_no_NUL (f : string) :
  c_str f = f -> Forall (fun c => c <> NUL) (list_ascii_of_string f).
Proof.
  induction f as [|c f IH]; intros Hf; [constructor|].
  cbn [c_str] in Hf. destruct (decide (c = NUL)) as [?|Hc]; [discriminate|].
  injection Hf as Hf. constructor; [exact Hc|exact (IH Hf)].
Qed.

(** The copy loop past the first position: everything is copied but a
    double quote in the last position. *)
Lemma copy_field_tail (lp : string) (len : nat) :
  forall (xs : list ascii) (d : ascii) (j : nat),
  (0 < j)%nat -> (j + length xs + 1 = len)%nat ->
  (forall t c, (xs ++ [d]) !! t = Some c -> char_at lp (j + t + 0) = c) ->
  copy_field lp 0 len (length xs + 1) j
  = string_of_list_ascii (xs ++ if decide (d = DQUOTE) then [] else [d]).
Proof.
  induction xs as [|x xs IH]; intros d j Hj Hlen Hchar.
  - assert (Hc0 : char_at lp (j + 0) = d).
    { rewrite <- (Hchar 0%nat d eq_refl). f_equal. lia. }
    cbn [length Nat.add copy_field app]. rewrite Hc0.
    destruct (Nat.eqb_spec j 0) as [?|_]; [lia|].
    destruct (Nat.eqb_spec j (len - 1)) as [_|?]; [|simpl in Hlen; lia].
    cbn [andb]. case_bool_decide;
      [rewrite decide_True by assumption|rewrite decide_False by assumption]; reflexivity.
  - assert (Hc0 : char_at lp (j + 0) = x).
    { rewrite <- (Hchar 0%nat x eq_refl). f_equal. lia. }
    cbn [length Nat.add copy_field app]. rewrite Hc0.
    destruct (Nat.eqb_spec j 0) as [?|_]; [lia|].
    destruct (Nat.eqb_spec j (len - 1)) as [?|_]; [simpl in Hlen; lia|].
    cbn [andb string_of_list_ascii]. f_equal.
    apply (IH d (S j)); [lia|simpl in Hlen; lia|].
    intros t c Ht. rewrite <- (Hchar (S t) c Ht). f_equal. lia.
Qed.

Lemma length_list_of_string (f : string) :
  length (list_ascii_of_string f) = String.length f.
Proof. induction f as [|c f IH]; [reflexivity|]. simpl. rewrite IH. reflexivity. Qed.

Lemma str_at_0 (c : ascii) (cp : list ascii) : str_at (c :: cp) 0 = c.
Proof. reflexivity. Qed.

Lemma str_at_last (c : ascii) (l : list ascii) (d : ascii) :
  str_at (c :: l ++ [d]) (S (length l)) = d.
Proof.
  unfold str_at. change (default NUL ((l ++ [d]) !! length l) = d).
  rewrite (lookup_app_r l [d]) by lia. rewrite Nat.sub_diag. reflexivity.
Qed.

Lemma trim_quotes_one (c : ascii) :
  c <> NUL ->
  trimmed (trim_quotes [c]) = if decide (c = DQUOTE) then "" else String c "".
Proof.
  intros Hc. destruct (decide (c = DQUOTE)) as [->|Hq]; [reflexivity|].
  unfold trim_quotes, trimmed. cbn [strlen].
  rewrite (decide_False (P := c = NUL)) by exact Hc.
  cbn [Nat.eqb Nat.sub]. rewrite str_at_0.
  rewrite (decide_False (P := c = DQUOTE)) by exact Hq.
  rewrite str_at_0. rewrite (decide_False (P := c = DQUOTE)) by exact Hq.
  cbn [fst snd]. apply (str_from_no_NUL [c]). constructor; [exact Hc|constructor].
Qed.

Lemma trim_quotes_two (c : ascii) (l : list ascii) (d : ascii) :
  c <> NUL -> Forall (fun c => c <> NUL) l -> d <> NUL ->
  trimmed (trim_quotes (c :: l ++ [d]))
  = string_of_list_ascii ((if decide (c = DQUOTE) then [] else [c])
                          ++ l ++ if decide (d = DQUOTE) then [] else [d]).
Proof.
  intros Hc Hl Hd.
  assert (Hld : Forall (fun c => c <> NUL) (l ++ [d])).
  { apply Forall_app. split; [exact Hl|]. constructor; [exact Hd|constructor]. }
  assert (Hall : Forall (fun c => c <> NUL) (c :: l ++ [d])) by (constructor; assumption).
  unfold trim_quotes, trimmed. rewrite (strlen_no_NUL _ Hall).
  cbn [length]. rewrite length_app. cbn [length]. rewrite Nat.add_1_r.
  cbn [Nat.eqb Nat.sub]. rewrite str_at_last.
  destruct (decide (d = DQUOTE)) as [->|Hdq].
  - change (<[S (length l):=NUL]> (c :: l ++ [DQUOTE]))
      with (c :: <[length l:=NUL]> (l ++ [DQUOTE])).
    rewrite (insert_app_r_alt l [DQUOTE]) by lia. rewrite Nat.sub_diag.
    cbn [insert list_insert]. rewrite str_at_0. cbn [fst snd]. rewrite app_nil_r.
    destruct (decide (c = DQUOTE)) as [->|Hq].
    + rewrite str_from_S. apply (str_from_app_NUL l [] Hl).
    + apply (str_from_app_NUL (c :: l) []). constructor; assumption.
  - rewrite str_at_0. cbn [fst snd].
    destruct (decide (c = DQUOTE)) as [->|Hq].
    + rewrite str_from_S. apply (str_from_no_NUL _ Hld).
    + apply (str_from_no_NUL _ Hall).
Qed.

Lemma copy_field_S (lp : string) (beg len n j : nat) :
  copy_field lp beg len (S n) j
  = if (j =? 0)%nat && bool_decide (char_at lp (j + beg) = DQUOTE)
    then copy_field lp beg len n (S j)
    else if (j =? len - 1)%nat && bool_decide (char_at lp (j + beg) = DQUOTE)
    then copy_field lp beg len n (S j)
    else String (char_at lp (j + beg)) (copy_field lp beg len n (S j)).
Proof. reflexivity. Qed.

Lemma copy_field_trim_quotes_list (l : list ascii) :
  Forall (fun c => c <> NUL) l ->
  copy_field (string_of_list_ascii l) 0 (length l) (length l) 0
  = trimmed (trim_quotes l).
Proof.
  intros Hl. destruct l as [|c l]; [reflexivity|].
  apply Forall_cons in Hl as [Hc Hl].
  destruct l as [|d l _] using rev_ind.
  - rewrite (trim_quotes_one c Hc).
    cbn [length copy_field]. change (char_at (string_of_list_ascii [c]) (0 + 0)) with c.
    cbn [Nat.eqb Nat.sub andb].
    destruct (decide (c = DQUOTE)) as [Hq|Hq];
      [rewrite bool_decide_eq_true_2 by exact Hq|rewrite bool_decide_eq_false_2 by exact Hq];
      reflexivity.
  - apply Forall_app in Hl as [Hl Hd]. apply Forall_cons in Hd as [Hd _].
    rewrite (trim_quotes_two c l d Hc Hl Hd).
    assert (Htail : copy_field (string_of_list_ascii (c :: l ++ [d])) 0 (S (S (length l)))
                      (length l + 1) 1
                    = string_of_list_ascii (l ++ if decide (d = DQUOTE) then [] else [d])).
    { apply copy_field_tail; [lia|lia|].
      intros t x Ht. rewrite char_at_list.
      replace (1 + t + 0)%nat with (S t) by lia.
      change (default NUL ((l ++ [d]) !! t) = x). rewrite Ht. reflexivity. }
    cbn [length]. rewrite length_app. cbn [length].
    replace (S (length l + 1)) with (S (S (length l))) by lia.
    replace (length l + 1)%nat with (S (length l)) in Htail by lia.
    rewrite copy_field_S.
    change (char_at (string_of_list_ascii (c :: l ++ [d])) (0 + 0)) with c.
    cbn [Nat.eqb Nat.sub andb]. rewrite Htail.
    destruct (decide (c = DQUOTE)) as [Hq|Hq];
      [rewrite bool_decide_eq_true_2 by exact Hq|rewrite bool_decide_eq_false_2 by exact Hq];
      reflexivity.
Qed.

Lemma copy_field_trim_quotes (f : string) :
  c_str f = f ->
  copy_field f 0 (String.length f) (String.length f) 0
  = trimmed (trim_quotes (list_ascii_of_string f)).
Proof.
  intros Hf. apply plain_field_no_NUL in Hf.
  rewrite <- (copy_field_trim_quotes_list _ Hf).
  rewrite string_of_list_ascii_of_string, length_list_of_string. reflexivity.
Qed.

(** X13 (the fields of a line).  The field loop splits a line at every comma,
    whether or not the comma stands between double quotes: on the line made
    of the pieces [fs] joined by commas, the text of field [i] is piece
    [i] as [trim_quotes] leaves it, without a double quote in its first and
    without one in its last position, and a field past the last piece is
    empty. *)
Theorem fields_are_comma_separated (fs : list string) (i : nat) :
  Forall plain_field fs ->
  field_span (String.concat "," fs) i = String.length (default "" (fs !! i)) /\
  field_text (String.concat "," fs) i
  = trimmed (trim_quotes (list_ascii_of_string (default "" (fs !! i)))).
Proof.
  intros Hfs. split; [exact (field_span_join fs i Hfs)|].
  unfold field_text. rewrite (field_span_join fs i Hfs).
  assert (Hplain : Forall plain_field (drop i fs)) by (apply Forall_drop; exact Hfs).
  pose proof (field_beg_join fs i Hfs) as Hbeg.
  assert (Hi : fs !! i = (drop i fs) !! 0%nat).
  { rewrite lookup_drop. f_equal. lia. }
  rewrite Hi. destruct (drop i fs) as [|f rest]; [reflexivity|].
  apply Forall_cons in Hplain as [[_ Hf] _].
  change (default "" ((f :: rest) !! 0%nat)) with f.
  rewrite <- (copy_field_trim_quotes f Hf).
  apply copy_field_ext. intros t Ht.
  rewrite (Nat.add_comm t (field_beg _ i)), char_at_str_plus, Hbeg, Nat.add_0_r.
  destruct rest as [|g rest]; [reflexivity|].
  rewrite concat_cons2. apply char_at_app_l. lia.
Qed.

Lemma fields_are_comma_separated_witness :
  let fs := ["1"; "46"; Q "RD1"; "a b"; ""; Q "x"] in
  field_span (String.concat "," fs) 2 = String.length (default "" (fs !! 2%nat)) /\
  field_text (String.concat "," fs) 2
  = trimmed (trim_quotes (list_ascii_of_string (default "" (fs !! 2%nat)))).
Proof.
  intros fs. apply (fields_are_comma_separated fs 2).
  repeat constructor.
Defined.

(** ** The trimming functions *)

Lemma strlen_le_length (cp : list ascii) : (strlen cp <= length cp)%nat.
Proof.
  induction cp as [|c cp IH]; [reflexivity|].
  cbn [strlen length]. destruct (decide (c = NUL)); lia.
Qed.

Lemma str_at_strlen (cp : list ascii) : str_at cp (strlen cp) = NUL.
Proof.
  induction cp as [|c cp IH]; [reflexivity|].
  cbn [strlen]. destruct (decide (c = NUL)) as [->|_]; [reflexivity|exact IH].
Qed.

Lemma str_at_below_strlen (cp : list ascii) (i : nat) :
  (i < strlen cp)%nat -> str_at cp i <> NUL.
Proof.
  revert i. induction cp as [|c cp IH]; intros i; [simpl; lia|].
  cbn [strlen]. destruct (decide (c = NUL)) as [->|Hc]; [lia|].
  destruct i as [|i]; [intros _; exact Hc|]. intros Hi. apply (IH i). lia.
Qed.

Lemma strlen_insert_NUL (cp : list ascii) (i : nat) :
  (i < strlen cp)%nat -> strlen (<[i:=NUL]> cp) = i.
Proof.
  revert i. induction cp as [|c cp IH]; intros i; [simpl; lia|].
  cbn [strlen]. destruct (decide (c = NUL)) as [->|Hc]; [lia|].
  destruct i as [|i]; intros Hi; [reflexivity|].
  change (<[S i:=NUL]> (c :: cp)) with (c :: <[i:=NUL]> cp).
  cbn [strlen]. rewrite decide_False by exact Hc. rewrite IH by lia. reflexivity.
Qed.

Lemma str_at_insert_ne (cp : list ascii) (i j : nat) (c : ascii) :
  i <> j -> str_at (<[i:=c]> cp) j = str_at cp j.
Proof. intros Hij. unfold str_at. rewrite list_lookup_insert_ne by exact Hij. reflexivity. Qed.

Lemma strlen_app_l (a b : list ascii) :
  strlen (a ++ NUL :: b) = strlen a.
Proof.
  induction a as [|c a IH]; [reflexivity|].
  cbn [strlen app]. destruct (decide (c = NUL)); [reflexivity|]. rewrite IH. reflexivity.
Qed.

Lemma str_at_app_l (a b : list ascii) (i : nat) :
  (i < length a)%nat -> str_at (a ++ b) i = str_at a i.
Proof. intros Hi. unfold str_at. rewrite lookup_app_l by exact Hi. reflexivity. Qed.

Lemma str_from_app_l (a b : list ascii) :
  str_from (a ++ NUL :: b) 0 = str_from a 0.
Proof.
  unfold str_from. rewrite !drop_0, strlen_app_l.
  rewrite take_app_le by apply strlen_le_length. reflexivity.
Qed.

(** *** The loops read and write below the terminator only *)

Lemma trail_loop_length (test : ascii -> bool) (n : nat) :
  forall cp, length (trail_loop test cp n) = length cp.
Proof.
  induction n as [|n IH]; intros cp; [reflexivity|].
  cbn [trail_loop]. destruct (test (str_at cp n)); [|reflexivity].
  rewrite IH. apply length_insert.
Qed.

Lemma trail_loop_app (test : ascii -> bool) (b : list ascii) (n : nat) :
  forall a, (n <= length a)%nat ->
  trail_loop test (a ++ b) n = trail_loop test a n ++ b.
Proof.
  induction n as [|n IH]; intros a Hn; [reflexivity|].
  cbn [trail_loop]. rewrite str_at_app_l by lia.
  destruct (test (str_at a n)); [|reflexivity].
  rewrite insert_app_l by lia. apply IH. rewrite length_insert. lia.
Qed.

Lemma lead_loop_app (test : ascii -> bool) (a b : list ascii) (n : nat) :
  forall i, (i + n <= length a)%nat ->
  lead_loop test (a ++ b) n i = lead_loop test a n i.
Proof.
  induction n as [|n IH]; intros i Hn; [reflexivity|].
  cbn [lead_loop]. rewrite str_at_app_l by lia.
  destruct (test (str_at a i)); [|reflexivity]. apply IH. lia.
Qed.

(** *** What the loops compute *)

(** The backward loop started at the terminator cuts the string after its
    last character that fails [test]. *)
Lemma trail_loop_spec (test : ascii -> bool) (n : nat) :
  forall cp, strlen cp = n ->
  exists k, (k <= n)%nat /\
    strlen (trail_loop test cp n) = k /\
    take k (trail_loop test cp n) = take k cp /\
    (forall j, (k <= j < n)%nat -> test (str_at cp j) = true) /\
    (k = 0%nat \/ test (str_at cp (k - 1)) = false).
Proof.
  induction n as [|n IH]; intros cp Hlen.
  - exists 0%nat. cbn [trail_loop]. repeat split; auto; intros; lia.
  - cbn [trail_loop]. destruct (test (str_at cp n)) eqn:Htest.
    + destruct (IH (<[n:=NUL]> cp)) as (k & Hk & Hstr & Htake & Hrun & Hstop).
      { apply strlen_insert_NUL. lia. }
      exists k. split; [lia|]. split; [exact Hstr|]. split.
      { rewrite Htake. apply take_insert_ge. lia. }
      split.
      * intros j Hj. destruct (decide (j = n)) as [->|Hne]; [exact Htest|].
        rewrite <- (str_at_insert_ne cp n j NUL) by lia. apply Hrun. lia.
      * destruct Hstop as [->|Hstop]; [left; reflexivity|].
        destruct (decide (k = 0%nat)) as [->|Hk0]; [left; reflexivity|].
        right. rewrite <- (str_at_insert_ne cp n (k - 1) NUL) by lia. exact Hstop.
    + exists (S n). split; [lia|]. split; [exact Hlen|]. split; [reflexivity|].
      split; [intros; lia|]. right. rewrite Nat.sub_1_r. exact Htest.
Qed.

(** The forward loop stops at the first character that fails [test], and
    at the terminator when [test] fails on it. *)
Lemma lead_loop_spec (test : ascii -> bool) (cp : list ascii) (n : nat) :
  forall i, (i + n = strlen cp)%nat ->
  let r := lead_loop test cp n i in
  (i <= r <= strlen cp)%nat /\
  (forall j, (i <= j < r)%nat -> test (str_at cp j) = true) /\
  (r = strlen cp \/ test (str_at cp r) = false).
Proof.
  induction n as [|n IH]; intros i Hi; cbn [lead_loop].
  - split; [lia|]. split; [intros; lia|]. left. lia.
  - destruct (test (str_at cp i)) eqn:Htest.
    + destruct (IH (S i)) as (Hr & Hrun & Hstop); [lia|].
      split; [lia|]. split; [|exact Hstop].
      intros j Hj. destruct (decide (j = i)) as [->|Hne]; [exact Htest|]. apply Hrun. lia.
    + split; [lia|]. split; [intros; lia|]. right. exact Htest.
Qed.

Lemma lead_loop_stops (test : ascii -> bool) (cp : list ascii) :
  test NUL = false ->
  forall n i, (i <= strlen cp <= i + n)%nat ->
  lead_loop test cp n i = lead_loop test cp (strlen cp - i) i.
Proof.
  intros HNUL. induction n as [|n IH]; intros i Hi.
  - replace (strlen cp - i)%nat with 0%nat by lia. reflexivity.
  - destruct (decide (i = strlen cp)) as [->|Hne].
    + rewrite Nat.sub_diag. cbn [lead_loop]. rewrite str_at_strlen, HNUL. reflexivity.
    + replace (strlen cp - i)%nat with (S (strlen cp - S i)) by lia.
      cbn [lead_loop]. destruct (test (str_at cp i)); [|reflexivity].
      apply IH. lia.
Qed.

Lemma str_from_take (cp : list ascii) :
  list_ascii_of_string (str_from cp 0) = take (strlen cp) cp.
Proof. unfold str_from. rewrite drop_0. apply list_ascii_of_string_of_list_ascii. Qed.

Lemma trail_split (test : ascii -> bool) (cp : list ascii) :
  exists t,
    list_ascii_of_string (str_from cp 0)
    = list_ascii_of_string (str_from (trail_loop test cp (strlen cp)) 0) ++ t /\
    Forall (fun c => test c = true) t /\
    (forall s c, list_ascii_of_string (str_from (trail_loop test cp (strlen cp)) 0) = s ++ [c] ->
                 test c = false).
Proof.
  destruct (trail_loop_spec test (strlen cp) cp eq_refl) as (k & Hk & Hstr & Htake & Hrun & Hstop).
  exists (drop k (take (strlen cp) cp)).
  rewrite !str_from_take, Hstr, Htake. split; [|split].
  - rewrite <- (take_drop k (take (strlen cp) cp)) at 1.
    rewrite take_take. f_equal. f_equal. lia.
  - apply Forall_lookup. intros j c Hj.
    rewrite lookup_drop in Hj. apply lookup_take_Some in Hj as [Hj Hlt].
    specialize (Hrun (k + j)%nat ltac:(lia)). unfold str_at in Hrun.
    rewrite Hj in Hrun. exact Hrun.
  - intros s c Hs. destruct Hstop as [->|Hstop].
    + rewrite take_0 in Hs. destruct s; discriminate.
    + assert (Hlen : length (take k cp) = k).
      { rewrite length_take. pose proof (strlen_le_length cp). lia. }
      assert (Hc : take k cp !! (k - 1)%nat = Some c).
      { rewrite Hs. rewrite Hs, length_app in Hlen. cbn [length] in Hlen.
        rewrite lookup_app_r by lia. replace (k - 1 - length s)%nat with 0%nat by lia.
        reflexivity. }
      apply lookup_take_Some in Hc as [Hc _]. unfold str_at in Hstop.
      rewrite Hc in Hstop. exact Hstop.
Qed.

(** X14 (trim_eoline and trim_trail).  What [trim_eoline] leaves of a string
    is the string without its longest ending made of carriage returns and
    line feeds, and what [trim_trail] leaves is the string without its
    longest ending made of white space: nothing else is removed, and what
    is left does not end in such a character. *)
Theorem trim_eoline_cuts_line_end (cp : list ascii) :
  (exists t,
     list_ascii_of_string (str_from cp 0)
     = list_ascii_of_string (str_from (trim_eoline cp) 0) ++ t /\
     Forall (fun c => c = CR \/ c = LF) t /\
     forall s c, list_ascii_of_string (str_from (trim_eoline cp) 0) = s ++ [c] ->
                 c <> CR /\ c <> LF) /\
  (exists t,
     list_ascii_of_string (str_from cp 0)
     = list_ascii_of_string (str_from (trim_trail cp) 0) ++ t /\
     Forall (fun c => isspace c = true) t /\
     forall s c, list_ascii_of_string (str_from (trim_trail cp) 0) = s ++ [c] ->
                 isspace c = false).
Proof.
  assert (Heol : forall c, is_eol c = true <-> c = CR \/ c = LF).
  { intros c. unfold is_eol. rewrite orb_true_iff, !bool_decide_eq_true. reflexivity. }
  split.
  - unfold trim_eoline. destruct (Nat.eqb_spec (strlen cp) 0) as [Hlen|_].
    + exists []. rewrite app_nil_r. split; [reflexivity|]. split; [constructor|].
      intros s c Hs. rewrite str_from_take, Hlen, take_0 in Hs. destruct s; discriminate.
    + destruct (trail_split is_eol cp) as (t & Happ & Ht & Hend).
      exists t. split; [exact Happ|]. split.
      * eapply Forall_impl; [exact Ht|]. intros c. apply Heol.
      * intros s c Hs. specialize (Hend s c Hs).
        split; intros ->; discriminate.
  - unfold trim_trail. destruct (Nat.eqb_spec (strlen cp) 0) as [Hlen|_].
    + exists []. rewrite app_nil_r. split; [reflexivity|]. split; [constructor|].
      intros s c Hs. rewrite str_from_take, Hlen, take_0 in Hs. destruct s; discriminate.
    + exact (trail_split isspace cp).
Qed.

(** X15 (trim_lead and trim_bom).  The pointer [trim_lead] returns is past
    the longest beginning of the string made of white space, and the
    pointer [trim_bom] returns is past its longest beginning made of
    characters outside ASCII: it stays within the string, everything
    before it is such a character, and the character it points at is not
    one, or is the terminator. *)
Theorem trim_bom_skips_to_ascii (cp : list ascii) :
  ((trim_lead cp <= strlen cp)%nat /\
   (forall j, (j < trim_lead cp)%nat -> isspace (str_at cp j) = true) /\
   isspace (str_at cp (trim_lead cp)) = false) /\
  ((trim_bom cp <= strlen cp)%nat /\
   (forall j, (j < trim_bom cp)%nat -> isascii (str_at cp j) = false) /\
   isascii (str_at cp (trim_bom cp)) = true).
Proof.
  split.
  - unfold trim_lead. destruct (Nat.eqb_spec (strlen cp) 0) as [Hlen|_].
    + split; [lia|]. split; [intros; lia|].
      rewrite <- Hlen, str_at_strlen. reflexivity.
    + destruct (lead_loop_spec isspace cp (strlen cp) 0 eq_refl) as (Hr & Hrun & Hstop).
      split; [lia|]. split; [intros j Hj; apply Hrun; lia|].
      destruct Hstop as [->|Hstop]; [rewrite str_at_strlen; reflexivity|exact Hstop].
  - unfold trim_bom. destruct (Nat.eqb_spec (strlen cp) 0) as [Hlen|_].
    + split; [lia|]. split; [intros; lia|].
      rewrite <- Hlen, str_at_strlen. reflexivity.
    + destruct (lead_loop_spec (fun c => negb (isascii c)) cp (strlen cp) 0 eq_refl)
        as (Hr & Hrun & Hstop).
      split; [lia|]. split.
      * intros j Hj. apply negb_true_iff. apply Hrun. lia.
      * destruct Hstop as [->|Hstop]; [rewrite str_at_strlen; reflexivity|].
        apply negb_false_iff. exact Hstop.
Qed.

(** X16 (trim_both).  [trim_both] is [trim_trail] followed by [trim_lead]:
    it leaves the array as [trim_trail] leaves it and returns the pointer
    that [trim_lead] returns on that array, although its forward loop runs
    to the old length of the string. *)
Theorem trim_both_is_trail_then_lead (cp : list ascii) :
  trim_both cp = (trim_trail cp, trim_lead (trim_trail cp)).
Proof.
  unfold trim_both, trim_trail. destruct (Nat.eqb_spec (strlen cp) 0) as [Hlen|Hlen].
  - unfold trim_lead. rewrite Hlen. reflexivity.
  - f_equal. set (cp' := trail_loop isspace cp (strlen cp)).
    destruct (trail_loop_spec isspace (strlen cp) cp eq_refl) as (k & Hk & Hstr & _).
    fold cp' in Hstr. unfold trim_lead. rewrite Hstr.
    rewrite (lead_loop_stops isspace cp' eq_refl (strlen cp) 0) by lia.
    rewrite Hstr, Nat.sub_0_r.
    destruct (Nat.eqb_spec k 0) as [->|_]; reflexivity.
Qed.

(** ** The copy of the input *)

Lemma fgets_into_app (line : list ascii) (s : string) :
  fgets_into line s
  = list_ascii_of_string s ++ NUL :: drop (S (String.length s)) line.
Proof.
  unfold fgets_into. rewrite <- app_assoc, length_app, length_list_of_string.
  cbn [length app]. rewrite Nat.add_1_r. reflexivity.
Qed.

Lemma strlen_list_le (s : string) :
  (strlen (list_ascii_of_string s) <= String.length s)%nat.
Proof. rewrite <- length_list_of_string. apply strlen_le_length. Qed.

Lemma trim_bom_fgets (line : list ascii) (s : string) :
  trim_bom (fgets_into line s) = trim_bom (list_ascii_of_string s).
Proof.
  rewrite fgets_into_app. unfold trim_bom. rewrite strlen_app_l.
  destruct (strlen (list_ascii_of_string s) =? 0)%nat; [reflexivity|].
  apply lead_loop_app. simpl. apply strlen_le_length.
Qed.

Lemma trim_eoline_app (a b : list ascii) :
  trim_eoline (a ++ NUL :: b) = trim_eoline a ++ NUL :: b.
Proof.
  unfold trim_eoline. rewrite strlen_app_l.
  destruct (strlen a =? 0)%nat; [reflexivity|].
  apply trail_loop_app. apply strlen_le_length.
Qed.

Lemma strlen_drop (cp : list ascii) (k : nat) :
  (k <= strlen cp)%nat -> strlen (drop k cp) = (strlen cp - k)%nat.
Proof.
  revert cp. induction k as [|k IH]; intros cp Hk; [rewrite drop_0; lia|].
  destruct cp as [|c cp]; [simpl in Hk; lia|].
  cbn [strlen] in *. destruct (decide (c = NUL)); [lia|].
  cbn [drop]. rewrite IH by lia. lia.
Qed.

(** One line of the copy: what is printed depends on the buffer [s] just
    read only, as long as the pointer is within the string. *)
Lemma print_line_fgets (line : list ascii) (s : string) (k : nat) (lineno : Z) :
  (k <= strlen (list_ascii_of_string s))%nat ->
  print_line lineno (trim_eoline (drop k (fgets_into line s)))
  = print_line lineno (trim_eoline (drop k (list_ascii_of_string s))).
Proof.
  intros Hk. unfold print_line.
  rewrite fgets_into_app. pose proof (strlen_le_length (list_ascii_of_string s)).
  rewrite drop_app_le by lia.
  rewrite trim_eoline_app, str_from_app_l. reflexivity.
Qed.

Lemma print_file_loop_echo (k : nat) (lines : list string) :
  forall (lineno : Z) (line : list ascii),
  0 < lineno -> lineno + Z.of_nat (length lines) < 2 ^ ULONG_BITS ->
  Forall (fun s => (k <= strlen (list_ascii_of_string s))%nat) lines ->
  print_file_loop lines lineno line k
  = imap (fun n s => print_line (lineno + Z.of_nat (S n))
                       (trim_eoline (drop k (list_ascii_of_string s)))) lines.
Proof.
  induction lines as [|s lines IH]; intros lineno line Hpos Hmax Hlines; [reflexivity|].
  apply Forall_cons in Hlines as [Hs Hlines]. cbn [length] in Hmax.
  cbn [print_file_loop imap].
  rewrite (proj2 (Z.eqb_neq lineno 0)) by lia.
  assert (Hno : ulong (lineno + 1) = lineno + 1).
  { unfold ulong. apply Z.mod_small. lia. }
  rewrite Hno, (print_line_fgets line s k _ Hs). f_equal.
  rewrite (IH (lineno + 1)) by (assumption || lia).
  apply imap_ext. intros n s' _. cbn. f_equal. lia.
Qed.

Lemma trim_bom_le (cp : list ascii) : (trim_bom cp <= strlen cp)%nat.
Proof.
  unfold trim_bom. destruct (Nat.eqb_spec (strlen cp) 0) as [_|_]; [lia|].
  destruct (lead_loop_spec (fun c => negb (isascii c)) cp (strlen cp) 0 eq_refl) as (Hr & _).
  lia.
Qed.

(** X17 (print_file).  [lp] is set by [trim_bom] on the first buffer only and
    used for all of them.  When [k] characters outside ASCII start the
    input, every buffer that [fgets] returns is copied as one line
    [//<number>: <text>] where the number counts the buffers from 1 and the
    text is the buffer without its first [k] characters and without the
    carriage returns and line feeds at its end, provided that no buffer is
    shorter than [k]; with [k = 0] this is the whole of every buffer.  The
    result does not depend on what the locals held at entry. *)
Theorem print_file_copies_lines (fname_in file s : string) (lines : list string)
    (line : list ascii) (lp : nat) :
  let k := trim_bom (list_ascii_of_string s) in
  read_lines file = s :: lines ->
  Forall (fun s' => (k <= strlen (list_ascii_of_string s'))%nat) lines ->
  Z.of_nat (length (s :: lines)) < 2 ^ ULONG_BITS ->
  print_file fname_in file line lp
  = [ rule;
      "//***  Input Pin Info CSV file " +:+ fname_in +:+ ", printed below for reference:"
        +:+ String LF "";
      rule ]
    ++ imap (fun n s' => print_line (Z.of_nat (S n))
                           (trim_eoline (drop k (list_ascii_of_string s')))) (s :: lines)
    ++ [ rule; "//***  END OF FILE " +:+ fname_in +:+ String LF ""; rule ].
Proof.
  intros k Hfile Hlines Hmax. unfold print_file. rewrite Hfile. do 2 f_equal.
  cbn [length] in Hmax.
  cbn [print_file_loop imap]. rewrite Z.eqb_refl, trim_bom_fgets. fold k.
  pose proof (trim_bom_le (list_ascii_of_string s)) as Hk. fold k in Hk.
  change (ulong (0 + 1)) with 1.
  rewrite (print_line_fgets line s k _ Hk). f_equal.
  rewrite (print_file_loop_echo k lines 1) by (assumption || lia).
  apply imap_ext. intros n s' _. cbn. f_equal. lia.
Qed.

Lemma print_file_copies_lines_witness :
  let s := LINE (String "239" (String "187" (String "191" "ITEM,PIN"))) in
  let lines := [LINE "1,46"; LINE "2,47"] in
  let file := s +:+ LINE "1,46" +:+ LINE "2,47" in
  let k := trim_bom (list_ascii_of_string s) in
  print_file "pins.csv" file (replicate MAXCHARS "?"%char) 7
  = [ rule;
      "//***  Input Pin Info CSV file " +:+ "pins.csv" +:+ ", printed below for reference:"
        +:+ String LF "";
      rule ]
    ++ imap (fun n s' => print_line (Z.of_nat (S n))
                           (trim_eoline (drop k (list_ascii_of_string s')))) (s :: lines)
    ++ [ rule; "//***  END OF FILE " +:+ "pins.csv" +:+ String LF ""; rule ].
Proof.
  intros s lines file k.
  apply (print_file_copies_lines "pins.csv" file s lines (replicate MAXCHARS "?"%char) 7).
  - vm_compute. reflexivity.
  - repeat constructor; vm_compute; lia.
  - vm_compute. reflexivity.
Defined.

(** ** The pointer array *)

Lemma pinarray_entry_not_break (PREFIX : string) (pd : PINDEF) :
  (pinarray_entry PREFIX pd =? pinarray_break)%string = false.
Proof.
  assert (Hhead : exists rest, pinarray_entry PREFIX pd = String "&" rest)
    by (eexists; reflexivity).
  destruct Hhead as [rest ->]. reflexivity.
Qed.

(** X18 (the pointer array).  Between the line breaks that [print_pinarray_c]
    inserts, the array holds one pointer per entry of the table, in the
    order of the table: wrapping neither drops nor repeats an entry, so
    that the pointer at position [i] is to the entry stored at [i]. *)
Theorem print_pinarray_c_lists_table (PREFIX : string) (table : list PINDEF) (ncol : Z) :
  List.filter (fun s => negb (String.eqb s pinarray_break)) (pinarray_loop PREFIX table ncol)
  = pinarray_entry PREFIX <$> table.
Proof.
  revert ncol. induction table as [|pd table IH]; intros ncol; [reflexivity|].
  cbn [pinarray_loop fmap list_fmap List.filter].
  rewrite pinarray_entry_not_break.
  cbn [negb]. f_equal.
  destruct (80 <? _); [|apply IH].
  cbn [List.filter]. rewrite String.eqb_refl. apply IH.
Qed.

(** ** The buffers of the input *)

Lemma append_empty_r (s : string) : s +:+ "" = s.
Proof. induction s as [|c s IH]; [reflexivity|]. change (String c (s +:+ "") = String c s). rewrite IH. reflexivity. Qed.

Lemma string_of_list_app (a b : list ascii) :
  string_of_list_ascii (a ++ b) = string_of_list_ascii a +:+ string_of_list_ascii b.
Proof.
  induction a as [|c a IH]; [reflexivity|].
  change (String c (string_of_list_ascii (a ++ b))
          = String c (string_of_list_ascii a +:+ string_of_list_ascii b)).
  rewrite IH. reflexivity.
Qed.

Lemma concat_empty_cons (x : string) (xs : list string) :
  String.concat "" (x :: xs) = x +:+ String.concat "" xs.
Proof. destruct xs; [symmetry; apply append_empty_r|reflexivity]. Qed.

Lemma string_of_rev_cons (c : ascii) (acc : list ascii) (rest : string) :
  string_of_list_ascii (rev (c :: acc)) +:+ rest
  = string_of_list_ascii (rev acc) +:+ String c rest.
Proof.
  cbn [rev]. rewrite string_of_list_app, string_app_assoc. reflexivity.
Qed.

Lemma fgets_lines_concat (file : string) :
  forall room acc,
  String.concat "" (fgets_lines room acc file)
  = string_of_list_ascii (rev acc) +:+ file.
Proof.
  induction file as [|c file IH]; intros room acc; cbn [fgets_lines].
  - destruct acc as [|a acc]; [reflexivity|]. rewrite append_empty_r. reflexivity.
  - destruct (decide (c = LF)) as [_|_].
    + rewrite concat_empty_cons, IH. apply string_of_rev_cons.
    + destruct room as [|[|room]].
      * rewrite concat_empty_cons, IH. apply string_of_rev_cons.
      * rewrite concat_empty_cons, IH. apply string_of_rev_cons.
      * rewrite IH. apply string_of_rev_cons.
Qed.

Lemma fgets_buffer_rev (c : ascii) (acc : list ascii) :
  (length acc < MAXCHARS - 1)%nat -> Forall (fun x => x <> LF) acc ->
  fgets_buffer (string_of_list_ascii (rev (c :: acc))).
Proof.
  intros Hlen Hacc. exists (rev acc), c.
  rewrite list_ascii_of_string_of_list_ascii. split; [reflexivity|].
  split; [rewrite length_rev; exact Hlen|].
  apply List.Forall_rev. exact Hacc.
Qed.

Lemma fgets_lines_buffers (file : string) :
  forall room acc,
  (1 <= room)%nat -> (room + length acc = MAXCHARS - 1)%nat ->
  Forall (fun x => x <> LF) acc ->
  Forall fgets_buffer (fgets_lines room acc file).
Proof.
  assert (Hstart : (1 <= MAXCHARS - 1)%nat /\ (MAXCHARS - 1 + 0 = MAXCHARS - 1)%nat).
  { unfold MAXCHARS. lia. }
  induction file as [|c file IH]; intros room acc Hroom Hsum Hacc; cbn [fgets_lines].
  - destruct acc as [|a acc]; [constructor|].
    apply Forall_cons in Hacc as [_ Hacc]. constructor; [|constructor].
    apply fgets_buffer_rev; [unfold MAXCHARS in *; cbn [length] in *; lia|exact Hacc].
  - destruct (decide (c = LF)) as [_|Hc].
    + constructor; [apply fgets_buffer_rev; [unfold MAXCHARS in *; lia|exact Hacc]|].
      apply IH; [apply Hstart|apply Hstart|constructor].
    + destruct room as [|[|room]]; [lia| |].
      * constructor; [apply fgets_buffer_rev; [unfold MAXCHARS in *; lia|exact Hacc]|].
        apply IH; [apply Hstart|apply Hstart|constructor].
      * apply IH; [lia|unfold MAXCHARS in *; cbn [length] in *; lia|constructor; assumption].
Qed.

Lemma length_string_of_list (l : list ascii) :
  String.length (string_of_list_ascii l) = length l.
Proof. induction l as [|c l IH]; [reflexivity|]. simpl. rewrite IH. reflexivity. Qed.

Lemma fgets_lines_complete (file : string) :
  forall room acc i b,
  (1 <= room)%nat -> (room + length acc = MAXCHARS - 1)%nat ->
  fgets_lines room acc file !! i = Some b ->
  is_Some (fgets_lines room acc file !! S i) ->
  fgets_complete b.
Proof.
  assert (Hstart : (1 <= MAXCHARS - 1)%nat /\ (MAXCHARS - 1 + 0 = MAXCHARS - 1)%nat).
  { unfold MAXCHARS. lia. }
  destruct Hstart as [Hstart1 Hstart2].
  induction file as [|c file IH]; intros room acc i b Hroom Hsum; cbn [fgets_lines].
  - destruct acc; [intros Hb; discriminate|]. intros _ [x Hx]. discriminate.
  - destruct (decide (c = LF)) as [->|Hc].
    + destruct i as [|i].
      * intros [= <-] _. left. exists (rev acc).
        rewrite list_ascii_of_string_of_list_ascii. reflexivity.
      * apply (IH _ [] i b Hstart1 Hstart2).
    + destruct room as [|[|room]]; [lia| |].
      * destruct i as [|i]; [|apply (IH _ [] i b Hstart1 Hstart2)].
        intros [= <-] _. right. rewrite length_string_of_list.
        cbn [rev]. rewrite length_app, length_rev.
        unfold MAXCHARS in *. cbn [length] in *. lia.
      * apply IH; [lia|]. unfold MAXCHARS in *. cbn [length] in *. lia.
Qed.

(** X19 (the buffers of the input).  The calls of [fgets] cut the input into
    buffers and lose nothing: the buffers joined are the input, each holds
    between 1 and 255 characters with no line feed before its last, and
    each but the last ends in a line feed or holds 255 characters.  So a
    line of 255 or more characters reaches the loop as more than one
    buffer. *)
Theorem read_lines_partition (file : string) :
  String.concat "" (read_lines file) = file /\
  Forall fgets_buffer (read_lines file) /\
  forall i b, read_lines file !! i = Some b ->
              is_Some (read_lines file !! S i) -> fgets_complete b.
Proof.
  unfold read_lines. split; [|split].
  - rewrite fgets_lines_concat. reflexivity.
  - apply fgets_lines_buffers; [unfold MAXCHARS; lia|reflexivity|constructor].
  - intros i b. apply fgets_lines_complete; [unfold MAXCHARS; lia|reflexivity].
Qed.

(** ** The END line *)

Lemma fgets_lines_app (a b : string) :
  forall room acc,
  fgets_lines room acc ((a +:+ String LF "") +:+ b)
  = fgets_lines room acc (a +:+ String LF "") ++ read_lines b.
Proof.
  induction a as [|c a IH]; intros room acc.
  - change (("" +:+ String LF "") +:+ b) with (String LF b).
    change ("" +:+ String LF "") with (String LF "").
    cbn [fgets_lines]. rewrite decide_True by reflexivity. reflexivity.
  - change ((String c a +:+ String LF "") +:+ b)
      with (String c ((a +:+ String LF "") +:+ b)).
    change (String c a +:+ String LF "") with (String c (a +:+ String LF "")).
    cbn [fgets_lines]. destruct (decide (c = LF)) as [_|_].
    + rewrite IH. reflexivity.
    + destruct room as [|[|room]]; rewrite IH; reflexivity.
Qed.

Lemma fgets_lines_head (file : string) :
  forall room acc, acc <> [] ->
  exists t more,
    fgets_lines room acc file = (string_of_list_ascii (rev acc) +:+ t) :: more.
Proof.
  induction file as [|c file IH]; intros room acc Hacc; cbn [fgets_lines].
  - destruct acc as [|a acc]; [contradiction|].
    exists "", []. rewrite append_empty_r. reflexivity.
  - assert (Hemit : string_of_list_ascii (rev (c :: acc))
                    = string_of_list_ascii (rev acc) +:+ String c "").
    { rewrite <- (append_empty_r (string_of_list_ascii (rev (c :: acc)))).
      apply string_of_rev_cons. }
    destruct (decide (c = LF)) as [_|_]; [rewrite Hemit; eauto|].
    destruct room as [|[|room]]; [rewrite Hemit; eauto..|].
    destruct (IH (S room) (c :: acc)) as (t & more & Heq); [discriminate|].
    exists (String c t), more. rewrite Heq. f_equal. apply string_of_rev_cons.
Qed.

Lemma read_lines_END (rest : string) :
  exists line more,
    read_lines ("END" +:+ rest) = line :: more /\ strncmp_eq (c_str line) "END" = true.
Proof.
  destruct (fgets_lines_head rest (MAXCHARS - 4) ["D"; "N"; "E"]%char) as (t & more & Heq);
    [discriminate|].
  exists ("END" +:+ t), more. split; [exact Heq|].
  unfold strncmp_eq. change (c_str ("END" +:+ t)) with (String "E" (String "N" (String "D" (c_str t)))).
  cbn [String.prefix]. repeat (rewrite decide_True by reflexivity || simpl).
  apply prefix_empty.
Qed.

Lemma while_loop_END (PREFIX : string) (line : string) (after : list string) :
  strncmp_eq (c_str line) "END" = true ->
  forall lines st,
  while_loop PREFIX st (lines ++ line :: after) = while_loop PREFIX st lines.
Proof.
  intros HEND. induction lines as [|l lines IH]; intros st.
  - cbn [app while_loop]. unfold while_body. rewrite HEND. reflexivity.
  - cbn [app while_loop]. destruct (while_body PREFIX st l); [apply IH|reflexivity..].
Qed.

Lemma read_lines_nonempty (a : string) :
  read_lines (a +:+ String LF "") <> [].
Proof.
  pose proof (fgets_lines_concat (a +:+ String LF "") (MAXCHARS - 1) []) as Hcat.
  fold (read_lines (a +:+ String LF "")) in Hcat. intros Hnil. rewrite Hnil in Hcat.
  destruct a; discriminate.
Qed.

Lemma length_print_file_loop (lines : list string) :
  forall lineno line lp,
  length (print_file_loop lines lineno line lp) = length lines.
Proof.
  induction lines as [|s lines IH]; intros lineno line lp; [reflexivity|].
  cbn [print_file_loop length]. rewrite IH. reflexivity.
Qed.

Lemma length_print_file (fname file : string) (line : list ascii) (lp : nat) :
  length (print_file fname file line lp) = (6 + length (read_lines file))%nat.
Proof.
  unfold print_file. rewrite !length_app, length_print_file_loop. cbn [length]. lia.
Qed.

(** X20 (the END line).  A line that starts with END ends the input of the
    loop: whatever follows it in the file, rows or not, changes neither
    the exit code, the error report, the pin table, the register values
    nor any line written before [print_file] is called, and so not the C
    file.  (The line must not be the first of the file, which is skipped as
    the header whatever it holds.)  It does not end the input of
    [print_file]: after a run with exit code 0 the two headers are the
    same up to the copy of the input, and the copy is longer by one line
    for every buffer from the END line on. *)
Theorem input_after_END_is_ignored (head rest PREFIX : string)
    (env : ENV) (line : list ascii) (lp : nat) :
  let file0 := head +:+ String LF "" in
  let file1 := file0 +:+ ("END" +:+ rest) in
  let copy := fun file r =>
    if exit_code r =? 0 then print_file (fname_in env) file line lp else [] in
  main file1 PREFIX = main file0 PREFIX /\
  (0 < length (read_lines ("END" +:+ rest)))%nat /\
  (forall r h0,
     main file0 PREFIX = Some r ->
     file_h env PREFIX file0 line lp r = Some h0 ->
     exists before,
       h0 = before ++ copy file0 r /\
       file_h env PREFIX file1 line lp r = Some (before ++ copy file1 r) /\
       length (copy file1 r)
       = (length (copy file0 r)
          + if (exit_code r =? 0)%Z then length (read_lines ("END" +:+ rest)) else 0)%nat).
Proof.
  intros file0 file1 copy. split; [|split].
  - unfold main. f_equal. unfold file1, file0, read_lines at 1. rewrite fgets_lines_app.
    fold (read_lines (head +:+ String LF "")).
    pose proof (read_lines_nonempty head) as Hne.
    destruct (read_lines (head +:+ String LF "")) as [|header lines]; [contradiction|].
    cbn [app tail].
    destruct (read_lines_END rest) as (l & more & -> & HEND).
    apply (while_loop_END PREFIX l more HEND).
  - destruct (read_lines_END rest) as (l & more & -> & _). cbn [length]. lia.
  - intros r h0 _. unfold file_h.
    destruct (header_before_copy env PREFIX r) as [before|]; [|discriminate].
    cbn [mbind option_bind]. intros [= <-]. exists before.
    split; [reflexivity|]. split; [reflexivity|]. unfold copy.
    destruct (exit_code r =? 0); [|reflexivity].
    rewrite !length_print_file.
    unfold file1, file0, read_lines at 1. rewrite fgets_lines_app, length_app.
    fold (read_lines (head +:+ String LF "")). lia.
Qed.

(** ** The declarations written by the input loop *)







(** ** The table and the rows of the input *)




(** ** The error report *)






(** ** The project prefix *)

Lemma isprint_tolower (c : ascii) : isprint (tolower c) = isprint c.
Proof. destruct c as [[] [] [] [] [] [] [] []]; reflexivity. Qed.

Lemma prefix_loop_Some (arg prefix PREFIX : string) :
  prefix_loop arg = Some (prefix, PREFIX) ->
  list_ascii_of_string prefix = tolower <$> list_ascii_of_string arg /\
  list_ascii_of_string PREFIX = toupper <$> list_ascii_of_string prefix /\
  Forall (fun c => isprint c = true) (list_ascii_of_string arg).
Proof.
  revert prefix PREFIX. induction arg as [|c arg IH]; intros prefix PREFIX; cbn [prefix_loop].
  - intros [= <- <-]. repeat split; constructor.
  - destruct (isprint c) eqn:Hc; [|discriminate].
    destruct (prefix_loop arg) as [[p P]|]; [|discriminate].
    intros [= <- <-]. destruct (IH p P eq_refl) as (Hp & HP & Hall).
    cbn [list_ascii_of_string fmap list_fmap].
    split; [f_equal; exact Hp|]. split; [f_equal; exact HP|]. constructor; assumption.
Qed.

Lemma prefix_loop_None (arg : string) :
  prefix_loop arg = None ->
  Exists (fun c => isprint c = false) (list_ascii_of_string arg).
Proof.
  induction arg as [|c arg IH]; cbn [prefix_loop]; [discriminate|].
  destruct (isprint c) eqn:Hc; [|intros _; left; exact Hc].
  destruct (prefix_loop arg) as [[p P]|]; [discriminate|].
  intros _. right. apply IH. reflexivity.
Qed.

Lemma prefix_loop_case (arg arg' : string) :
  tolower <$> list_ascii_of_string arg = tolower <$> list_ascii_of_string arg' ->
  prefix_loop arg = prefix_loop arg'.
Proof.
  revert arg'. induction arg as [|c arg IH]; intros [|c' arg']; try discriminate;
    [reflexivity|].
  cbn [list_ascii_of_string fmap list_fmap]. intros [= Hc Harg].
  cbn [prefix_loop]. rewrite <- (isprint_tolower c), <- (isprint_tolower c'), Hc.
  rewrite (IH arg' Harg). reflexivity.
Qed.

Lemma length_fmap_string (f : ascii -> ascii) (s s' : string) :
  f <$> list_ascii_of_string s = f <$> list_ascii_of_string s' ->
  String.length s = String.length s'.
Proof.
  intros Heq. rewrite <- !length_list_of_string.
  rewrite <- (length_fmap f (list_ascii_of_string s)), Heq. apply length_fmap.
Qed.

(** X23 (the project prefix and the case of its letters).  Two arguments that
    differ only in the case of their letters are treated alike: both are
    refused or both are accepted, and then with the same [prefix], the
    same [PREFIX] and the same names for the two output files. *)
Theorem check_prefix_ignores_case (arg arg' : string) :
  tolower <$> list_ascii_of_string arg = tolower <$> list_ascii_of_string arg' ->
  check_prefix arg = check_prefix arg'.
Proof.
  intros Hcase. unfold check_prefix.
  rewrite (length_fmap_string tolower arg arg' Hcase), (prefix_loop_case arg arg' Hcase).
  reflexivity.
Qed.

Lemma check_prefix_ignores_case_witness :
  check_prefix "Zebra_2" = check_prefix "ZEBRA_2".
Proof.
  apply (check_prefix_ignores_case "Zebra_2" "ZEBRA_2").
  vm_compute. reflexivity.
Defined.

(** X24 (which prefixes are accepted).  An argument of at most 248 characters
    is accepted exactly when all its characters are printable, whether or
    not it can be part of a C identifier, and is refused with [exit(99)]
    otherwise.  When it is accepted, [prefix] is the argument in lower
    case and [PREFIX] the argument in upper case, and the output files are
    named after [prefix]. *)
Theorem check_prefix_accepts_printable (arg : string) :
  (String.length arg <= 248)%nat ->
  (Forall (fun c => isprint c = true) (list_ascii_of_string arg) ->
   exists prefix PREFIX,
     check_prefix arg
     = Some (PrefixOk prefix PREFIX (prefix +:+ "_gpio.c") (prefix +:+ "_gpio.h")) /\
     list_ascii_of_string prefix = tolower <$> list_ascii_of_string arg /\
     list_ascii_of_string PREFIX = toupper <$> list_ascii_of_string prefix) /\
  (Exists (fun c => isprint c = false) (list_ascii_of_string arg) ->
   check_prefix arg = Some PrefixError).
Proof.
  intros Hlen. unfold check_prefix.
  destruct (Nat.leb_spec MAXCHARS (String.length arg)) as [Hbig|_];
    [unfold MAXCHARS in Hbig; lia|].
  destruct (prefix_loop arg) as [[prefix PREFIX]|] eqn:Hloop.
  - destruct (prefix_loop_Some arg prefix PREFIX Hloop) as (Hp & HP & Hall).
    assert (Hplen : String.length prefix = String.length arg).
    { rewrite <- !length_list_of_string, Hp. apply length_fmap. }
    destruct (Nat.ltb_spec MAXCHARS (String.length prefix + 8)) as [Hbig|_];
      [unfold MAXCHARS in Hbig; lia|].
    split; [intros _; exists prefix, PREFIX; auto|].
    intros Hex. exfalso. apply Exists_exists in Hex as (c & Hin & Hc).
    rewrite Forall_forall in Hall. rewrite (Hall c Hin) in Hc. discriminate.
  - split; [|reflexivity].
    intros Hall. exfalso. apply prefix_loop_None in Hloop.
    apply Exists_exists in Hloop as (c & Hin & Hc).
    rewrite Forall_forall in Hall. rewrite (Hall c Hin) in Hc. discriminate.
Qed.

Lemma check_prefix_accepts_printable_witness :
  let arg := "my-board" in
  (Forall (fun c => isprint c = true) (list_ascii_of_string arg) ->
   exists prefix PREFIX,
     check_prefix arg
     = Some (PrefixOk prefix PREFIX (prefix +:+ "_gpio.c") (prefix +:+ "_gpio.h")) /\
     list_ascii_of_string prefix = tolower <$> list_ascii_of_string arg /\
     list_ascii_of_string PREFIX = toupper <$> list_ascii_of_string prefix) /\
  (Exists (fun c => isprint c = false) (list_ascii_of_string arg) ->
   check_prefix arg = Some PrefixError).
Proof.
  intros arg. apply (check_prefix_accepts_printable arg).
  vm_compute. lia.
Defined.

